(** * PoDoFo: cross-reference resolver and indirect-object store

    A shallow embedding of the parts of [PdfIndirectObjectList.cpp] and
    [PdfParser.cpp] that carry the free-list protocol, the classical
    cross-reference table reader, the trailer merge, the [Prev] walk and
    the backward token search, together with the properties the
    specification states about them.

    Beside them: the allocator, the copy constructor and the garbage
    collector of the store; the magic word and the end-of-file marker as
    they are read from the device; the loop of [readObjectsInternal] over
    the entry table; the offset of the previous revision and the trailer
    handed to the caller, with properties read off the code.

    Conventions.
    - C++ unsigned integers are [Z] with the wrap-around written out
      ([wrap32], [wrap64]); [ssize_t] is [Z] read back through [to_ssize].
    - [char] is [ascii]; buffers are [list ascii].
    - Exceptions ([PODOFO_RAISE_ERROR]) are the [Raise] constructor of
      [Result]; where member state survives an exception, the state is
      returned beside the result.
    - [std::set] is [gset], [std::map]-like dictionaries are [gmap],
      [std::deque] is [list]. *)

From Stdlib Require Import ZArith Lia Ascii String.
From stdpp Require Import gmap strings list sorting.

Local Open Scope Z_scope.

(** ** Error codes and results *)

Inductive PdfErrorCode : Type :=
  | InvalidHandle
  | InvalidPDF
  | InvalidXRef
  | InvalidTrailer
  | InvalidEOFToken
  | InvalidNumber
  | InvalidObject
  | ObjectNotFound
  | InvalidEncryptionDict
  | InvalidPassword
  | UnexpectedEOF
  | ValueOutOfRange
  | InternalLogic
  | RecursionLimit.

#[global] Instance PdfErrorCode_eq_dec : EqDecision PdfErrorCode.
Proof. solve_decision. Defined.

Inductive Result (A : Type) : Type :=
  | Ok (a : A)
  | Raise (e : PdfErrorCode).

Arguments Ok {A} a.
Arguments Raise {A} e.

Definition wrap32 (z : Z) : Z := z mod 2 ^ 32.
Definition wrap64 (z : Z) : Z := z mod 2 ^ 64.
Definition wrap16 (z : Z) : Z := z mod 2 ^ 16.

(** [(ssize_t)u] for a 64-bit unsigned [u]. *)
Definition to_ssize (u : Z) : Z :=
  if Z.ltb (wrap64 u) (2 ^ 63) then wrap64 u else wrap64 u - 2 ^ 64.

(** ** Indirect references *)

Record PdfReference : Type := mkRef {
  ObjectNumber : Z;      (* uint32_t *)
  GenerationNumber : Z   (* uint16_t *)
}.

#[global] Instance PdfReference_eq_dec : EqDecision PdfReference.
Proof. solve_decision. Defined.

#[global] Instance PdfReference_countable : Countable PdfReference.
Proof.
  refine (inj_countable' (fun r => (ObjectNumber r, GenerationNumber r))
                         (fun p => mkRef p.1 p.2) _).
  intros [n g]; reflexivity.
Defined.

(** Modelled from the spec: [PdfReference::operator<] is declared in
    [PdfReference.h]; the specification fixes the ordering as
    lexicographic on the pair (object number, generation). *)
Definition ref_ltb (a b : PdfReference) : bool :=
  if Z.eqb (ObjectNumber a) (ObjectNumber b)
  then Z.ltb (GenerationNumber a) (GenerationNumber b)
  else Z.ltb (ObjectNumber a) (ObjectNumber b).

Definition ref_lt (a b : PdfReference) : Prop := ref_ltb a b = true.

(** ** PDF values held by dictionaries and objects *)

#[local] Unset Elimination Schemes.
Inductive PdfVariant : Type :=
  | VNull
  | VBool (b : bool)
  | VNumber (n : Z)
  | VName (s : string)
  | VString (s : string)
  | VReference (r : PdfReference)
  | VArray (l : list PdfVariant)
  | VDictionary (l : list (string * PdfVariant)).
#[local] Set Elimination Schemes.

Record PdfObject : Type := mkObject {
  obj_value : PdfVariant;
  obj_dirty : bool
}.

(** * The indirect-object store ([PdfIndirectObjectList]) *)

Module IndirectObjectList.

Definition MaxXRefGenerationNum : Z := 65535.

Record t : Type := mkStore {
  m_Objects : gmap PdfReference PdfObject;  (* std::set ordered by reference *)
  m_ObjectCount : Z;
  m_FreeObjects : list PdfReference;        (* std::deque *)
  m_unavailableObjects : gset Z;
  m_compressedObjectStreams : gset Z
}.

(** The default constructor, and the state [Clear] leaves behind. *)
Definition empty : t :=
  mkStore ∅ 0 [] ∅ ∅.

Definition Clear (st : t) : t := empty.

Definition GetObject (ref : PdfReference) (st : t) : option PdfObject :=
  m_Objects st !! ref.

Definition MustGetObject (ref : PdfReference) (st : t) : Result PdfObject :=
  match GetObject ref st with
  | Some o => Ok o
  | None => Raise ObjectNotFound
  end.

Definition tryIncrementObjectCount (ref : PdfReference) (st : t) : t :=
  if Z.ltb (m_ObjectCount st) (ObjectNumber ref)
  then mkStore (m_Objects st) (ObjectNumber ref) (m_FreeObjects st)
               (m_unavailableObjects st) (m_compressedObjectStreams st)
  else st.

(** [std::equal_range] on a range partitioned by the comparator returns
    the pair (lower bound, upper bound): the first position whose element
    is not less than the value, and the first position whose element is
    greater than it.  Positions are indices into the deque. *)
Fixpoint lower_bound (l : list PdfReference) (v : PdfReference) : nat :=
  match l with
  | [] => O
  | e :: l' => if ref_ltb e v then S (lower_bound l' v) else O
  end.

Fixpoint upper_bound (l : list PdfReference) (v : PdfReference) : nat :=
  match l with
  | [] => O
  | e :: l' => if ref_ltb v e then O else S (upper_bound l' v)
  end.

Definition equal_range (l : list PdfReference) (v : PdfReference) : nat * nat :=
  (lower_bound l v, upper_bound l v).

(** [deque::insert(pos, x)]. *)
Definition insert_at (pos : nat) (x : PdfReference) (l : list PdfReference)
  : list PdfReference :=
  take pos l ++ x :: drop pos l.

Definition AddFreeObject (reference : PdfReference) (st : t) : t :=
  let it := equal_range (m_FreeObjects st) reference in
  if negb (Nat.eqb it.1 it.2) && negb (Nat.eqb (length (m_FreeObjects st)) 0)
  then st  (* already contained: logged, nothing added *)
  else
    tryIncrementObjectCount reference
      (mkStore (m_Objects st) (m_ObjectCount st)
               (insert_at it.1 reference (m_FreeObjects st))
               (m_unavailableObjects st) (m_compressedObjectStreams st)).

(** Returns the generation handed to the free list, or [-1]. *)
Definition tryAddFreeObject (objnum gennum : Z) (st : t) : Z * t :=
  if Z.leb MaxXRefGenerationNum gennum
  then (-1, mkStore (m_Objects st) (m_ObjectCount st) (m_FreeObjects st)
                    ({[ gennum ]} ∪ m_unavailableObjects st)
                    (m_compressedObjectStreams st))
  else (gennum, AddFreeObject (mkRef objnum (wrap16 gennum)) st).

Definition SafeAddFreeObject (reference : PdfReference) (st : t) : Z * t :=
  tryAddFreeObject (ObjectNumber reference) (GenerationNumber reference + 1) st.

Definition TryAddFreeObject (reference : PdfReference) (st : t) : bool * t :=
  let r := tryAddFreeObject (ObjectNumber reference) (GenerationNumber reference) st in
  (negb (Z.eqb r.1 (-1)), r.2).

Definition AddCompressedObjectStream (objectNum : Z) (st : t) : t :=
  mkStore (m_Objects st) (m_ObjectCount st) (m_FreeObjects st)
          (m_unavailableObjects st)
          ({[ objectNum ]} ∪ m_compressedObjectStreams st).

(** [removeObject(it, markAsFree)], the iterator addressing the object
    stored under [ref].  An exception leaves the store as it was. *)
Definition removeObject (ref : PdfReference) (obj : PdfObject) (markAsFree : bool)
    (st : t) : Result (option PdfObject * t) :=
  if decide (ObjectNumber ref ∈ m_compressedObjectStreams st)
  then Raise InternalLogic
  else
    let st1 := if markAsFree then (SafeAddFreeObject ref st).2 else st in
    Ok (Some obj,
        mkStore (delete ref (m_Objects st1)) (m_ObjectCount st1)
                (m_FreeObjects st1) (m_unavailableObjects st1)
                (m_compressedObjectStreams st1)).

Definition RemoveObject (ref : PdfReference) (markAsFree : bool) (st : t)
  : Result (option PdfObject * t) :=
  match m_Objects st !! ref with
  | None => Ok (None, st)
  | Some obj => removeObject ref obj markAsFree st
  end.

Definition PushObject (ref : PdfReference) (obj : PdfObject) (st : t) : t :=
  tryIncrementObjectCount ref
    (mkStore (<[ ref := obj ]> (m_Objects st)) (m_ObjectCount st)
             (m_FreeObjects st) (m_unavailableObjects st)
             (m_compressedObjectStreams st)).

Section Allocator.

(** [PdfCommon::GetMaxObjectCount()], configured outside this unit. *)
Variable MaxObjectCount : Z.

(** The [while (true)] loop of [getNextFreeObject].  Every turn that
    stays in the loop has met one more member of the unavailable set, so
    the fuel given by [getNextFreeObject] below runs out ([None]) only
    where the loop of the source would not end either; it never does
    when the maximum is below [2^32 - 1] ([getNextFreeObject_total]). *)
Fixpoint next_object_num (fuel : nat) (unavailable : gset Z) (nextObjectNum : Z)
  : option (Result Z) :=
  if Z.ltb MaxObjectCount nextObjectNum then Some (Raise ValueOutOfRange)
  else if decide (nextObjectNum ∈ unavailable)
  then match fuel with
       | O => None
       | S fuel' => next_object_num fuel' unavailable (wrap32 (nextObjectNum + 1))
       end
  else Some (Ok nextObjectNum).

Definition getNextFreeObject (st : t) : option (Result (PdfReference * t)) :=
  match m_FreeObjects st with
  | freeObjectRef :: rest =>
      Some (Ok (freeObjectRef,
                mkStore (m_Objects st) (m_ObjectCount st) rest
                        (m_unavailableObjects st) (m_compressedObjectStreams st)))
  | [] =>
      match next_object_num (size (m_unavailableObjects st))
                            (m_unavailableObjects st)
                            (wrap32 (m_ObjectCount st + 1)) with
      | None => None
      | Some (Raise e) => Some (Raise e)
      | Some (Ok n) => Some (Ok (mkRef n 0, st))
      end
  end.

Definition addNewObject (obj : PdfObject) (st : t)
  : option (Result (PdfReference * t)) :=
  match getNextFreeObject st with
  | None => None
  | Some (Raise e) => Some (Raise e)
  | Some (Ok (ref, st1)) => Some (Ok (ref, PushObject ref obj st1))
  end.

(** [CreateObject(const PdfObject&)]: copy, mark dirty, allocate. *)
Definition CreateObject (v : PdfVariant) (st : t)
  : option (Result (PdfReference * t)) :=
  addNewObject (mkObject v true) st.

(** Calls a client can make on the store. *)
Inductive Call : Type :=
  | CallCreateObject (v : PdfVariant)
  | CallPushObject (ref : PdfReference) (obj : PdfObject)
  | CallRemoveObject (ref : PdfReference) (markAsFree : bool)
  | CallAddFreeObject (ref : PdfReference)
  | CallTryAddFreeObject (ref : PdfReference)
  | CallAddCompressedObjectStream (objectNum : Z)
  | CallClear.

(** The store after one call; a call that throws (or does not return)
    leaves what it had changed before, which for every call here is
    nothing. *)
Definition step (c : Call) (st : t) : t :=
  match c with
  | CallCreateObject v =>
      match CreateObject v st with
      | Some (Ok (_, st')) => st'
      | _ => st
      end
  | CallPushObject ref obj => PushObject ref obj st
  | CallRemoveObject ref markAsFree =>
      match RemoveObject ref markAsFree st with
      | Ok (_, st') => st'
      | Raise _ => st
      end
  | CallAddFreeObject ref => AddFreeObject ref st
  | CallTryAddFreeObject ref => (TryAddFreeObject ref st).2
  | CallAddCompressedObjectStream n => AddCompressedObjectStream n st
  | CallClear => Clear st
  end.

Definition run (cs : list Call) (st : t) : t :=
  fold_left (fun s c => step c s) cs st.

End Allocator.

(** ** The copy constructor *)

(** [PdfIndirectObjectList(document, rhs)]: the count, the free list and
    the unavailable numbers are copied in the initializer list, every
    object is copied and inserted under the reference it had;
    [m_compressedObjectStreams] is not named and starts empty.
    [copy] is the copy constructor of [PdfObject]. *)
Definition copy_constructor (copy : PdfObject -> PdfObject) (rhs : t) : t :=
  mkStore (copy <$> m_Objects rhs) (m_ObjectCount rhs) (m_FreeObjects rhs)
          (m_unavailableObjects rhs) ∅.

(** ** Garbage collection *)

(** [visitObject] on the value of [obj].  [objects] is [m_Objects], read
    through [GetObject]; [follow] is the call made on the object a
    reference resolves to. *)
Section Visit.

Variable objects : gmap PdfReference PdfObject.
Variable follow :
  PdfVariant -> gset PdfReference -> option (gset PdfReference).

Fixpoint visit_value (v : PdfVariant) (referencedObjects : gset PdfReference)
    {struct v} : option (gset PdfReference) :=
  match v with
  | VReference indirectReference =>
      if decide (indirectReference ∈ referencedObjects)
      then Some referencedObjects  (* visited already *)
      else
        let inserted := {[ indirectReference ]} ∪ referencedObjects in
        match objects !! indirectReference with
        | None => Some inserted
        | Some childObj => follow (obj_value childObj) inserted
        end
  | VArray arr =>
      (fix visit_children (l : list PdfVariant) (s : gset PdfReference)
         : option (gset PdfReference) :=
         match l with
         | [] => Some s
         | child :: rest =>
             match visit_value child s with
             | Some s' => visit_children rest s'
             | None => None
             end
         end) arr referencedObjects
  | VDictionary dict =>
      (fix visit_pairs (l : list (string * PdfVariant)) (s : gset PdfReference)
         : option (gset PdfReference) :=
         match l with
         | [] => Some s
         | entry :: rest =>
             match visit_value entry.2 s with
             | Some s' => visit_pairs rest s'
             | None => None
             end
         end) dict referencedObjects
  | _ => Some referencedObjects
  end.

End Visit.

(** [visitObject].  The recursion through a reference is counted by
    [fuel]: every such call has just put a reference of a stored object
    into the set that was not there, so the number of stored objects is
    fuel enough ([visitObject_returns]); [None] is running out of it. *)
Fixpoint visitObject (fuel : nat) (objects : gmap PdfReference PdfObject)
  : PdfVariant -> gset PdfReference -> option (gset PdfReference) :=
  visit_value objects
    (match fuel with
     | O => fun _ _ => None
     | S fuel' => visitObject fuel' objects
     end).

(** What a call that may dereference a null pointer does. *)
Inductive Deref (A : Type) : Type :=
  | Valid (a : A)
  | NullPointer.

Arguments Valid {A} a.
Arguments NullPointer {A}.

(** [a] is not after [b] in the order of the references. *)
Definition ref_le (a b : PdfReference) : Prop := ref_ltb b a = false.

#[global] Instance ref_le_dec (a b : PdfReference) : Decision (ref_le a b).
Proof. unfold ref_le; apply _. Defined.

(** The references of [m_Objects] in the order of the [std::set]. *)
Definition objects_in_order (objects : gmap PdfReference PdfObject)
  : list (PdfReference * PdfObject) :=
  merge_sort (fun a b => ref_le a.1 b.1) (map_to_list objects).

(** The object numbers of [m_compressedObjectStreams] in the order of the
    [std::set]. *)
Definition streams_in_order (streams : gset Z) : list Z :=
  merge_sort Z.le (elements streams).

(** The loop of [CollectGarbage] over the compressed object streams. *)
Fixpoint visit_streams (fuel : nat) (objects : gmap PdfReference PdfObject)
    (ids : list Z) (referencedOjects : gset PdfReference)
  : option (Deref (gset PdfReference)) :=
  match ids with
  | [] => Some (Valid referencedOjects)
  | objId :: rest =>
      let ref := mkRef objId 0 in
      if decide (ref ∈ referencedOjects)
      then visit_streams fuel objects rest referencedOjects
      else
        match objects !! ref with
        | None => Some NullPointer  (* [*GetObject(ref)] *)
        | Some obj =>
            match visitObject fuel objects (obj_value obj) referencedOjects with
            | None => None
            | Some s => visit_streams fuel objects rest s
            end
        end
  end.

(** One turn of the loop of [CollectGarbage] over [m_Objects]: the store
    (whose free list [SafeAddFreeObject] extends) and [newlist]. *)
Definition sweep_object (referencedOjects : gset PdfReference)
    (acc : t * gmap PdfReference PdfObject) (entry : PdfReference * PdfObject)
  : t * gmap PdfReference PdfObject :=
  let ref := entry.1 in
  if decide ((ref ∉ referencedOjects)
             ∧ (ObjectNumber ref ∉ m_compressedObjectStreams acc.1))
  then ((SafeAddFreeObject ref acc.1).2, acc.2)
  else (acc.1, <[ ref := entry.2 ]> acc.2).

Definition sweep (referencedOjects : gset PdfReference) (st : t) : t :=
  let r := fold_left (sweep_object referencedOjects)
                     (objects_in_order (m_Objects st)) (st, ∅) in
  mkStore r.2 (m_ObjectCount r.1) (m_FreeObjects r.1)
          (m_unavailableObjects r.1) (m_compressedObjectStreams r.1).

(** [CollectGarbage].  [trailer] is the trailer object of [m_Document],
    [None] when the store has no document. *)
Definition CollectGarbage (trailer : option PdfVariant) (st : t)
  : option (Deref t) :=
  match trailer with
  | None => Some (Valid st)
  | Some trailerObject =>
      let fuel := size (m_Objects st) in
      match visitObject fuel (m_Objects st) trailerObject ∅ with
      | None => None
      | Some referencedOjects =>
          match visit_streams fuel (m_Objects st)
                  (streams_in_order (m_compressedObjectStreams st))
                  referencedOjects with
          | None => None
          | Some NullPointer => Some NullPointer
          | Some (Valid referenced) => Some (Valid (sweep referenced st))
          end
      end
  end.

End IndirectObjectList.

(** * C strings and [sscanf] *)

Module CString.

Definition NUL : ascii := ascii_of_nat 0.

Definition code (c : ascii) : Z := Z.of_nat (nat_of_ascii c).

Definition CR : ascii := ascii_of_nat 13.
Definition LF : ascii := ascii_of_nat 10.
Definition SP : ascii := ascii_of_nat 32.

Definition chars (s : string) : list ascii := list_ascii_of_string s.

(** [isspace] in the C locale: space, and the controls 9 to 13. *)
Definition isspace (c : ascii) : bool :=
  Z.eqb (code c) 32 || (Z.leb 9 (code c) && Z.leb (code c) 13).

Definition isdigit (c : ascii) : bool :=
  Z.leb 48 (code c) && Z.leb (code c) 57.

Definition digit_value (c : ascii) : Z := code c - 48.

(** The characters of the string stored in [buffer]: those before the
    first NUL. *)
Fixpoint c_str (buffer : list ascii) : list ascii :=
  match buffer with
  | [] => []
  | c :: rest => if Ascii.eqb c NUL then [] else c :: c_str rest
  end.

Fixpoint skip_space (s : list ascii) : list ascii :=
  match s with
  | c :: rest => if isspace c then skip_space rest else s
  | [] => []
  end.

(** At most [width] decimal digits: their number, their value, the rest. *)
Fixpoint scan_digits (width : nat) (s : list ascii) (count : nat) (acc : Z)
  : nat * Z * list ascii :=
  match width, s with
  | S width', c :: rest =>
      if isdigit c
      then scan_digits width' rest (S count) (10 * acc + digit_value c)
      else (count, acc, s)
  | _, _ => (count, acc, s)
  end.

Inductive Conversion (A : Type) : Type :=
  | Converted (a : A) (rest : list ascii)
  | MatchingFailure
  | InputFailure.

Arguments Converted {A} a rest.
Arguments MatchingFailure {A}.
Arguments InputFailure {A}.

(** The conversion [%<width>u] into an unsigned integer of [bits] bits:
    white space is skipped, then an optionally signed run of decimal
    digits of at most [width] characters is taken, as [strtoul] in base
    10 would; a minus sign negates in the unsigned type. *)
Definition scan_unsigned (bits : Z) (width : nat) (s : list ascii)
  : Conversion Z :=
  match skip_space s with
  | [] => InputFailure
  | c :: rest =>
      let signed := Ascii.eqb c "+"%char || Ascii.eqb c "-"%char in
      let body := if signed then rest else c :: rest in
      let width' := if signed then Nat.pred width else width in
      match scan_digits width' body O 0 with
      | (O, _, _) => MatchingFailure
      | (_, v, rest') =>
          Converted ((if Ascii.eqb c "-"%char then - v else v) mod 2 ^ bits) rest'
      end
  end.

(** The conversion [%c]: one character, white space included. *)
Definition scan_char (s : list ascii) : Conversion ascii :=
  match s with
  | [] => InputFailure
  | c :: rest => Converted c rest
  end.

(** What [sscanf] leaves behind: its return value and the receiving
    objects it has assigned ([None] for one it has not touched). *)
Record ScanResult : Type := mkScan {
  scan_read : Z;
  scan_variant : option Z;
  scan_generation : option Z;
  scan_chType : option ascii;
  scan_empty1 : option ascii;
  scan_empty2 : option ascii
}.

(** [sscanf(buffer, "%10" SCNu64 " %5" SCNu32 " %c%c%c", ...)].  The
    return value is the number of assignments, or [EOF] (-1) when the
    input ends before the first conversion. *)
Definition sscanf_entry (buffer : list ascii) : ScanResult :=
  match scan_unsigned 64 10 (c_str buffer) with
  | InputFailure => mkScan (-1) None None None None None
  | MatchingFailure => mkScan 0 None None None None None
  | Converted variant s1 =>
      match scan_unsigned 32 5 (skip_space s1) with
      | Converted generation s2 =>
          match scan_char (skip_space s2) with
          | Converted chType s3 =>
              match scan_char s3 with
              | Converted empty1 s4 =>
                  match scan_char s4 with
                  | Converted empty2 _ =>
                      mkScan 5 (Some variant) (Some generation) (Some chType)
                             (Some empty1) (Some empty2)
                  | _ => mkScan 4 (Some variant) (Some generation) (Some chType)
                                (Some empty1) None
                  end
              | _ => mkScan 3 (Some variant) (Some generation) (Some chType)
                            None None
              end
          | _ => mkScan 2 (Some variant) (Some generation) None None None
          end
      | _ => mkScan 1 (Some variant) None None None None
      end
  end.

(** [strncmp(s1, s2, n) == 0]; reading past the end of a list reads the
    terminating NUL. *)
Fixpoint strncmp_eq (n : nat) (s1 s2 : list ascii) : bool :=
  match n with
  | O => true
  | S n' =>
      let c1 := hd NUL s1 in
      let c2 := hd NUL s2 in
      if Ascii.eqb c1 c2
      then (if Ascii.eqb c1 NUL then true else strncmp_eq n' (tl s1) (tl s2))
      else false
  end.

End CString.

(** * The cross-reference entry table *)

Inductive PdfXRefEntryType : Type :=
  | XRefUnknown
  | XRefFree
  | XRefInUse
  | XRefCompressed.

#[global] Instance PdfXRefEntryType_eq_dec : EqDecision PdfXRefEntryType.
Proof. solve_decision. Defined.

(** Modelled from the spec: [PdfXRefEntry] is declared in
    [PdfXRefEntry.h]; the specification gives an entry a kind, a next
    free object number when free, an offset when in use, a generation,
    and a flag telling whether a revision has supplied it.  The members
    are named as [ReadXRefSubsection] names them; [Generation] is as
    wide as the 32-bit conversion that fills it. *)
Record PdfXRefEntry : Type := mkEntry {
  entry_ObjectNumber : Z;
  entry_Offset : Z;
  entry_Generation : Z;
  entry_Type : PdfXRefEntryType;
  entry_Parsed : bool
}.

#[global] Instance PdfXRefEntry_eq_dec : EqDecision PdfXRefEntry.
Proof. solve_decision. Defined.

Definition unparsed_entry : PdfXRefEntry :=
  mkEntry 0 0 0 XRefUnknown false.

(** Modelled from the spec: [PdfXRefEntries::Enlarge] is declared in
    [PdfXRefEntries.h]; the specification has it extend the table with
    unparsed slots and never shrink it. *)
Definition Enlarge (newSize : Z) (entries : list PdfXRefEntry)
  : list PdfXRefEntry :=
  entries ++ replicate (Z.to_nat newSize - length entries) unparsed_entry.

Module Parser.

Import CString.

Definition PDF_XREF_ENTRY_SIZE : nat := 20.
Definition PDF_XREF_BUF : Z := 512.
Definition MAX_XREF_SESSION_COUNT : nat := 512.
Definition PTRDIFF_MAX : Z := 2 ^ 63 - 1.

Definition CheckEOL (e1 e2 : ascii) : bool :=
  (Ascii.eqb e1 CR && Ascii.eqb e2 LF)
  || (Ascii.eqb e1 LF && Ascii.eqb e2 CR)
  || (Ascii.eqb e1 SP && (Ascii.eqb e2 CR || Ascii.eqb e2 LF)).

Definition CheckXRefEntryType (c : ascii) : bool :=
  Ascii.eqb c "n"%char || Ascii.eqb c "f"%char.

(** Modelled from the spec: [XRefEntryTypeFromChar] is declared with the
    entry type; the specification has [f] stand for a free entry and [n]
    for one in use.  It is called once [CheckXRefEntryType] has passed. *)
Definition XRefEntryTypeFromChar (c : ascii) : PdfXRefEntryType :=
  if Ascii.eqb c "f"%char then XRefFree
  else if Ascii.eqb c "n"%char then XRefInUse
  else XRefUnknown.

(** The body of the [if (objIndex < m_entries.GetSize() && !entry.Parsed)]
    block of [ReadXRefSubsection]: the entry a 20-byte record turns the
    slot into, or the error it raises. *)
Definition parse_entry (magicOffset : Z) (buffer : list ascii)
    (entry : PdfXRefEntry) : Result PdfXRefEntry :=
  let r := sscanf_entry (take PDF_XREF_ENTRY_SIZE buffer) in
  let variant := default 0 (scan_variant r) in
  let generation := default 0 (scan_generation r) in
  let chType := default NUL (scan_chType r) in
  if negb (CheckXRefEntryType chType) then Raise InvalidXRef
  else
    let type := XRefEntryTypeFromChar chType in
    let eol_ok :=
      match scan_empty1 r, scan_empty2 r with
      | Some empty1, Some empty2 => CheckEOL empty1 empty2
      | _, _ => false
      end in
    if negb (Z.eqb (scan_read r) 5) || negb eol_ok then Raise InvalidXRef
    else
      match type with
      | XRefFree =>
          Ok (mkEntry variant (entry_Offset entry) generation type true)
      | XRefInUse =>
          let variant' := wrap64 (variant + magicOffset) in
          if Z.ltb PTRDIFF_MAX variant' then Raise ValueOutOfRange
          else Ok (mkEntry (entry_ObjectNumber entry) variant' generation type true)
      | _ => Raise InternalLogic  (* the default case asserts; not reached *)
      end.

(** One turn of the [while (index < objectCount)] loop, the device having
    delivered [buffer]: slots out of range or already parsed are passed
    over without looking at the record. *)
Definition read_entry (magicOffset : Z) (buffer : list ascii) (objIndex : nat)
    (entries : list PdfXRefEntry) : list PdfXRefEntry * Result unit :=
  match entries !! objIndex with
  | Some entry =>
      if entry_Parsed entry then (entries, Ok tt)
      else match parse_entry magicOffset buffer entry with
           | Ok entry' => (<[ objIndex := entry' ]> entries, Ok tt)
           | Raise e => (entries, Raise e)
           end
  | None => (entries, Ok tt)
  end.

(** The loop itself; [records i] is what the [i]-th [device.Read] of 20
    bytes leaves in the buffer. *)
Fixpoint read_entries (magicOffset : Z) (records : nat -> list ascii)
    (firstObject : Z) (remaining : nat) (index : nat)
    (entries : list PdfXRefEntry) : list PdfXRefEntry * Result unit :=
  match remaining with
  | O => (entries, Ok tt)
  | S remaining' =>
      let objIndex := Z.to_nat (wrap32 (firstObject + Z.of_nat index)) in
      match read_entry magicOffset (records index) objIndex entries with
      | (entries', Ok _) =>
          read_entries magicOffset records firstObject remaining' (S index) entries'
      | (entries', Raise e) => (entries', Raise e)
      end
  end.

(** [ReadXRefSubsection]: the table as the call leaves it, also when it
    throws, and the outcome.  The white space consumed before the first
    record is part of what [records] stands for; the test that follows
    the loop cannot fail, since the loop ends with [index] equal to
    [objectCount]. *)
Definition ReadXRefSubsection (magicOffset : Z) (records : nat -> list ascii)
    (firstObject objectCount : Z) (entries : list PdfXRefEntry)
  : list PdfXRefEntry * Result unit :=
  if Z.ltb firstObject 0 then (entries, Raise InvalidXRef)
  else if Z.ltb objectCount 0 then (entries, Raise InvalidXRef)
  else if Z.leb (2 ^ 32) (firstObject + objectCount)
  then (entries, Raise ValueOutOfRange)
  else
    let newSize := firstObject + objectCount in
    read_entries magicOffset records firstObject (Z.to_nat objectCount) O
                 (Enlarge newSize entries).

(** ** The input device *)

(** Modelled from the spec: the input device is declared in
    [InputDevice.h]; the specification gives it random-access bytes with
    [seek], [read] and [position], the positions being unsigned.  [Seek]
    is the device asked for a position it has, from its first byte on: it
    records that position, whatever the direction; [Read] copies the
    bytes available from the position on and advances past them. *)
Record InputStreamDevice : Type := mkDevice {
  dev_data : list ascii;
  dev_pos : Z
}.

Inductive SeekDirection : Type :=
  | SeekBegin
  | SeekCurrent
  | SeekEnd.

Definition Seek (offset : Z) (direction : SeekDirection)
    (device : InputStreamDevice) : InputStreamDevice :=
  match direction with
  | SeekBegin => mkDevice (dev_data device) offset
  | SeekCurrent => mkDevice (dev_data device) (dev_pos device + offset)
  | SeekEnd => mkDevice (dev_data device)
                        (Z.of_nat (length (dev_data device)) + offset)
  end.

Definition GetPosition (device : InputStreamDevice) : Z := dev_pos device.

Definition Read (size : Z) (device : InputStreamDevice)
  : list ascii * InputStreamDevice :=
  let bytes := take (Z.to_nat size)
                    (drop (Z.to_nat (dev_pos device)) (dev_data device)) in
  (bytes, mkDevice (dev_data device) (dev_pos device + Z.of_nat (length bytes))).

(** Modelled from the spec: a position of the device is unsigned, and
    the specification does not say what [seek] does when it is asked for
    a position before the first byte.  Code that can ask for one goes
    through [seek_within]: there it ends with [Outside] and the position
    it asked for, and what follows is left to the device. *)
Inductive Sought (A : Type) : Type :=
  | Within (a : A)
  | Outside (target : Z).

Arguments Within {A} a.
Arguments Outside {A} target.

Definition seek_within (offset : Z) (direction : SeekDirection)
    (device : InputStreamDevice) : Sought InputStreamDevice :=
  let device' := Seek offset direction device in
  if Z.ltb (dev_pos device') 0 then Outside (dev_pos device')
  else Within device'.

(** ** [findTokenBackward] *)

(** The [for] loop, entered with a non-negative [i]: the index at which
    it breaks, or [-1] when it runs out. *)
Fixpoint search_backward (buffer token : list ascii) (i : nat) : Z :=
  if strncmp_eq (length token) (drop i buffer) token then Z.of_nat i
  else match i with
       | O => -1
       | S i' => search_backward buffer token i'
       end.

(** The value of [i] after the loop; [searchSize - tokenLen] is computed
    in [size_t] and read as [ssize_t]. *)
Definition token_index (buffer token : list ascii) (searchSize : Z) : Z :=
  let tokenLen := Z.of_nat (length token) in
  let i0 := to_ssize (wrap64 (searchSize - tokenLen)) in
  if Z.ltb i0 0 then i0 else search_backward buffer token (Z.to_nat i0).

(** The argument of the final [Seek]. *)
Definition token_position (searchEnd searchSize i : Z) : Z :=
  to_ssize (wrap64 (searchEnd - wrap64 (searchSize - wrap64 i))).

(** The device as the search leaves it and what it throws, or the
    position before the first byte that one of its three [Seek] calls
    asks for. *)
Definition findTokenBackward (token : list ascii) (range searchEnd : Z)
    (device : InputStreamDevice) : Sought (InputStreamDevice * Result unit) :=
  match seek_within (to_ssize searchEnd) SeekBegin device with
  | Outside target => Outside target
  | Within device1 =>
      let currpos := GetPosition device1 in
      let searchSize := Z.min currpos range in
      match seek_within (- to_ssize searchSize) SeekCurrent device1 with
      | Outside target => Outside target
      | Within device2 =>
          let (buffer, device3) := Read searchSize device2 in
          let i := token_index buffer token searchSize in
          if Z.eqb i 0 then Within (device3, Raise InternalLogic)
          else
            match seek_within (token_position searchEnd searchSize i)
                              SeekBegin device3 with
            | Outside target => Outside target
            | Within device4 => Within (device4, Ok tt)
            end
      end
  end.

(** ** Trailer dictionaries *)

Abbreviation PdfDictionary := (gmap string PdfVariant).

(** [GetKey] and [HasKey] look the name up; [AddKey] stores under it. *)
Definition merge_key (key : string) (trailer effective : PdfDictionary)
  : PdfDictionary :=
  match trailer !! key with
  | Some obj =>
      if decide (is_Some (effective !! key)) then effective
      else <[ key := obj ]> effective
  | None => effective
  end.

(** [mergeTrailer(trailer)], [effective] being [m_Trailer]'s dictionary. *)
Definition mergeTrailer (trailer effective : PdfDictionary) : PdfDictionary :=
  merge_key "ID" trailer
    (merge_key "Info" trailer
      (merge_key "Encrypt" trailer
        (merge_key "Root" trailer
          (merge_key "Size" trailer effective)))).

(** [m_Trailer] after the trailers of a walk have been met in the order
    given: the first is kept whole, the others are merged into it. *)
Definition effective_trailer (trailers : list PdfDictionary)
  : option PdfDictionary :=
  match trailers with
  | [] => None
  | first :: older =>
      Some (fold_left (fun effective trailer => mergeTrailer trailer effective)
                      older first)
  end.

(** ** What the file holds *)

Inductive PdfVersion : Type :=
  | VersionUnknown
  | V1_0 | V1_1 | V1_2 | V1_3 | V1_4 | V1_5 | V1_6 | V1_7
  | V2_0.

Definition PdfVersionDefault : PdfVersion := V1_4.

(** An encryption object, known here by the number its factory gives it. *)
Record PdfEncrypt : Type := mkEncrypt { encrypt_id : Z }.

Inductive PdfAuthResult : Type :=
  | AuthFailed
  | AuthUser
  | AuthOwner.

(** The tokenizer, the object parsers and the encryption classes are
    compiled from other units.  A file is described by what they deliver
    on it: the tokens the cross-reference reader meets at an offset, the
    dictionaries the object parsers build there, the outcome of the
    searches from the end of the file, and the verdict of the
    authentication. *)

(** One turn of the subsection loop of [ReadXRefContents]. *)
Inductive SubsectionStep : Type :=
  | StepNoToken                        (* TryPeekNextToken finds nothing *)
  | StepTrailer                        (* the token peeked is "trailer" *)
  | StepNumberError (e : PdfErrorCode) (* ReadNextNumber throws e *)
  | StepSubsection (firstObject objectCount : Z) (records : nat -> list ascii).

(** What [readNextTrailer] finds where the loop has left the device. *)
Inductive TrailerView : Type :=
  | TrailerMissing                     (* no token, or not "trailer" *)
  | TrailerObject (dict : PdfDictionary).

(** What [PdfXRefStreamParserObject] delivers at an offset. *)
Inductive XRefStreamView : Type :=
  | XRefStreamBroken (e : PdfErrorCode)  (* ParseStream throws e *)
  | XRefStreamObject
      (dict : PdfDictionary)
      (ReadXRefTable : list PdfXRefEntry -> list PdfXRefEntry * Result unit)
      (previousOffset : option Z).       (* TryGetPreviousOffset *)

(** The first token at an offset. *)
Inductive SectionView : Type :=
  | SectionNoToken
  | SectionXRef (steps : list SubsectionStep) (trailer : TrailerView)
  | SectionOther.                        (* a token other than "xref" *)

Record PdfFile : Type := mkFile {
  file_size : Z;
  (* IsPdfFile: the position of the magic word and the version after it *)
  file_magic : option (Z * PdfVersion);
  (* checkEOFMarker, by strictness: the value left in m_lastEOFOffset *)
  file_eof_marker : bool -> Result Z;
  (* findXRef, by strictness: the number that follows startxref *)
  file_startxref : bool -> Result Z;
  (* the recovery of ReadXRefContents for an offset past the end:
     the position of the nearest "xref" token before startxref *)
  file_recovered_xref : bool -> Result Z;
  file_section_at : Z -> SectionView;
  file_xref_stream_at : Z -> XRefStreamView;
  (* PdfParserObject::Parse of the object at an offset *)
  file_object_at : Z -> Result PdfVariant;
  (* PdfEncrypt::CreateFromObject and PdfEncrypt::Authenticate *)
  file_encrypt : PdfVariant -> Result PdfEncrypt;
  file_authenticate : PdfEncrypt -> string -> PdfVariant -> PdfAuthResult;
  (* readObjectsInternal, from the table and the encryption session *)
  file_objects : list PdfXRefEntry -> option PdfEncrypt -> Result (option PdfVersion)
}.

(** ** The parser's members *)

Record PdfParser : Type := mkParser {
  m_PdfVersion : PdfVersion;
  m_LoadOnDemand : bool;
  m_magicOffset : Z;
  m_HasXRefStream : bool;
  m_XRefOffset : Z;
  m_lastEOFOffset : Z;
  m_FileSize : Z;
  m_Trailer : option PdfDictionary;
  m_entries : list PdfXRefEntry;
  m_Encrypt : option PdfEncrypt;
  m_IgnoreBrokenObjects : bool;
  m_IncrementalUpdateCount : Z;
  m_visitedXRefOffsets : gset Z;
  m_StrictParsing : bool;
  m_Password : string
}.

Definition set_entries (v : list PdfXRefEntry) (p : PdfParser) : PdfParser :=
  mkParser (m_PdfVersion p) (m_LoadOnDemand p) (m_magicOffset p)
    (m_HasXRefStream p) (m_XRefOffset p) (m_lastEOFOffset p) (m_FileSize p)
    (m_Trailer p) v (m_Encrypt p) (m_IgnoreBrokenObjects p)
    (m_IncrementalUpdateCount p) (m_visitedXRefOffsets p) (m_StrictParsing p)
    (m_Password p).

Definition set_Trailer (v : option PdfDictionary) (p : PdfParser) : PdfParser :=
  mkParser (m_PdfVersion p) (m_LoadOnDemand p) (m_magicOffset p)
    (m_HasXRefStream p) (m_XRefOffset p) (m_lastEOFOffset p) (m_FileSize p)
    v (m_entries p) (m_Encrypt p) (m_IgnoreBrokenObjects p)
    (m_IncrementalUpdateCount p) (m_visitedXRefOffsets p) (m_StrictParsing p)
    (m_Password p).

Definition set_visitedXRefOffsets (v : gset Z) (p : PdfParser) : PdfParser :=
  mkParser (m_PdfVersion p) (m_LoadOnDemand p) (m_magicOffset p)
    (m_HasXRefStream p) (m_XRefOffset p) (m_lastEOFOffset p) (m_FileSize p)
    (m_Trailer p) (m_entries p) (m_Encrypt p) (m_IgnoreBrokenObjects p)
    (m_IncrementalUpdateCount p) v (m_StrictParsing p) (m_Password p).

Definition set_IncrementalUpdateCount (v : Z) (p : PdfParser) : PdfParser :=
  mkParser (m_PdfVersion p) (m_LoadOnDemand p) (m_magicOffset p)
    (m_HasXRefStream p) (m_XRefOffset p) (m_lastEOFOffset p) (m_FileSize p)
    (m_Trailer p) (m_entries p) (m_Encrypt p) (m_IgnoreBrokenObjects p)
    v (m_visitedXRefOffsets p) (m_StrictParsing p) (m_Password p).

Definition set_HasXRefStream (v : bool) (p : PdfParser) : PdfParser :=
  mkParser (m_PdfVersion p) (m_LoadOnDemand p) (m_magicOffset p)
    v (m_XRefOffset p) (m_lastEOFOffset p) (m_FileSize p)
    (m_Trailer p) (m_entries p) (m_Encrypt p) (m_IgnoreBrokenObjects p)
    (m_IncrementalUpdateCount p) (m_visitedXRefOffsets p) (m_StrictParsing p)
    (m_Password p).

Definition set_XRefOffset (v : Z) (p : PdfParser) : PdfParser :=
  mkParser (m_PdfVersion p) (m_LoadOnDemand p) (m_magicOffset p)
    (m_HasXRefStream p) v (m_lastEOFOffset p) (m_FileSize p)
    (m_Trailer p) (m_entries p) (m_Encrypt p) (m_IgnoreBrokenObjects p)
    (m_IncrementalUpdateCount p) (m_visitedXRefOffsets p) (m_StrictParsing p)
    (m_Password p).

Definition set_lastEOFOffset (v : Z) (p : PdfParser) : PdfParser :=
  mkParser (m_PdfVersion p) (m_LoadOnDemand p) (m_magicOffset p)
    (m_HasXRefStream p) (m_XRefOffset p) v (m_FileSize p)
    (m_Trailer p) (m_entries p) (m_Encrypt p) (m_IgnoreBrokenObjects p)
    (m_IncrementalUpdateCount p) (m_visitedXRefOffsets p) (m_StrictParsing p)
    (m_Password p).

Definition set_FileSize (v : Z) (p : PdfParser) : PdfParser :=
  mkParser (m_PdfVersion p) (m_LoadOnDemand p) (m_magicOffset p)
    (m_HasXRefStream p) (m_XRefOffset p) (m_lastEOFOffset p) v
    (m_Trailer p) (m_entries p) (m_Encrypt p) (m_IgnoreBrokenObjects p)
    (m_IncrementalUpdateCount p) (m_visitedXRefOffsets p) (m_StrictParsing p)
    (m_Password p).

Definition set_magic (offset : Z) (version : PdfVersion) (p : PdfParser)
  : PdfParser :=
  mkParser version (m_LoadOnDemand p) offset
    (m_HasXRefStream p) (m_XRefOffset p) (m_lastEOFOffset p) (m_FileSize p)
    (m_Trailer p) (m_entries p) (m_Encrypt p) (m_IgnoreBrokenObjects p)
    (m_IncrementalUpdateCount p) (m_visitedXRefOffsets p) (m_StrictParsing p)
    (m_Password p).

Definition set_PdfVersion (v : PdfVersion) (p : PdfParser) : PdfParser :=
  set_magic (m_magicOffset p) v p.

Definition set_LoadOnDemand (v : bool) (p : PdfParser) : PdfParser :=
  mkParser (m_PdfVersion p) v (m_magicOffset p)
    (m_HasXRefStream p) (m_XRefOffset p) (m_lastEOFOffset p) (m_FileSize p)
    (m_Trailer p) (m_entries p) (m_Encrypt p) (m_IgnoreBrokenObjects p)
    (m_IncrementalUpdateCount p) (m_visitedXRefOffsets p) (m_StrictParsing p)
    (m_Password p).

Definition set_Encrypt (v : option PdfEncrypt) (p : PdfParser) : PdfParser :=
  mkParser (m_PdfVersion p) (m_LoadOnDemand p) (m_magicOffset p)
    (m_HasXRefStream p) (m_XRefOffset p) (m_lastEOFOffset p) (m_FileSize p)
    (m_Trailer p) (m_entries p) v (m_IgnoreBrokenObjects p)
    (m_IncrementalUpdateCount p) (m_visitedXRefOffsets p) (m_StrictParsing p)
    (m_Password p).

(** [SetPassword], declared with the class. *)
Definition SetPassword (v : string) (p : PdfParser) : PdfParser :=
  mkParser (m_PdfVersion p) (m_LoadOnDemand p) (m_magicOffset p)
    (m_HasXRefStream p) (m_XRefOffset p) (m_lastEOFOffset p) (m_FileSize p)
    (m_Trailer p) (m_entries p) (m_Encrypt p) (m_IgnoreBrokenObjects p)
    (m_IncrementalUpdateCount p) (m_visitedXRefOffsets p) (m_StrictParsing p)
    v.

(** [reset]: the members it assigns; the others keep their values. *)
Definition reset (p : PdfParser) : PdfParser :=
  mkParser PdfVersionDefault false 0 false 0 0 (m_FileSize p) None [] None
    true 0 (m_visitedXRefOffsets p) (m_StrictParsing p) (m_Password p).

(** The constructor: members built empty, [m_StrictParsing(false)],
    then [reset]. *)
Definition new_parser : PdfParser :=
  reset (mkParser VersionUnknown false 0 false 0 0 0 None [] None false 0
                  ∅ false "").

(** ** Member functions as state transformers

    A member function takes the parser and returns it as the call leaves
    it, with the value returned or the error thrown. *)

Definition M (A : Type) : Type := PdfParser -> PdfParser * Result A.

Definition ret {A : Type} (a : A) : M A := fun p => (p, Ok a).

Definition raise {A : Type} (e : PdfErrorCode) : M A := fun p => (p, Raise e).

Definition bind {A B : Type} (m : M A) (k : A -> M B) : M B :=
  fun p =>
    match m p with
    | (p', Ok a) => k a p'
    | (p', Raise e) => (p', Raise e)
    end.

Definition modify (f : PdfParser -> PdfParser) : M unit :=
  fun p => (f p, Ok tt).

Notation "'let*' x := m 'in' k" := (bind m (fun x => k))
  (at level 10, x name, m at level 100, k at level 200).
Notation "m >> k" := (bind m (fun _ => k))
  (at level 100, k at level 200, right associativity).

(** The first trailer met becomes [m_Trailer]; a later one is merged. *)
Definition adopted (trailer : PdfDictionary) (p : PdfParser) : PdfParser :=
  match m_Trailer p with
  | None => set_Trailer (Some trailer) p
  | Some effective => set_Trailer (Some (mergeTrailer trailer effective)) p
  end.

Definition adopt_trailer (trailer : PdfDictionary) : M unit :=
  modify (adopted trailer).

(** The errors the subsection loop of [ReadXRefContents] swallows. *)
Definition ends_subsections (e : PdfErrorCode) : bool :=
  match e with
  | InvalidNumber | InvalidXRef | UnexpectedEOF => true
  | _ => false
  end.

(** The subsection loop, [xrefSectionCount] sections having been read.
    A list that runs out leaves nothing to peek. *)
Fixpoint read_subsections (steps : list SubsectionStep) (xrefSectionCount : nat)
  : M unit :=
  if Nat.eqb xrefSectionCount MAX_XREF_SESSION_COUNT then raise InvalidEOFToken
  else
    match steps with
    | [] => ret tt
    | StepNoToken :: _ => ret tt
    | StepTrailer :: _ => ret tt
    | StepNumberError e :: _ =>
        if ends_subsections e then ret tt else raise e
    | StepSubsection firstObject objectCount records :: steps' =>
        fun p =>
          let (entries, r) :=
            ReadXRefSubsection (m_magicOffset p) records firstObject objectCount
                               (m_entries p) in
          match r with
          | Ok _ => read_subsections steps' (S xrefSectionCount)
                                     (set_entries entries p)
          | Raise e =>
              if ends_subsections e then (set_entries entries p, Ok tt)
              else (set_entries entries p, Raise e)
          end
    end.

(** [m_IncrementalUpdateCount++]. *)
Definition counted (p : PdfParser) : PdfParser :=
  set_IncrementalUpdateCount (m_IncrementalUpdateCount p + 1) p.

Definition increment_updates : M unit := modify counted.

(** [m_visitedXRefOffsets.insert(offset)]. *)
Definition mark_visited (offset : Z) (p : PdfParser) : PdfParser :=
  set_visitedXRefOffsets ({[ offset ]} ∪ m_visitedXRefOffsets p) p.

(** Modelled from the spec: [utls::RecursionGuard] is declared outside
    this unit; the specification gives every recursive descent a depth
    cap that fails with [RecursionLimit].  [depth] is the number of
    guarded calls still allowed.

    [trailer->GetDictionary()] is read again after the calls that may
    merge into [m_Trailer], which can be the same object; the merge adds
    none of the keys read there ([XRefStm], [Prev]). *)
Fixpoint ReadXRefContents (depth : nat) (file : PdfFile) (offset : Z)
    (skipFollowPrevious : bool) {struct depth} : M unit :=
  match depth with
  | O => raise RecursionLimit
  | S depth' =>
      fun p =>
        if decide (offset ∈ m_visitedXRefOffsets p)
        then (p, Raise InvalidXRef)  (* Cycle in xref structure *)
        else
          (modify (mark_visited offset) >>
           let* located :=
             (if Z.ltb (file_size file) offset
              then
                (* Invalid startxref: look for the table from the end *)
                fun q =>
                  match file_recovered_xref file (m_StrictParsing q) with
                  | Ok found => (set_XRefOffset found q, Ok found)
                  | Raise e => (q, Raise e)
                  end
              else ret offset) in
           match file_section_at file located with
           | SectionNoToken => raise InvalidXRef
           | SectionOther =>
               ReadXRefStreamContents depth' file located skipFollowPrevious >>
               modify (set_HasXRefStream true)
           | SectionXRef steps trailer =>
               read_subsections steps O >>
               readNextTrailer depth' file trailer skipFollowPrevious
           end) p
  end

with readNextTrailer (depth : nat) (file : PdfFile) (view : TrailerView)
    (skipFollowPrevious : bool) {struct depth} : M unit :=
  match depth with
  | O => raise RecursionLimit
  | S depth' =>
      match view with
      | TrailerMissing => raise InvalidTrailer
      | TrailerObject trailer =>
          adopt_trailer trailer >>
          match trailer !! "XRefStm" with
          | Some (VNumber xrefStmOffset) =>
              (* hybrid-reference file: read the separate xref stream *)
              ReadXRefStreamContents depth' file (wrap64 xrefStmOffset)
                                     skipFollowPrevious
          | _ => ret tt
          end >>
          match trailer !! "Prev" with
          | Some (VNumber offset) =>
              if Z.ltb 0 offset
              then
                increment_updates >>
                if skipFollowPrevious then ret tt
                else
                  fun p =>
                    if decide (wrap64 offset ∈ m_visitedXRefOffsets p)
                    then (p, Ok tt)  (* requested twice: second read skipped *)
                    else ReadXRefContents depth' file (wrap64 offset) false p
              else ret tt  (* invalid offset: read skipped *)
          | _ => ret tt
          end
      end
  end

with ReadXRefStreamContents (depth : nat) (file : PdfFile) (offset : Z)
    (skipFollowPrevious : bool) {struct depth} : M unit :=
  match depth with
  | O => raise RecursionLimit
  | S depth' =>
      match file_xref_stream_at file offset with
      | XRefStreamBroken e => raise e
      | XRefStreamObject dict ReadXRefTable previous =>
          adopt_trailer dict >>
          (fun p =>
             let (entries, r) := ReadXRefTable (m_entries p) in
             (set_entries entries p, r)) >>
          match previous with
          | Some previousOffset =>
              if Z.eqb previousOffset offset then ret tt
              else
                increment_updates >>
                if skipFollowPrevious then ret tt
                else ReadXRefContents depth' file previousOffset false
          | None => ret tt
          end
      end
  end.

(** [IsPdfFile]: the magic word located and the version recognised. *)
Definition IsPdfFile (file : PdfFile) : M bool :=
  match file_magic file with
  | None => ret false
  | Some (magicOffset, version) =>
      modify (set_magic magicOffset version) >>
      match version with
      | VersionUnknown => ret false
      | _ => ret true
      end
  end.

Definition checkEOFMarker (file : PdfFile) : M unit :=
  modify (set_lastEOFOffset 0) >>
  fun p =>
    match file_eof_marker file (m_StrictParsing p) with
    | Ok found => (set_lastEOFOffset found p, Ok tt)
    | Raise e => (p, Raise e)
    end.

(** [findXRef(device, m_XRefOffset)]. *)
Definition findXRef (file : PdfFile) : M unit :=
  fun p =>
    match file_startxref file (m_StrictParsing p) with
    | Ok number => (set_XRefOffset (wrap64 (wrap64 number + m_magicOffset p)) p, Ok tt)
    | Raise e => (p, Raise e)
    end.

Definition ReadDocumentStructure (depth : nat) (file : PdfFile)
    (eofSearchOffset : Z) (skipFollowPrevious : bool) : M unit :=
  modify (set_FileSize (if Z.ltb eofSearchOffset 0 then file_size file
                        else eofSearchOffset)) >>
  checkEOFMarker file >>
  findXRef file >>
  fun p => ReadXRefContents depth file (m_XRefOffset p) skipFollowPrevious p.

(** [getDocumentId]: the first element of the trailer's [ID] array. *)
Definition getDocumentId (trailer : PdfDictionary) : Result PdfVariant :=
  match trailer !! "ID" with
  | Some (VArray (id :: _)) => Ok id
  | Some (VArray []) => Raise ValueOutOfRange
  | _ => Raise InvalidEncryptionDict
  end.

Definition ReadObjects (file : PdfFile) : M unit :=
  fun p =>
    match m_Trailer p with
    | None => (p, Raise InvalidTrailer)
    | Some trailer =>
        (match trailer !! "Encrypt" with
         | None | Some VNull => ret tt
         | Some encryptObj =>
             let* encrypt :=
               (match encryptObj with
                | VReference encryptRef =>
                    let i := ObjectNumber encryptRef in
                    fun p1 =>
                      match m_entries p1 !! Z.to_nat i with
                      | Some entry =>
                          if Z.leb i 0 then (p1, Raise InvalidEncryptionDict)
                          else
                            (* the encryption dictionary is not encrypted *)
                            match file_object_at file (entry_Offset entry) with
                            | Ok obj =>
                                let p2 :=
                                  set_entries
                                    (<[ Z.to_nat i :=
                                          mkEntry (entry_ObjectNumber entry)
                                                  (entry_Offset entry)
                                                  (entry_Generation entry)
                                                  (entry_Type entry) false ]>
                                       (m_entries p1)) p1 in
                                (p2, file_encrypt file obj)
                            | Raise e => (p1, Raise e)
                            end
                      | None => (p1, Raise InvalidEncryptionDict)
                      end
                | VDictionary _ => fun p1 => (p1, file_encrypt file encryptObj)
                | _ => raise InvalidEncryptionDict
                end) in
             modify (set_Encrypt (Some encrypt)) >>
             fun p1 =>
               match getDocumentId trailer with
               | Raise e => (p1, Raise e)
               | Ok documentId =>
                   match file_authenticate file encrypt (m_Password p1) documentId with
                   | AuthFailed => (p1, Raise InvalidPassword)
                   | _ => (p1, Ok tt)
                   end
               end
         end >>
         (* readObjectsInternal *)
         fun p1 =>
           match file_objects file (m_entries p1) (m_Encrypt p1) with
           | Ok (Some version) => (set_PdfVersion version p1, Ok tt)
           | Ok None => (p1, Ok tt)
           | Raise e => (p1, Raise e)
           end) p
    end.

(** [Parse(device, loadOnDemand)], [depth] guarded calls being allowed. *)
Definition Parse (depth : nat) (file : PdfFile) (loadOnDemand : bool) : M unit :=
  fun p =>
    let p0 := set_LoadOnDemand loadOnDemand (reset p) in
    match (let* is_pdf := IsPdfFile file in
           (if is_pdf then ret tt else raise InvalidPDF) >>
           ReadDocumentStructure depth file (-1) false >>
           ReadObjects file) p0 with
    | (p1, Ok _) => (p1, Ok tt)
    | (p1, Raise e) =>
        if decide (e = InvalidPassword)
        then (p1, Raise e)  (* no clean up: the caller is to parse again *)
        else (reset p1, Raise e)
    end.

(** ** Parts of the functions above, named for the statements *)

(** The parts of the walk's functions, named so that statements can
    speak of them: what [ReadXRefContents] does once the offset is marked
    as visited, and the two steps of [readNextTrailer] that follow the
    adoption of the trailer. *)
Definition read_section (depth : nat) (file : PdfFile) (offset : Z)
    (skipFollowPrevious : bool) : M unit :=
  let* located :=
    (if Z.ltb (file_size file) offset
     then
       fun q =>
         match file_recovered_xref file (m_StrictParsing q) with
         | Ok found => (set_XRefOffset found q, Ok found)
         | Raise e => (q, Raise e)
         end
     else ret offset) in
  match file_section_at file located with
  | SectionNoToken => raise InvalidXRef
  | SectionOther =>
      ReadXRefStreamContents depth file located skipFollowPrevious >>
      modify (set_HasXRefStream true)
  | SectionXRef steps trailer =>
      read_subsections steps O >>
      readNextTrailer depth file trailer skipFollowPrevious
  end.

Definition read_hybrid (depth : nat) (file : PdfFile) (trailer : PdfDictionary)
    (skipFollowPrevious : bool) : M unit :=
  match trailer !! "XRefStm" with
  | Some (VNumber xrefStmOffset) =>
      ReadXRefStreamContents depth file (wrap64 xrefStmOffset) skipFollowPrevious
  | _ => ret tt
  end.

Definition follow_prev (depth : nat) (file : PdfFile) (trailer : PdfDictionary)
    (skipFollowPrevious : bool) : M unit :=
  match trailer !! "Prev" with
  | Some (VNumber offset) =>
      if Z.ltb 0 offset
      then
        increment_updates >>
        if skipFollowPrevious then ret tt
        else
          fun p =>
            if decide (wrap64 offset ∈ m_visitedXRefOffsets p)
            then (p, Ok tt)
            else ReadXRefContents depth file (wrap64 offset) false p
      else ret tt
  | _ => ret tt
  end.

(** The outcome of [Parse] in terms of that of its [try] block. *)
Definition parse_body (depth : nat) (file : PdfFile) : M unit :=
  let* is_pdf := IsPdfFile file in
  (if is_pdf then ret tt else raise InvalidPDF) >>
  ReadDocumentStructure depth file (-1) false >>
  ReadObjects file.

(** The offset at which a parse starts reading the cross-reference
    sections. *)
Definition start_offset (number magicOffset : Z) : Z :=
  wrap64 (wrap64 number + magicOffset).

(** Modelled from the spec: [SetStrictParsing] is declared in
    [PdfParser.h]; the specification has a strict mode that the caller
    turns on before parsing. *)
Definition SetStrictParsing (strict : bool) (p : PdfParser) : PdfParser :=
  mkParser (m_PdfVersion p) (m_LoadOnDemand p) (m_magicOffset p)
    (m_HasXRefStream p) (m_XRefOffset p) (m_lastEOFOffset p) (m_FileSize p)
    (m_Trailer p) (m_entries p) (m_Encrypt p) (m_IgnoreBrokenObjects p)
    (m_IncrementalUpdateCount p) (m_visitedXRefOffsets p) strict
    (m_Password p).

(** ** The trailer handed to the caller *)

Definition GetTrailer (p : PdfParser) : Result PdfDictionary :=
  match m_Trailer p with
  | None => Raise InvalidHandle
  | Some trailer => Ok trailer
  end.

(** [TakeTrailer]: the trailer moved out, [None] for [nullptr], and the
    parser left without it. *)
Definition TakeTrailer (p : PdfParser) : option PdfDictionary * PdfParser :=
  match m_Trailer p with
  | None => (None, p)
  | Some trailer => (Some trailer, set_Trailer None p)
  end.

(** ** [readObjectsInternal]: the loop over the entry table *)

(** What the loop throws: an error of the list above, or
    [InvalidEnumValue]. *)
Inductive Thrown : Type :=
  | Code (e : PdfErrorCode)
  | InvalidEnumValue.

Section ReadObjectsInternal.

(** What the [try] block of an in-use entry has in hand when it reaches
    [PushObject]: the object that [PdfParserObject] stands for at the
    offset, or the error thrown on the way there (under encryption the
    object is parsed to see whether it is a cross-reference stream). *)
Variable load : option PdfEncrypt -> PdfReference -> Z -> Result PdfObject.

(** One turn of the first loop: the store and [compressedObjects]. *)
Definition load_entry (p : PdfParser) (i : nat) (entry : PdfXRefEntry)
    (objects : IndirectObjectList.t) (compressedObjects : gmap Z (list Z))
  : Thrown + IndirectObjectList.t * gmap Z (list Z) :=
  if entry_Parsed entry
  then
    match entry_Type entry with
    | XRefInUse =>
        if Z.ltb 0 (entry_Offset entry)
        then
          let reference :=
            mkRef (Z.of_nat i) (wrap16 (entry_Generation entry)) in
          match load (m_Encrypt p) reference (entry_Offset entry) with
          | Ok obj =>
              inr (IndirectObjectList.PushObject reference obj objects,
                   compressedObjects)
          | Raise e =>
              if m_IgnoreBrokenObjects p
              then inr ((IndirectObjectList.SafeAddFreeObject reference
                           objects).2,
                        compressedObjects)
              else inl (Code e)
          end
        else if Z.eqb (entry_Generation entry) 0
        then
          (* an 'n' entry with offset 0 and generation 0 *)
          if m_StrictParsing p then inl (Code InvalidXRef)
          else inr (IndirectObjectList.AddFreeObject (mkRef (Z.of_nat i) 1)
                      objects,
                    compressedObjects)
        else inr (objects, compressedObjects)
    | XRefFree =>
        if negb (Nat.eqb i 0)
        then inr ((IndirectObjectList.SafeAddFreeObject
                     (mkRef (Z.of_nat i) (wrap16 (entry_Generation entry)))
                     objects).2,
                  compressedObjects)
        else inr (objects, compressedObjects)
    | XRefCompressed =>
        inr (objects,
             <[ entry_ObjectNumber entry :=
                  default [] (compressedObjects !! entry_ObjectNumber entry)
                  ++ [Z.of_nat i] ]> compressedObjects)
    | XRefUnknown => inl InvalidEnumValue
    end
  else if negb (Nat.eqb i 0)
  then inr (IndirectObjectList.AddFreeObject (mkRef (Z.of_nat i) 1) objects,
            compressedObjects)
  else inr (objects, compressedObjects).

(** The loop from index [i] on, over the entries from that index. *)
Fixpoint load_entries (p : PdfParser) (entries : list PdfXRefEntry) (i : nat)
    (objects : IndirectObjectList.t) (compressedObjects : gmap Z (list Z))
  : Thrown + IndirectObjectList.t * gmap Z (list Z) :=
  match entries with
  | [] => inr (objects, compressedObjects)
  | entry :: rest =>
      match load_entry p i entry objects compressedObjects with
      | inl e => inl e
      | inr (objects', compressedObjects') =>
          load_entries p rest (S i) objects' compressedObjects'
      end
  end.

End ReadObjectsInternal.

(** ** The offset of the previous revision *)

Definition SIZE_MAX : Z := 2 ^ 64 - 1.

(** The loop of [TryGetPreviousRevisionOffset] over the entries:
    [foundValidEntry] and [eofOffset]. *)
Definition lowest_offset (entries : list PdfXRefEntry) : bool * Z :=
  fold_left
    (fun (acc : bool * Z) (entry : PdfXRefEntry) =>
       if entry_Parsed entry
          && bool_decide (entry_Type entry = XRefInUse)
          && Z.ltb (entry_Offset entry) acc.2
       then (true, entry_Offset entry)
       else acc)
    entries (false, SIZE_MAX).

(** [TryGetPreviousRevisionOffset]: the value returned and [eofOffset].
    The parser it reads with is a new one. *)
Definition TryGetPreviousRevisionOffset (depth : nat) (file : PdfFile)
    (currOffset : Z) : Result (bool * Z) :=
  match ReadDocumentStructure depth file (to_ssize currOffset) true
                              new_parser with
  | (_, Raise e) => Raise e
  | (parser, Ok _) =>
      if Z.eqb (m_IncrementalUpdateCount parser) 0
      then Ok (false, SIZE_MAX)
      else Ok (lowest_offset (m_entries parser))
  end.

(** ** The magic word and the end-of-file marker, read from the device *)

Module OnDevice.

Definition PDF_VERSION_LENGHT : Z := 3.
Definition PDF_MAGIC_LENGHT : Z := 8.

(** [ReadMagicWord]: the value returned and the cursor it leaves. *)
Definition ReadMagicWord (ch : ascii) (cursoridx : Z) : Result (bool * Z) :=
  let moved (readchar : bool) : Result (bool * Z) :=
    Ok (false, if readchar then wrap32 (cursoridx + 1) else 0) in
  if Z.eqb cursoridx 0 then moved (Ascii.eqb ch "%"%char)
  else if Z.eqb cursoridx 1 then moved (Ascii.eqb ch "P"%char)
  else if Z.eqb cursoridx 2 then moved (Ascii.eqb ch "D"%char)
  else if Z.eqb cursoridx 3 then moved (Ascii.eqb ch "F"%char)
  else if Z.eqb cursoridx 4
  then (if Ascii.eqb ch "-"%char then Ok (true, cursoridx) else moved false)
  else Raise InternalLogic.

(** Modelled from the spec: [GetPdfVersion] is declared with the
    version names; the specification accepts the versions 1.0 to 1.7 and
    2.0 and no other. *)
Definition GetPdfVersion (versionStr : list ascii) : PdfVersion :=
  if decide (versionStr = chars "1.0") then V1_0
  else if decide (versionStr = chars "1.1") then V1_1
  else if decide (versionStr = chars "1.2") then V1_2
  else if decide (versionStr = chars "1.3") then V1_3
  else if decide (versionStr = chars "1.4") then V1_4
  else if decide (versionStr = chars "1.5") then V1_5
  else if decide (versionStr = chars "1.6") then V1_6
  else if decide (versionStr = chars "1.7") then V1_7
  else if decide (versionStr = chars "2.0") then V2_0
  else VersionUnknown.

(** The [while (true)] loop of [IsPdfFile] on the bytes the device has
    left, [count] of them being read already: the number of bytes read
    when the loop ends, and whether it ended on the magic word ([true])
    or on the end of the device ([false]). *)
Fixpoint read_magic (rest : list ascii) (i : Z) (count : Z)
  : Z * Result bool :=
  match rest with
  | [] => (count, Ok false)
  | ch :: rest' =>
      match ReadMagicWord ch i with
      | Raise e => (count + 1, Raise e)
      | Ok (true, _) => (count + 1, Ok true)
      | Ok (false, i') => read_magic rest' i' (count + 1)
      end
  end.

Definition IsPdfFile (device : InputStreamDevice) (p : PdfParser)
  : InputStreamDevice * PdfParser * Result bool :=
  let device0 := Seek 0 SeekBegin device in
  let scanned := read_magic (dev_data device0) 0 0 in
  let device1 := mkDevice (dev_data device0) scanned.1 in
  match scanned.2 with
  | Raise e => (device1, p, Raise e)
  | Ok false => (device1, p, Ok false)
  | Ok true =>
      let (versionStr, device2) := Read PDF_VERSION_LENGHT device1 in
      if negb (Z.eqb (Z.of_nat (length versionStr)) PDF_VERSION_LENGHT)
      then (device2, p, Ok false)
      else
        let magicOffset := wrap64 (GetPosition device2 - PDF_MAGIC_LENGHT) in
        let version := GetPdfVersion versionStr in
        let p' := set_magic magicOffset version p in
        match version with
        | VersionUnknown => (device2, p', Ok false)
        | _ => (device2, p', Ok true)
        end
  end.

Definition EOFToken : list ascii := chars "%%EOF".
Definition EOFTokenLen : Z := 5.

(** The [while (true)] loop of the lenient branch of [checkEOFMarker],
    the device standing at [currentPos]: the device it leaves, and
    [found]. *)
Fixpoint search_marker (currentPos : nat) (device : InputStreamDevice)
  : InputStreamDevice * bool :=
  let (buff, device1) := Read EOFTokenLen device in
  if strncmp_eq (Z.to_nat EOFTokenLen) buff EOFToken then (device1, true)
  else
    match currentPos with
    | O => (device1, false)  (* [currentPos--] has made it negative *)
    | S currentPos' =>
        search_marker currentPos'
          (Seek (Z.of_nat currentPos') SeekBegin device1)
    end.

(** [checkEOFMarker] on a device of at least five bytes. *)
Definition checkEOFMarker (device : InputStreamDevice) (p : PdfParser)
  : InputStreamDevice * PdfParser * Result unit :=
  let p0 := set_lastEOFOffset 0 p in
  let device0 := Seek (- to_ssize EOFTokenLen) SeekEnd device in
  if m_StrictParsing p0
  then
    let (buff, device1) := Read EOFTokenLen device0 in
    if strncmp_eq (Z.to_nat EOFTokenLen) buff EOFToken
    then (device1, p0, Ok tt)
    else (device1, p0, Raise InvalidEOFToken)
  else
    let currentPos := to_ssize (GetPosition device0) in
    let (device1, found) := search_marker (Z.to_nat currentPos) device0 in
    if found
    then (device1,
          set_lastEOFOffset (wrap64 (GetPosition device1 - EOFTokenLen)) p0,
          Ok tt)
    else (device1, p0, Raise InvalidEOFToken).

End OnDevice.

End Parser.

(** * Notions and sample data used by the statements *)

Section Notions.

Import IndirectObjectList CString Parser.

(** The free list is in order when each reference is below all those
    after it. *)
Definition free_list_sorted (l : list PdfReference) : Prop :=
  StronglySorted ref_lt l.

(** Two objects are created and removed, so that the free list holds
    [1 1 R] and [2 1 R]; adding [2 1 R] again changes nothing. *)
Definition sample_calls : list IndirectObjectList.Call :=
  [ IndirectObjectList.CallCreateObject VNull;
    IndirectObjectList.CallCreateObject (VBool true);
    IndirectObjectList.CallRemoveObject (mkRef 2 0) true;
    IndirectObjectList.CallRemoveObject (mkRef 1 0) true ].

(** Some object to store. *)
Definition capped_object : PdfObject := mkObject (VName "Catalog") false.

(** A store whose only object is [5 65534 R]. *)
Definition store_at_cap : t := PushObject (mkRef 5 65534) capped_object empty.

(** A store whose only object is [7 65535 R]. *)
Definition store_past_cap : t := PushObject (mkRef 7 65535) capped_object empty.

(** A store holding [3 0 R] and [4 2 R], with [9 1 R] on the free list. *)
Definition store_with_free : t :=
  AddFreeObject (mkRef 9 1)
    (PushObject (mkRef 4 2) capped_object
       (PushObject (mkRef 3 0) capped_object empty)).

(** The keys [mergeTrailer] looks at. *)
Definition merged_keys : list string := ["Size"; "Root"; "Encrypt"; "Info"; "ID"].

(** The value of [key] in the first dictionary of the list that has it:
    with the list ordered newest first, the most recent revision that
    defines the key. *)
Definition newest_defining (key : string) (trailers : list PdfDictionary)
  : option PdfVariant :=
  head (omap (fun trailer : PdfDictionary => trailer !! key) trailers).

(** The trailer of a base revision, and that of an incremental update
    which adds [Info] and gives [Root] another value. *)
Definition base_trailer : Parser.PdfDictionary :=
  {[ "Size" := VNumber 4; "Root" := VReference (mkRef 1 0) ]}.

Definition update_trailer : Parser.PdfDictionary :=
  {[ "Root" := VReference (mkRef 9 0); "Info" := VReference (mkRef 5 0);
     "Prev" := VNumber 178 ]}.

(** Object 1 is given by the newest revision at offset 500; an older
    subsection that puts it at offset 17 is passed over. *)
Definition newest_entries : list PdfXRefEntry :=
  [ mkEntry 0 0 65535 XRefFree true; mkEntry 0 500 0 XRefInUse true ].

(** The number a run of decimal digits writes. *)
Definition decimal (ds : list ascii) : Z :=
  fold_left (fun acc c => 10 * acc + digit_value c) ds 0.

Definition all_digits (ds : list ascii) : Prop :=
  Forall (fun c => isdigit c = true) ds.

(** The three conversions [" %c%c%c"] on what follows the generation. *)
Definition scan_tail (variant generation : Z) (s : list ascii) : ScanResult :=
  match scan_char (skip_space s) with
  | Converted chType s3 =>
      match scan_char s3 with
      | Converted empty1 s4 =>
          match scan_char s4 with
          | Converted empty2 _ =>
              mkScan 5 (Some variant) (Some generation) (Some chType)
                     (Some empty1) (Some empty2)
          | _ => mkScan 4 (Some variant) (Some generation) (Some chType)
                        (Some empty1) None
          end
      | _ => mkScan 3 (Some variant) (Some generation) (Some chType) None None
      end
  | _ => mkScan 2 (Some variant) (Some generation) None None None
  end.

Definition no_NUL (s : list ascii) : Prop :=
  Forall (fun c => Ascii.eqb c NUL = false) s.

(** The token stands at index [j] of the buffer. *)
Definition token_at (buffer token : list ascii) (j : nat) : Prop :=
  take (length token) (drop j buffer) = token.

(** The bytes [findTokenBackward] reads into the buffer. *)
Definition search_window (device : InputStreamDevice) (range searchEnd : Z)
  : list ascii :=
  let searchSize := Z.min searchEnd range in
  take (Z.to_nat searchSize)
       (drop (Z.to_nat (searchEnd - searchSize)) (dev_data device)).

(** What no step of the walk undoes: offsets once visited stay visited,
    the update counter does not go down, and the members set before the
    walk keep their values. *)
Record grows (p p' : PdfParser) : Prop := mkGrows {
  grows_visited : m_visitedXRefOffsets p ⊆ m_visitedXRefOffsets p';
  grows_count : m_IncrementalUpdateCount p <= m_IncrementalUpdateCount p';
  grows_strict : m_StrictParsing p' = m_StrictParsing p;
  grows_magic : m_magicOffset p' = m_magicOffset p;
  grows_password : m_Password p' = m_Password p
}.

(** A state transformer that only grows the state. *)
Definition growing {A : Type} (m : M A) : Prop :=
  forall p, grows p (m p).1.

(** The table of a one-page file: the head of the free list and three
    objects in use. *)
Definition minimal_records (i : nat) : list ascii :=
  match i with
  | 0%nat => chars "0000000000 65535 f " ++ [LF]
  | 1%nat => chars "0000000009 00000 n " ++ [LF]
  | 2%nat => chars "0000000058 00000 n " ++ [LF]
  | _ => chars "0000000115 00000 n " ++ [LF]
  end.

(** A file without cross-reference streams: parsing one fails wherever
    it is tried. *)
Definition no_xref_stream (offset : Z) : XRefStreamView :=
  XRefStreamBroken InvalidXRef.

(** The token [xref] at offset 100, the subsection [0 4] with the records
    above, then [trailer] and the dictionary given; nothing to read at
    any other offset. *)
Definition table_at_100 (trailer : PdfDictionary) (offset : Z) : SectionView :=
  if Z.eqb offset 100
  then SectionXRef [StepSubsection 0 4 minimal_records; StepTrailer]
                   (TrailerObject trailer)
  else SectionNoToken.

(** A file of 400 bytes, [%PDF-1.4] at its start, [%%EOF] at offset 395
    after [startxref 100], whose only table, at offset 100, has the
    trailer [<< /Size 4 /Root 1 0 R /Prev 100 >>]; it is not encrypted
    and its objects load. *)
Definition self_prev_trailer : PdfDictionary :=
  {[ "Size" := VNumber 4; "Root" := VReference (mkRef 1 0);
     "Prev" := VNumber 100 ]}.

Definition self_prev_file : PdfFile :=
  mkFile 400 (Some (0, V1_4)) (fun _ => Ok 395) (fun _ => Ok 100)
         (fun _ => Raise InvalidXRef)
         (table_at_100 self_prev_trailer) no_xref_stream
         (fun _ => Raise InvalidObject)
         (fun _ => Raise InvalidEncryptionDict)
         (fun _ _ _ => AuthFailed)
         (fun _ _ => Ok None).

(** A file laid out in the same way whose trailer has an [Encrypt]
    dictionary and an [ID]; the password [owner] authenticates, any
    other fails. *)
Definition encrypted_trailer : PdfDictionary :=
  {[ "Size" := VNumber 4; "Root" := VReference (mkRef 1 0);
     "Encrypt" := VDictionary [("Filter", VName "Standard")];
     "ID" := VArray [VString "0123"; VString "0123"] ]}.

Definition encrypted_file : PdfFile :=
  mkFile 400 (Some (0, V1_6)) (fun _ => Ok 395) (fun _ => Ok 100)
         (fun _ => Raise InvalidXRef)
         (table_at_100 encrypted_trailer) no_xref_stream
         (fun _ => Raise InvalidObject)
         (fun _ => Ok (mkEncrypt 1))
         (fun _ password _ =>
            if String.eqb password "owner" then AuthOwner else AuthFailed)
         (fun _ _ => Ok None).

End Notions.

(** * Notions used by the further properties *)

Section StoreNotions.

Import IndirectObjectList.

(** The references written in a value, at any depth of arrays and
    dictionaries. *)
Fixpoint references (v : PdfVariant) : gset PdfReference :=
  match v with
  | VReference r => {[ r ]}
  | VArray l =>
      (fix of_children (l : list PdfVariant) : gset PdfReference :=
         match l with
         | [] => ∅
         | child :: rest => references child ∪ of_children rest
         end) l
  | VDictionary l =>
      (fix of_pairs (l : list (string * PdfVariant)) : gset PdfReference :=
         match l with
         | [] => ∅
         | entry :: rest => references entry.2 ∪ of_pairs rest
         end) l
  | _ => ∅
  end.

(** The references a document with trailer object [trailer] can reach:
    those written in the trailer, those written in the generation-0
    object of a compressed object stream, and those written in an object
    of the store that is itself reached. *)
Inductive live (st : t) (trailer : PdfVariant) : PdfReference -> Prop :=
  | live_trailer r :
      r ∈ references trailer -> live st trailer r
  | live_stream objId obj r :
      objId ∈ m_compressedObjectStreams st ->
      GetObject (mkRef objId 0) st = Some obj ->
      r ∈ references (obj_value obj) ->
      live st trailer r
  | live_child parent obj r :
      live st trailer parent ->
      GetObject parent st = Some obj ->
      r ∈ references (obj_value obj) ->
      live st trailer r.

(** ** What [visitObject] leaves in the set of referenced objects *)

Section VisitNotions.

Variable objects : gmap PdfReference PdfObject.

(** Every reference that [res] adds to [seen] has the references of its
    object in [res]. *)
Definition expanded (seen res : gset PdfReference) : Prop :=
  forall r o, r ∈ res -> r ∉ seen -> objects !! r = Some o ->
    references (obj_value o) ⊆ res.

Definition visited (roots seen res : gset PdfReference) : Prop :=
  seen ⊆ res /\ roots ⊆ res /\ expanded seen res.

Definition closed (s : gset PdfReference) : Prop := expanded ∅ s.

Definition within (L : PdfReference -> Prop) (s : gset PdfReference) : Prop :=
  forall r, r ∈ s -> L r.

Definition hereditary (L : PdfReference -> Prop) : Prop :=
  forall r o r', L r -> objects !! r = Some o ->
    r' ∈ references (obj_value o) -> L r'.

(** The stored objects whose reference is not in [seen]: the measure
    that bounds the recursion of [visitObject] through references. *)
Definition pending (seen : gset PdfReference) : nat :=
  size (dom objects ∖ seen).

Variable follow :
  PdfVariant -> gset PdfReference -> option (gset PdfReference).

Definition follow_visited : Prop := forall v seen res,
  follow v seen = Some res -> visited (references v) seen res.

Definition follow_within (L : PdfReference -> Prop) : Prop :=
  forall v seen res,
  follow v seen = Some res ->
  within L (references v) -> within L seen -> within L res.

End VisitNotions.

(** [m_ObjectCount] is at least every object number the store holds or
    has on its free list. *)
Definition count_covers (st : t) : Prop :=
  (forall ref, is_Some (GetObject ref st) ->
     ObjectNumber ref <= m_ObjectCount st)
  /\ (forall ref, ref ∈ m_FreeObjects st ->
        ObjectNumber ref <= m_ObjectCount st).

(** The facts that keep a compressed object stream in place. *)
Definition guarded (ref : PdfReference) (obj : PdfObject) (st : t) : Prop :=
  GetObject ref st = Some obj
  /\ ObjectNumber ref ∈ m_compressedObjectStreams st
  /\ (ref ∉ m_FreeObjects st)
  /\ count_covers st
  /\ 0 <= m_ObjectCount st < 2 ^ 32 - 1.

(** Calls that allocate, remove, or register a compressed object
    stream. *)
Definition allocates_or_removes (c : Call) : Prop :=
  match c with
  | CallCreateObject _ => True
  | CallRemoveObject _ _ => True
  | CallAddCompressedObjectStream _ => True
  | _ => False
  end.

End StoreNotions.

Section CollectorSamples.

Import IndirectObjectList.

(** A trailer whose [Root] is [1 0 R]. *)
Definition sample_trailer : PdfVariant :=
  VDictionary [("Root"%string, VReference (mkRef 1 0))].

(** A store where [1 0 R] refers to [2 0 R], nothing refers to [3 0 R],
    and [5 0 R] is a compressed object stream. *)
Definition sample_document : t :=
  AddCompressedObjectStream 5
    (PushObject (mkRef 5 0)
       (mkObject (VDictionary [("First"%string, VNumber 10)]) false)
       (PushObject (mkRef 3 0) (mkObject VNull false)
          (PushObject (mkRef 2 0) (mkObject (VArray []) false)
             (PushObject (mkRef 1 0)
                (mkObject (VDictionary
                             [("Pages"%string, VReference (mkRef 2 0))]) false)
                empty)))).

(** A store that lists [8] as a compressed object stream without holding
    the object [8 0 R]. *)
Definition sample_missing_stream : t :=
  AddCompressedObjectStream 8
    (PushObject (mkRef 1 0) (mkObject VNull false) empty).

(** The calls that build [sample_document]. *)
Definition sample_document_calls : list Call :=
  [CallPushObject (mkRef 1 0)
     (mkObject (VDictionary [("Pages"%string, VReference (mkRef 2 0))]) false);
   CallPushObject (mkRef 2 0) (mkObject (VArray []) false);
   CallPushObject (mkRef 3 0) (mkObject VNull false);
   CallPushObject (mkRef 5 0)
     (mkObject (VDictionary [("First"%string, VNumber 10)]) false);
   CallAddCompressedObjectStream 5].

(** An attempt to remove the compressed object stream of
    [sample_document], among allocations and another removal. *)
Definition sample_stream_calls : list Call :=
  [CallRemoveObject (mkRef 5 0) true;
   CallCreateObject VNull;
   CallRemoveObject (mkRef 3 0) true;
   CallCreateObject (VBool true)].

End CollectorSamples.

Section DeviceNotions.

Import CString Parser.

(** The magic word [IsPdfFile] looks for. *)
Definition magic_word : list ascii := chars "%PDF-".

Definition no_percent (s : list ascii) : Prop :=
  Forall (fun c => c <> "%"%char) s.

(** A file with twelve bytes in front of the magic word. *)
Definition sample_garbage_file : InputStreamDevice :=
  mkDevice (chars "leading junk%PDF-1.7 body %%EOF trailing") 7.

End DeviceNotions.

Section WalkNotions.

Import Parser.

(** Every slot of [entries] that is parsed is the same slot of
    [entries']. *)
Definition keeps_parsed (entries entries' : list PdfXRefEntry) : Prop :=
  forall i entry,
    entries !! i = Some entry -> entry_Parsed entry = true ->
    entries' !! i = Some entry.

(** The tables of the cross-reference streams of [file] pass over the
    slots that are parsed, as the classical reader does. *)
Definition stream_tables_keep_parsed (file : PdfFile) : Prop :=
  forall offset dict ReadXRefTable previous,
    file_xref_stream_at file offset
    = XRefStreamObject dict ReadXRefTable previous ->
    forall entries, keeps_parsed entries (ReadXRefTable entries).1.

(** A state transformer that leaves the parsed slots of the table as
    they are. *)
Definition keeping {A : Type} (m : M A) : Prop :=
  forall p, keeps_parsed (m_entries p) (m_entries (m p).1).

(** A state transformer that visits no offset and counts at most [n]
    incremental updates. *)
Definition counting {A : Type} (n : Z) (m : M A) : Prop :=
  forall p,
    m_visitedXRefOffsets (m p).1 = m_visitedXRefOffsets p
    /\ m_IncrementalUpdateCount p <= m_IncrementalUpdateCount (m p).1
       <= m_IncrementalUpdateCount p + n.

(** A record of the form [NNNNNNNNNN GGGGG T EE]: ten digits, a space,
    five digits, a space, [n] or [f], and an end of line that [CheckEOL]
    accepts. *)
Definition canonical_record (buffer : list ascii) : Prop :=
  exists ds gs T E1 E2,
    buffer = ds ++ CString.SP :: gs ++ [CString.SP; T; E1; E2]
    /\ all_digits ds /\ length ds = 10%nat
    /\ all_digits gs /\ length gs = 5%nat
    /\ CheckXRefEntryType T = true /\ CheckEOL E1 E2 = true.

(** A subsection with nothing wrong in it: a first object number and a
    count that are not negative and whose sum is below [2 ^ 32], and
    [objectCount] records of the canonical form. *)
Definition readable_subsection (step : SubsectionStep) : Prop :=
  exists firstObject objectCount records,
    step = StepSubsection firstObject objectCount records
    /\ 0 <= firstObject /\ 0 <= objectCount
    /\ firstObject + objectCount < 2 ^ 32
    /\ forall index, (index < Z.to_nat objectCount)%nat ->
         canonical_record (records index).

(** An entry [TryGetPreviousRevisionOffset] takes into account. *)
Definition in_use_entry (entry : PdfXRefEntry) : Prop :=
  entry_Parsed entry = true /\ entry_Type entry = XRefInUse.

End WalkNotions.

Section LoadNotions.

Import IndirectObjectList Parser.

(** The loop of [readObjectsInternal] has recorded nothing about the
    object number [i]: the references with that number on the free list
    of [st] were on that of [st0], the store the loop started from, and
    every reference with that number resolves in [st] as it did in
    [st0]. *)
Definition unrecorded (i : nat) (st0 st : t) : Prop :=
  forall ref, ObjectNumber ref = Z.of_nat i ->
    (ref ∈ m_FreeObjects st -> ref ∈ m_FreeObjects st0)
    /\ GetObject ref st = GetObject ref st0.

(** What [SafeAddFreeObject] on the slot [i] with [generation] comes to:
    below the cap the number is on the free list with the next
    generation; from the cap on nothing is recorded about the number,
    and the next generation is among the unavailable numbers. *)
Definition released (i : nat) (generation : Z) (st0 st : t) : Prop :=
  if Z.ltb (generation + 1) MaxXRefGenerationNum
  then mkRef (Z.of_nat i) (generation + 1) ∈ m_FreeObjects st
  else (generation + 1) ∈ m_unavailableObjects st /\ unrecorded i st0 st.

(** Where the loop of [readObjectsInternal], started from the store
    [st0], has left the slot [i] of the table, holding [entry], in the
    store [st] and in [compressedObjects]: an object it could load is in
    the store under the generation of the entry cut to 16 bits; a free
    slot and one it could not load are [released] with that generation;
    an unparsed slot, and an in-use one with offset 0 and generation 0,
    are on the free list with generation 1; of an in-use slot with
    offset 0 and another generation nothing is recorded; a compressed
    slot is listed under its object stream. *)
Definition placed
    (load : option PdfEncrypt -> PdfReference -> Z -> Result PdfObject)
    (p : PdfParser) (i : nat) (entry : PdfXRefEntry)
    (st0 st : t) (compressedObjects : gmap Z (list Z)) : Prop :=
  let generation := wrap16 (entry_Generation entry) in
  if entry_Parsed entry
  then
    match entry_Type entry with
    | XRefInUse =>
        if Z.ltb 0 (entry_Offset entry)
        then
          match load (m_Encrypt p) (mkRef (Z.of_nat i) generation)
                     (entry_Offset entry) with
          | Ok obj => GetObject (mkRef (Z.of_nat i) generation) st = Some obj
          | Raise _ => released i generation st0 st
          end
        else if Z.eqb (entry_Generation entry) 0
        then mkRef (Z.of_nat i) 1 ∈ m_FreeObjects st
        else unrecorded i st0 st
    | XRefFree => released i generation st0 st
    | XRefCompressed =>
        exists members,
          compressedObjects !! entry_ObjectNumber entry = Some members
          /\ Z.of_nat i ∈ members
    | XRefUnknown => False
    end
  else mkRef (Z.of_nat i) 1 ∈ m_FreeObjects st.

(** What the turns of the loop at the indices from [lo] up to [hi]
    (excluded) keep of the store and of [compressedObjects]: the free
    list, the unavailable numbers and the lists of [compressedObjects]
    lose nothing, and nothing is recorded about an object number outside
    [lo .. hi - 1]. *)
Definition extends (lo hi : nat) (st : t) (comp : gmap Z (list Z))
    (st' : t) (comp' : gmap Z (list Z)) : Prop :=
  (forall ref, ref ∈ m_FreeObjects st -> ref ∈ m_FreeObjects st')
  /\ (forall n, n ∈ m_unavailableObjects st -> n ∈ m_unavailableObjects st')
  /\ (forall key members, comp !! key = Some members ->
        exists members', comp' !! key = Some members'
                         /\ forall x, x ∈ members -> x ∈ members')
  /\ (forall ref,
        ObjectNumber ref < Z.of_nat lo \/ Z.of_nat hi <= ObjectNumber ref ->
        (ref ∈ m_FreeObjects st' -> ref ∈ m_FreeObjects st)
        /\ GetObject ref st' = GetObject ref st).

(** A table that meets every case of the loop: the head of the free
    list, an object in use, a free slot at the last generation, an
    in-use slot without an offset at generation 0 and one at generation
    7, a slot of an object stream and an unparsed slot. *)
Definition worn_entries : list PdfXRefEntry :=
  [ mkEntry 0 0 65535 XRefFree true;
    mkEntry 0 500 0 XRefInUse true;
    mkEntry 0 0 65535 XRefFree true;
    mkEntry 0 0 0 XRefInUse true;
    mkEntry 0 0 7 XRefInUse true;
    mkEntry 1 0 0 XRefCompressed true;
    unparsed_entry ].

End LoadNotions.

(** * Properties of the indirect-object store *)

Section StoreFacts.

Import IndirectObjectList.

Lemma ref_ltb_irrefl a : ref_ltb a a = false.
Proof. unfold ref_ltb. rewrite Z.eqb_refl. apply Z.ltb_irrefl. Qed.

Lemma ref_ltb_trans a b c :
  ref_ltb a b = true -> ref_ltb b c = true -> ref_ltb a c = true.
Proof.
  unfold ref_ltb.
  destruct (Z.eqb_spec (ObjectNumber a) (ObjectNumber b)),
           (Z.eqb_spec (ObjectNumber b) (ObjectNumber c)),
           (Z.eqb_spec (ObjectNumber a) (ObjectNumber c)); lia.
Qed.

Lemma ref_ltb_asym a b : ref_ltb a b = true -> ref_ltb b a = false.
Proof.
  intros H. destruct (ref_ltb b a) eqn:E; [|done].
  pose proof (ref_ltb_trans _ _ _ H E) as T. rewrite ref_ltb_irrefl in T. done.
Qed.

Lemma ref_ltb_total a b :
  ref_ltb a b = false -> ref_ltb b a = false -> a = b.
Proof.
  destruct a as [n g], b as [n' g']. unfold ref_ltb; simpl.
  destruct (Z.eqb_spec n n'), (Z.eqb_spec n' n); intros; f_equal; lia.
Qed.

Lemma sorted_NoDup l : free_list_sorted l -> NoDup l.
Proof.
  induction 1 as [|a l Hs IH Hall]; constructor; auto.
  intros Hin. rewrite Forall_forall in Hall. specialize (Hall _ Hin).
  unfold ref_lt in Hall. rewrite ref_ltb_irrefl in Hall. done.
Qed.

Lemma insert_at_cons n x a l :
  insert_at (S n) x (a :: l) = a :: insert_at n x l.
Proof. reflexivity. Qed.

Lemma elem_of_insert_at n x l y :
  y ∈ insert_at n x l <-> y = x \/ y ∈ l.
Proof.
  unfold insert_at. rewrite elem_of_app, elem_of_cons.
  rewrite <- (take_drop n l) at 3. rewrite elem_of_app. tauto.
Qed.

(** A reference already in a sorted list has a non-empty equal range. *)
Lemma equal_range_member l v :
  free_list_sorted l -> v ∈ l -> (lower_bound l v < upper_bound l v)%nat.
Proof.
  induction 1 as [|a l Hs IH Hall]; intros Hin.
  - inversion Hin.
  - simpl. apply elem_of_cons in Hin as [->|Hin].
    + rewrite ref_ltb_irrefl. lia.
    + rewrite Forall_forall in Hall. pose proof (Hall _ Hin) as Hav.
      unfold ref_lt in Hav. rewrite Hav, (ref_ltb_asym _ _ Hav).
      specialize (IH Hin). lia.
Qed.

(** A reference with an empty equal range goes in at the lower bound and
    the list stays sorted. *)
Lemma insert_lower_bound_sorted l v :
  free_list_sorted l ->
  lower_bound l v = upper_bound l v ->
  free_list_sorted (insert_at (lower_bound l v) v l).
Proof.
  induction 1 as [|a l Hs IH Hall]; simpl; intros Heq.
  - repeat constructor.
  - destruct (ref_ltb a v) eqn:Hav.
    + rewrite (ref_ltb_asym _ _ Hav) in Heq. injection Heq as Heq.
      rewrite insert_at_cons. constructor; [exact (IH Heq)|].
      rewrite Forall_forall. intros y Hy.
      apply elem_of_insert_at in Hy as [->|Hy]; [exact Hav|].
      rewrite Forall_forall in Hall. auto.
    + destruct (ref_ltb v a) eqn:Hva; [|discriminate].
      unfold insert_at; simpl. constructor; [constructor; assumption|].
      constructor; [exact Hva|].
      rewrite Forall_forall in Hall |- *. intros y Hy.
      eapply ref_ltb_trans; [exact Hva|]. apply Hall, Hy.
Qed.

Lemma AddFreeObject_free_list ref st :
  m_FreeObjects (AddFreeObject ref st) =
    if negb (Nat.eqb (lower_bound (m_FreeObjects st) ref)
                     (upper_bound (m_FreeObjects st) ref))
       && negb (Nat.eqb (length (m_FreeObjects st)) 0)
    then m_FreeObjects st
    else insert_at (lower_bound (m_FreeObjects st) ref) ref (m_FreeObjects st).
Proof.
  unfold AddFreeObject, equal_range; simpl.
  destruct (negb _ && negb _); [done|].
  unfold tryIncrementObjectCount; simpl. destruct (Z.ltb _ _); done.
Qed.

Lemma lower_le_upper l v :
  free_list_sorted l -> (lower_bound l v <= upper_bound l v)%nat.
Proof.
  induction 1 as [|a l Hs IH Hall]; simpl; [lia|].
  destruct (ref_ltb a v) eqn:Hav.
  - rewrite (ref_ltb_asym _ _ Hav). lia.
  - destruct (ref_ltb v a); lia.
Qed.

Lemma AddFreeObject_sorted ref st :
  free_list_sorted (m_FreeObjects st) ->
  free_list_sorted (m_FreeObjects (AddFreeObject ref st)).
Proof.
  intros Hs. rewrite AddFreeObject_free_list.
  destruct (Nat.eqb_spec (lower_bound (m_FreeObjects st) ref)
                         (upper_bound (m_FreeObjects st) ref)) as [Heq|Hne]; simpl.
  - by apply insert_lower_bound_sorted.
  - destruct (Nat.eqb_spec (length (m_FreeObjects st)) 0) as [Hl|Hl]; simpl; [|done].
    destruct (m_FreeObjects st); [|done]. simpl in Hne. done.
Qed.

Lemma AddFreeObject_member ref st :
  free_list_sorted (m_FreeObjects st) ->
  ref ∈ m_FreeObjects st ->
  AddFreeObject ref st = st.
Proof.
  intros Hs Hin. pose proof (equal_range_member _ _ Hs Hin) as Hlt.
  unfold AddFreeObject, equal_range; simpl.
  destruct (Nat.eqb_spec (lower_bound (m_FreeObjects st) ref)
                         (upper_bound (m_FreeObjects st) ref)) as [Heq|Hne]; [lia|].
  destruct (Nat.eqb_spec (length (m_FreeObjects st)) 0) as [Hl|Hl]; simpl; [|done].
  destruct (m_FreeObjects st); [inversion Hin|done].
Qed.

Lemma tryAddFreeObject_sorted objnum gennum st :
  free_list_sorted (m_FreeObjects st) ->
  free_list_sorted (m_FreeObjects (tryAddFreeObject objnum gennum st).2).
Proof.
  intros Hs. unfold tryAddFreeObject.
  destruct (Z.leb _ _); simpl; [done|]. by apply AddFreeObject_sorted.
Qed.

Variable MaxObjectCount : Z.

Lemma tryIncrementObjectCount_free_list ref st :
  m_FreeObjects (tryIncrementObjectCount ref st) = m_FreeObjects st.
Proof. unfold tryIncrementObjectCount. destruct (Z.ltb _ _); done. Qed.

Lemma step_sorted c st :
  free_list_sorted (m_FreeObjects st) ->
  free_list_sorted (m_FreeObjects (step MaxObjectCount c st)).
Proof.
  intros Hs. destruct c; simpl.
  - unfold CreateObject, addNewObject, getNextFreeObject.
    destruct (m_FreeObjects st) as [|r rest] eqn:Hf.
    + destruct (next_object_num _ _ _ _) as [[n|e]|]; rewrite ?Hf; try done.
      unfold PushObject. rewrite tryIncrementObjectCount_free_list. simpl.
      rewrite Hf. done.
    + unfold PushObject. rewrite tryIncrementObjectCount_free_list. simpl.
      inversion Hs; done.
  - unfold PushObject. rewrite tryIncrementObjectCount_free_list. done.
  - unfold RemoveObject. destruct (m_Objects st !! ref); [|done].
    unfold removeObject. destruct (decide _); [done|]. simpl.
    destruct markAsFree; [|done].
    by apply tryAddFreeObject_sorted.
  - by apply AddFreeObject_sorted.
  - unfold TryAddFreeObject. simpl. by apply tryAddFreeObject_sorted.
  - done.
  - constructor.
Qed.

Lemma run_sorted cs st :
  free_list_sorted (m_FreeObjects st) ->
  free_list_sorted (m_FreeObjects (run MaxObjectCount cs st)).
Proof.
  revert st. induction cs as [|c cs IH]; intros st Hs; simpl; [done|].
  apply IH. by apply step_sorted.
Qed.

(** The fuel [getNextFreeObject] gives its loop is enough whenever the
    configured maximum leaves room for the increment: each turn that
    stays in the loop has met one more member of the unavailable set. *)
Lemma next_object_num_total (unavailable : gset Z) :
  MaxObjectCount < 2 ^ 32 - 1 ->
  forall fuel n,
    0 <= n ->
    (size (filter (fun x => (n <= x)%Z) unavailable) <= fuel)%nat ->
    next_object_num MaxObjectCount fuel unavailable n <> None.
Proof.
  intros Hmax. induction fuel as [|fuel IH]; intros n Hn Hsize; simpl.
  - destruct (Z.ltb _ _); [done|]. destruct (decide _) as [Hin|]; [|done].
    assert (n ∈ filter (fun x => n <= x) unavailable) as Hf
      by (apply elem_of_filter; split; [lia|done]).
    assert (size (filter (fun x => n <= x) unavailable) <> 0%nat) as Hnz
      by (apply size_non_empty_iff; intros He; rewrite He in Hf;
          by apply not_elem_of_empty in Hf).
    lia.
  - destruct (Z.ltb_spec MaxObjectCount n); [done|].
    destruct (decide _) as [Hin|]; [|done].
    unfold wrap32. rewrite Z.mod_small by lia.
    apply IH; [lia|].
    assert (filter (fun x => n <= x) unavailable
            = {[ n ]} ∪ filter (fun x => n + 1 <= x) unavailable) as Heq.
    { apply set_eq. intros x.
      rewrite elem_of_union, elem_of_singleton, !elem_of_filter. split.
      - intros [H1 H2]. destruct (decide (x = n)); [by left|right].
        split; [lia|done].
      - intros [->|[H1 H2]]; split; (lia || done). }
    rewrite Heq, size_union, size_singleton in Hsize; [lia|].
    intros x Hx1 Hx2. apply elem_of_singleton in Hx1 as ->.
    apply elem_of_filter in Hx2 as [Hx2 _]. lia.
Qed.

Lemma getNextFreeObject_total st :
  MaxObjectCount < 2 ^ 32 - 1 ->
  getNextFreeObject MaxObjectCount st <> None.
Proof.
  intros Hmax. unfold getNextFreeObject.
  destruct (m_FreeObjects st); [|done].
  pose proof (next_object_num_total (m_unavailableObjects st) Hmax
                (size (m_unavailableObjects st))
                (wrap32 (m_ObjectCount st + 1))) as H.
  destruct (next_object_num _ _ _ _) as [[]|]; try done.
  exfalso. apply H; [| |done].
  2:{ apply subseteq_size. intros x Hx. by apply elem_of_filter in Hx as [_ ?]. }
  unfold wrap32. apply Z.mod_pos_bound. lia.
Qed.

(** C5. Whatever calls are made on a store, its free list stays sorted
    ascending by reference and holds no reference twice; and
    [AddFreeObject] on a reference the list holds leaves the store as it
    is. *)
Theorem free_list_sorted_and_unique (calls : list Call) :
  let st := run MaxObjectCount calls empty in
  free_list_sorted (m_FreeObjects st)
  /\ NoDup (m_FreeObjects st)
  /\ (forall ref, ref ∈ m_FreeObjects st -> AddFreeObject ref st = st).
Proof.
  assert (free_list_sorted (m_FreeObjects (run MaxObjectCount calls empty))) as Hs
    by (apply run_sorted; constructor).
  simpl. split; [exact Hs|]. split; [by apply sorted_NoDup|].
  intros ref Hin. by apply AddFreeObject_member.
Qed.

End StoreFacts.

Lemma sample_calls_free_list :
  IndirectObjectList.m_FreeObjects
    (IndirectObjectList.run (2 ^ 31 - 1) sample_calls IndirectObjectList.empty)
  = [ mkRef 1 1; mkRef 2 1 ].
Proof. vm_compute. reflexivity. Qed.

Lemma free_list_sorted_and_unique_witness :
  let st := IndirectObjectList.run (2 ^ 31 - 1) sample_calls IndirectObjectList.empty in
  IndirectObjectList.AddFreeObject (mkRef 2 1) st = st.
Proof.
  intros st.
  apply (free_list_sorted_and_unique (2 ^ 31 - 1) sample_calls).
  fold st. unfold st. rewrite sample_calls_free_list.
  apply list_elem_of_further, list_elem_of_here.
Defined.

(** ** The generation cap *)

Section GenerationCap.

Import IndirectObjectList.

(** What [tryAddFreeObject] leaves in the unavailable set at the cap. *)
Lemma tryAddFreeObject_at_cap objnum gennum st :
  MaxXRefGenerationNum <= gennum ->
  tryAddFreeObject objnum gennum st =
    (-1, mkStore (m_Objects st) (m_ObjectCount st) (m_FreeObjects st)
                 ({[ gennum ]} ∪ m_unavailableObjects st)
                 (m_compressedObjectStreams st)).
Proof.
  intros H. unfold tryAddFreeObject.
  destruct (Z.leb_spec MaxXRefGenerationNum gennum); [done|lia].
Qed.

Lemma tryAddFreeObject_below_cap objnum gennum st :
  0 <= gennum < MaxXRefGenerationNum ->
  tryAddFreeObject objnum gennum st =
    (gennum, AddFreeObject (mkRef objnum gennum) st).
Proof.
  intros H. unfold tryAddFreeObject, MaxXRefGenerationNum in *.
  destruct (Z.leb_spec 65535 gennum); [lia|].
  unfold wrap16. rewrite Z.mod_small by lia. done.
Qed.

(** C1, evaluated where it fails.  Removing [5 65534 R] raises the
    generation to 65535; the store then holds 65535, the generation, in
    its unavailable set, and not 5, the object number, and the free list
    is left empty.  The allocator takes what the set holds for object
    numbers: in a store whose highest object number is 65534, the same
    removal makes the next object be numbered 65536 and not 65535. *)
Theorem generation_cap_records_generation :
  RemoveObject (mkRef 5 65534) true store_at_cap
    = Ok (Some capped_object, mkStore ∅ 5 [] {[ 65535 ]} ∅)
  /\ (5 ∉ ({[ 65535 ]} : gset Z))
  /\ m_Objects
       (run (2 ^ 31 - 1)
            [ CallPushObject (mkRef 65534 0) capped_object;
              CallRemoveObject (mkRef 5 65534) true;
              CallCreateObject VNull ]
            store_at_cap)
     = {[ mkRef 65534 0 := capped_object; mkRef 65536 0 := mkObject VNull true ]}.
Proof.
  split; [vm_compute; reflexivity|]. split; [set_solver|].
  vm_compute. reflexivity.
Qed.

(** C6 fails where the generation is already 65535: the incremented
    generation, 65536, is not 65535, yet the removal brings no reference
    onto the free list. *)
Lemma remove_at_terminal_generation_frees_nothing :
  RemoveObject (mkRef 7 65535) true store_past_cap
    = Ok (Some capped_object, mkStore ∅ 7 [] {[ 65536 ]} ∅)
  /\ 65535 + 1 <> 65535
  /\ ~ (exists st',
          RemoveObject (mkRef 7 65535) true store_past_cap
            = Ok (Some capped_object, st')
          /\ mkRef 7 (65535 + 1) ∈ m_FreeObjects st').
Proof.
  assert (RemoveObject (mkRef 7 65535) true store_past_cap
          = Ok (Some capped_object, mkStore ∅ 7 [] {[ 65536 ]} ∅)) as Heval
    by (vm_compute; reflexivity).
  split; [exact Heval|]. split; [lia|].
  intros (st' & Hrun & Hin). rewrite Heval in Hrun.
  injection Hrun as <-. simpl in Hin. by apply not_elem_of_nil in Hin.
Qed.

(** C6 as the code has it.  For a reference held by the store, removal
    throws [InternalLogic] when its object number is that of a compressed
    object stream.  Otherwise the object is taken out and handed back,
    and: without [markAsFree] the free list is untouched; with it, and
    the incremented generation below 65535, the free list stays sorted
    and holds exactly what it held and [Reference(num, gen+1)]; with it,
    and the incremented generation at 65535 or above, the free list is
    untouched. *)
Theorem remove_object_frees_or_retires (st : t) (ref : PdfReference)
    (obj : PdfObject) (markAsFree : bool) :
  m_Objects st !! ref = Some obj ->
  0 <= GenerationNumber ref ->
  free_list_sorted (m_FreeObjects st) ->
  (ObjectNumber ref ∈ m_compressedObjectStreams st ->
     RemoveObject ref markAsFree st = Raise InternalLogic)
  /\ (ObjectNumber ref ∉ m_compressedObjectStreams st ->
      exists st',
        RemoveObject ref markAsFree st = Ok (Some obj, st')
        /\ m_Objects st' = delete ref (m_Objects st)
        /\ (markAsFree = false -> m_FreeObjects st' = m_FreeObjects st)
        /\ (markAsFree = true ->
            GenerationNumber ref + 1 < 65535 ->
            free_list_sorted (m_FreeObjects st')
            /\ (forall r, r ∈ m_FreeObjects st' <->
                  r = mkRef (ObjectNumber ref) (GenerationNumber ref + 1)
                  \/ r ∈ m_FreeObjects st))
        /\ (markAsFree = true ->
            65535 <= GenerationNumber ref + 1 ->
            m_FreeObjects st' = m_FreeObjects st)).
Proof.
  intros Hobj Hgen Hs. unfold RemoveObject, removeObject. rewrite Hobj.
  split; intros Hc; destruct (decide _); try done.
  eexists. split; [reflexivity|]. simpl.
  split.
  { destruct markAsFree; [|done]. unfold SafeAddFreeObject, tryAddFreeObject.
    destruct (Z.leb _ _); simpl; [done|].
    unfold AddFreeObject. destruct (negb _ && negb _); [done|].
    unfold tryIncrementObjectCount; simpl. destruct (Z.ltb _ _); done. }
  split; [intros ->; done|].
  split.
  - intros -> Hlt. unfold SafeAddFreeObject.
    rewrite tryAddFreeObject_below_cap by (unfold MaxXRefGenerationNum; lia).
    simpl. split; [by apply AddFreeObject_sorted|].
    intros r. rewrite AddFreeObject_free_list.
    set (v := mkRef (ObjectNumber ref) (GenerationNumber ref + 1)).
    destruct (Nat.eqb_spec (lower_bound (m_FreeObjects st) v)
                           (upper_bound (m_FreeObjects st) v)) as [Heq|Hne]; simpl.
    + apply elem_of_insert_at.
    + assert (v ∈ m_FreeObjects st) as Hin.
      { clear -Hs Hne. induction Hs as [|a l Hs' IH Hall]; simpl in Hne; [done|].
        destruct (ref_ltb a v) eqn:Hav.
        - rewrite (ref_ltb_asym _ _ Hav) in Hne.
          apply list_elem_of_further, IH. lia.
        - destruct (ref_ltb v a) eqn:Hva; [done|].
          rewrite (ref_ltb_total _ _ Hav Hva). apply list_elem_of_here. }
      destruct (Nat.eqb_spec (length (m_FreeObjects st)) 0) as [Hl|Hl]; simpl.
      * destruct (m_FreeObjects st); [inversion Hin|done].
      * split; [tauto|]. intros [->|?]; done.
  - intros -> Hge. unfold SafeAddFreeObject.
    rewrite tryAddFreeObject_at_cap by (unfold MaxXRefGenerationNum; lia).
    done.
Qed.

Lemma remove_object_frees_or_retires_witness :
  exists st',
    RemoveObject (mkRef 4 2) true store_with_free = Ok (Some capped_object, st')
    /\ m_Objects st' = delete (mkRef 4 2) (m_Objects store_with_free).
Proof.
  destruct (remove_object_frees_or_retires store_with_free (mkRef 4 2)
              capped_object true) as [_ H].
  - vm_compute. reflexivity.
  - simpl. lia.
  - vm_compute. repeat constructor.
  - destruct H as [st' [H1 [H2 _]]].
    + vm_compute. set_solver.
    + exists st'. split; assumption.
Defined.

End GenerationCap.

(** * Properties of the trailer merge *)

Section TrailerFacts.

Import Parser.

Lemma merge_key_lookup (k key : string) (trailer effective : PdfDictionary) :
  merge_key k trailer effective !! key =
    if decide (k = key)
    then match effective !! key with
         | Some v => Some v
         | None => trailer !! key
         end
    else effective !! key.
Proof.
  unfold merge_key. destruct (decide (k = key)) as [->|Hne].
  - destruct (trailer !! key) eqn:Ht.
    + destruct (decide (is_Some (effective !! key))) as [[v Hv]|Hn].
      * by rewrite Hv.
      * rewrite lookup_insert_eq.
        destruct (effective !! key); [exfalso; apply Hn; eauto|done].
    + by destruct (effective !! key).
  - destruct (trailer !! k); [|done].
    destruct (decide _); [done|]. by rewrite lookup_insert_ne.
Qed.

Lemma mergeTrailer_lookup (trailer effective : PdfDictionary) (key : string) :
  mergeTrailer trailer effective !! key =
    if decide (key ∈ merged_keys)
    then match effective !! key with
         | Some v => Some v
         | None => trailer !! key
         end
    else effective !! key.
Proof.
  unfold mergeTrailer. rewrite !merge_key_lookup.
  unfold merged_keys.
  repeat (match goal with
          | |- context [decide (?k = key)] =>
              destruct (decide (k = key)) as [<-|?]
          end; [vm_compute; try reflexivity|]).
  all: try (destruct (effective !! _); reflexivity).
  destruct (decide _) as [Hin|]; [|done].
  repeat (apply elem_of_cons in Hin as [->|Hin]; [done|]).
  inversion Hin.
Qed.

Lemma newest_defining_cons key (t : PdfDictionary) ts :
  newest_defining key (t :: ts) =
    match t !! key with
    | Some v => Some v
    | None => newest_defining key ts
    end.
Proof. unfold newest_defining. simpl. by destruct (t !! key). Qed.

Lemma fold_merge_lookup (older : list PdfDictionary) (first : PdfDictionary)
    (key : string) :
  fold_left (fun effective trailer => mergeTrailer trailer effective) older first
    !! key =
    if decide (key ∈ merged_keys)
    then newest_defining key (first :: older)
    else first !! key.
Proof.
  revert first. induction older as [|t older IH]; intros first; simpl.
  - rewrite newest_defining_cons. unfold newest_defining; simpl.
    destruct (decide _); [by destruct (first !! key)|done].
  - rewrite IH. rewrite !newest_defining_cons, mergeTrailer_lookup.
    destruct (decide _); [|done]. by destruct (first !! key).
Qed.

Lemma adopted_fold_some (older : list PdfDictionary) (effective : PdfDictionary)
    (p : PdfParser) :
  m_Trailer p = Some effective ->
  m_Trailer (fold_left (fun q trailer => adopted trailer q) older p) =
    Some (fold_left (fun effective trailer => mergeTrailer trailer effective)
                    older effective).
Proof.
  revert effective p. induction older as [|t older IH]; intros effective p Hp;
    simpl; [done|].
  apply IH. unfold adopted. rewrite Hp. reflexivity.
Qed.

(** C3. [mergeTrailer] changes the effective trailer on the five keys
    [Size], [Root], [Encrypt], [Info], [ID] only, and on each of them only
    where the effective trailer has no value, which it then takes from
    the trailer merged in.  Hence, for trailers met newest first, each of
    the five keys of the effective trailer has the value given by the
    most recent revision that defines it, and every other key that of
    the newest trailer; and this effective trailer is what a parser that
    had none holds in [m_Trailer] once it has adopted the trailers in
    that order. *)
Theorem merge_trailer_newest_first_wins :
  (forall (trailer effective : PdfDictionary) (key : string),
     mergeTrailer trailer effective !! key =
       if decide (key ∈ merged_keys)
       then match effective !! key with
            | Some v => Some v
            | None => trailer !! key
            end
       else effective !! key)
  /\ (forall (newest : PdfDictionary) (older : list PdfDictionary),
        exists effective,
          effective_trailer (newest :: older) = Some effective
          /\ forall key,
               effective !! key =
                 if decide (key ∈ merged_keys)
                 then newest_defining key (newest :: older)
                 else newest !! key)
  /\ (forall (trailers : list PdfDictionary) (p : PdfParser),
        m_Trailer p = None ->
        m_Trailer (fold_left (fun q trailer => adopted trailer q) trailers p)
          = effective_trailer trailers).
Proof.
  split; [apply mergeTrailer_lookup|]. split.
  - intros newest older. eexists. split; [reflexivity|].
    intros key. apply fold_merge_lookup.
  - intros [|newest older] p Hp; simpl; [done|].
    apply adopted_fold_some. unfold adopted. rewrite Hp. reflexivity.
Qed.

End TrailerFacts.

Example merge_trailer_incremental_update :
  Parser.effective_trailer [update_trailer; base_trailer] =
    Some {[ "Root" := VReference (mkRef 9 0); "Info" := VReference (mkRef 5 0);
            "Prev" := VNumber 178; "Size" := VNumber 4 ]}.
Proof. vm_compute. reflexivity. Qed.

Lemma merge_trailer_newest_first_wins_witness :
  Parser.m_Trailer
    (fold_left (fun q trailer => Parser.adopted trailer q)
               [update_trailer; base_trailer] Parser.new_parser)
  = Parser.effective_trailer [update_trailer; base_trailer].
Proof.
  apply (proj2 (proj2 merge_trailer_newest_first_wins)). reflexivity.
Defined.

(** * Properties of the classical cross-reference reader *)

Section XRefTableFacts.

Import CString Parser.

(** ** Slots already parsed *)

Lemma read_entry_other_slots magicOffset buffer objIndex entries j :
  j <> objIndex ->
  (read_entry magicOffset buffer objIndex entries).1 !! j = entries !! j.
Proof.
  intros Hne. unfold read_entry.
  destruct (entries !! objIndex) as [entry|]; [|done].
  destruct (entry_Parsed entry); [done|].
  destruct (parse_entry _ _ _); simpl; [|done].
  by rewrite list_lookup_insert_ne.
Qed.

Lemma read_entry_parsed_slot magicOffset buffer objIndex entries i entry :
  entries !! i = Some entry -> entry_Parsed entry = true ->
  (read_entry magicOffset buffer objIndex entries).1 !! i = Some entry.
Proof.
  intros Hi Hp. destruct (decide (i = objIndex)) as [->|Hne].
  - unfold read_entry. rewrite Hi, Hp. done.
  - by rewrite read_entry_other_slots.
Qed.

Lemma read_entries_parsed_slot magicOffset records firstObject remaining :
  forall index entries i entry,
    entries !! i = Some entry -> entry_Parsed entry = true ->
    (read_entries magicOffset records firstObject remaining index entries).1 !! i
      = Some entry.
Proof.
  induction remaining as [|remaining IH]; intros index entries i entry Hi Hp;
    simpl; [done|].
  pose proof (read_entry_parsed_slot magicOffset (records index)
                (Z.to_nat (wrap32 (firstObject + Z.of_nat index)))
                entries i entry Hi Hp) as H.
  destruct (read_entry _ _ _ _) as [entries' [[]|e]]; simpl in *; [|done].
  by apply IH.
Qed.

Lemma Enlarge_lookup newSize entries i entry :
  entries !! i = Some entry -> Enlarge newSize entries !! i = Some entry.
Proof. intros H. unfold Enlarge. by apply lookup_app_l_Some. Qed.

Lemma ReadXRefSubsection_parsed_slot magicOffset records firstObject objectCount
    entries i entry :
  entries !! i = Some entry -> entry_Parsed entry = true ->
  (ReadXRefSubsection magicOffset records firstObject objectCount entries).1 !! i
    = Some entry.
Proof.
  intros Hi Hp. unfold ReadXRefSubsection.
  repeat (destruct (_ <? _) || destruct (_ <=? _); [done|]).
  apply read_entries_parsed_slot; [|done]. by apply Enlarge_lookup.
Qed.

(** C4. A record met for a slot whose [Parsed] flag is set changes
    nothing: the table after the record is the table before it, so the
    slot keeps its type, its offset or object number, its generation and
    its flag, and so does every other slot.  Whatever the slot's flag, a
    record changes no slot but its own; and a whole subsection leaves
    every slot that was parsed before it as it was. *)
Theorem parsed_slot_is_not_overwritten (magicOffset : Z) (buffer : list ascii)
    (objIndex : nat) (entries : list PdfXRefEntry) (entry : PdfXRefEntry) :
  entries !! objIndex = Some entry ->
  entry_Parsed entry = true ->
  read_entry magicOffset buffer objIndex entries = (entries, Ok tt)
  /\ (forall buffer' objIndex' j,
        j <> objIndex' ->
        (read_entry magicOffset buffer' objIndex' entries).1 !! j = entries !! j)
  /\ (forall records firstObject objectCount,
        (ReadXRefSubsection magicOffset records firstObject objectCount entries).1
          !! objIndex = Some entry).
Proof.
  intros Hi Hp. split; [|split].
  - unfold read_entry. by rewrite Hi, Hp.
  - intros. by apply read_entry_other_slots.
  - intros. by apply ReadXRefSubsection_parsed_slot.
Qed.

End XRefTableFacts.

Lemma parsed_slot_is_not_overwritten_witness :
  Parser.read_entry 0 (CString.chars "0000000017 00000 n" ++ [CString.CR; CString.LF])
                    1 newest_entries
  = (newest_entries, Ok tt).
Proof.
  apply (parsed_slot_is_not_overwritten 0 _ 1 newest_entries
           (mkEntry 0 500 0 XRefInUse true)); reflexivity.
Defined.

(** ** Records of the canonical form *)

Section XRefRecordFacts.

Import CString Parser.

Lemma isdigit_range c : isdigit c = true -> 0 <= digit_value c <= 9.
Proof. unfold isdigit, digit_value. lia. Qed.

Lemma isdigit_not_NUL c : isdigit c = true -> Ascii.eqb c NUL = false.
Proof.
  intros H. destruct (Ascii.eqb_spec c NUL) as [->|]; [|done].
  vm_compute in H. discriminate.
Qed.

Lemma isdigit_not_space c : isdigit c = true -> isspace c = false.
Proof. unfold isdigit, isspace. lia. Qed.

Lemma isdigit_not_sign c :
  isdigit c = true -> Ascii.eqb c "+" = false /\ Ascii.eqb c "-" = false.
Proof.
  intros H. split.
  - destruct (Ascii.eqb_spec c "+") as [->|]; [vm_compute in H; discriminate|done].
  - destruct (Ascii.eqb_spec c "-") as [->|]; [vm_compute in H; discriminate|done].
Qed.

Lemma c_str_digits ds rest :
  all_digits ds -> c_str (ds ++ rest) = ds ++ c_str rest.
Proof.
  induction 1 as [|c ds Hc Hds IH]; simpl; [done|].
  rewrite (isdigit_not_NUL _ Hc). by rewrite IH.
Qed.

Lemma scan_digits_all ds rest count acc :
  all_digits ds ->
  scan_digits (length ds) (ds ++ rest) count acc =
    ((count + length ds)%nat,
     fold_left (fun acc c => 10 * acc + digit_value c) ds acc, rest).
Proof.
  intros H. revert count acc.
  induction H as [|c ds Hc Hds IH]; intros count acc; simpl.
  - rewrite Nat.add_0_r. by destruct rest.
  - rewrite Hc, IH. do 2 f_equal. lia.
Qed.

Lemma fold_decimal_bound ds acc :
  all_digits ds -> 0 <= acc ->
  0 <= fold_left (fun acc c => 10 * acc + digit_value c) ds acc
    < (acc + 1) * 10 ^ Z.of_nat (length ds).
Proof.
  intros H. revert acc. induction H as [|c ds Hc Hds IH]; intros acc Hacc; simpl.
  - lia.
  - pose proof (isdigit_range _ Hc).
    specialize (IH (10 * acc + digit_value c) ltac:(lia)).
    replace (Z.of_nat (S (length ds))) with (Z.of_nat (length ds) + 1) by lia.
    rewrite Z.pow_add_r by lia. nia.
Qed.

Lemma decimal_bound ds :
  all_digits ds -> 0 <= decimal ds < 10 ^ Z.of_nat (length ds).
Proof.
  intros H. pose proof (fold_decimal_bound ds 0 H ltac:(lia)). unfold decimal. lia.
Qed.

(** A conversion of width [length ds] takes the digits [ds] whole. *)
Lemma scan_unsigned_digits bits ds rest :
  all_digits ds -> ds <> [] -> 10 ^ Z.of_nat (length ds) <= 2 ^ bits ->
  scan_unsigned bits (length ds) (ds ++ rest) = Converted (decimal ds) rest.
Proof.
  intros Hds Hne Hb. unfold scan_unsigned.
  destruct ds as [|c ds]; [done|]. clear Hne.
  pose proof (Forall_inv Hds) as Hc.
  cbn [app skip_space]. rewrite (isdigit_not_space _ Hc).
  destruct (isdigit_not_sign _ Hc) as [-> ->]. cbn [orb].
  change (c :: ds ++ rest) with ((c :: ds) ++ rest).
  rewrite scan_digits_all by done.
  cbn [length Nat.add]. fold (decimal (c :: ds)).
  pose proof (decimal_bound _ Hds). rewrite Z.mod_small by lia. done.
Qed.

Lemma skip_space_digits ds rest :
  all_digits ds -> ds <> [] -> skip_space (ds ++ rest) = ds ++ rest.
Proof.
  intros Hds Hne. destruct ds as [|c ds]; [done|].
  cbn [app skip_space]. by rewrite (isdigit_not_space _ (Forall_inv Hds)).
Qed.

Lemma sscanf_entry_canonical ds gs tail :
  all_digits ds -> length ds = 10%nat ->
  all_digits gs -> length gs = 5%nat ->
  sscanf_entry (ds ++ SP :: gs ++ SP :: tail) =
    scan_tail (decimal ds) (decimal gs) (c_str tail).
Proof.
  intros Hds Hlds Hgs Hlgs. unfold sscanf_entry.
  rewrite c_str_digits by done. cbn [c_str].
  change (Ascii.eqb SP NUL) with false. cbn match.
  rewrite c_str_digits by done. cbn [c_str].
  change (Ascii.eqb SP NUL) with false. cbn match.
  rewrite <- Hlds.
  rewrite scan_unsigned_digits; [| done | by destruct ds | rewrite Hlds; lia].
  cbn [skip_space]. change (isspace SP) with true. cbn match.
  rewrite skip_space_digits; [| done | by destruct gs].
  rewrite <- Hlgs.
  rewrite scan_unsigned_digits; [| done | by destruct gs | rewrite Hlgs; lia].
  cbn [skip_space]. change (isspace SP) with true. cbn match.
  reflexivity.
Qed.

Lemma isspace_not_entry_type c : isspace c = true -> CheckXRefEntryType c = false.
Proof.
  intros H. unfold CheckXRefEntryType.
  destruct (Ascii.eqb_spec c "n") as [->|]; [vm_compute in H; discriminate|].
  destruct (Ascii.eqb_spec c "f") as [->|]; [vm_compute in H; discriminate|done].
Qed.

Lemma CheckEOL_spec e1 e2 :
  CheckEOL e1 e2 = true <->
  (e1 = CR /\ e2 = LF) \/ (e1 = LF /\ e2 = CR)
  \/ (e1 = SP /\ e2 = CR) \/ (e1 = SP /\ e2 = LF).
Proof.
  unfold CheckEOL.
  rewrite !orb_true_iff, !andb_true_iff, orb_true_iff, !Ascii.eqb_eq. tauto.
Qed.

Lemma CheckEOL_not_NUL e1 e2 :
  CheckEOL e1 e2 = true -> Ascii.eqb e1 NUL = false /\ Ascii.eqb e2 NUL = false.
Proof.
  rewrite CheckEOL_spec.
  intros [[-> ->]|[[-> ->]|[[-> ->]|[-> ->]]]]; split; reflexivity.
Qed.

Lemma CheckXRefEntryType_spec c :
  CheckXRefEntryType c = true <-> c = "n"%char \/ c = "f"%char.
Proof.
  unfold CheckXRefEntryType. rewrite orb_true_iff, !Ascii.eqb_eq. tauto.
Qed.

(** What a record of the form [NNNNNNNNNN GGGGG T EE] does to an
    unparsed slot. *)
Lemma parse_entry_canonical magicOffset ds gs T E1 E2 entry :
  all_digits ds -> length ds = 10%nat ->
  all_digits gs -> length gs = 5%nat ->
  0 <= magicOffset -> magicOffset + 9999999999 <= PTRDIFF_MAX ->
  parse_entry magicOffset (ds ++ SP :: gs ++ [SP; T; E1; E2]) entry =
    if CheckXRefEntryType T && CheckEOL E1 E2
    then Ok (if Ascii.eqb T "f"
             then mkEntry (decimal ds) (entry_Offset entry) (decimal gs)
                          XRefFree true
             else mkEntry (entry_ObjectNumber entry) (decimal ds + magicOffset)
                          (decimal gs) XRefInUse true)
    else Raise InvalidXRef.
Proof.
  intros Hds Hlds Hgs Hlgs Hm0 Hm. unfold parse_entry.
  rewrite take_ge by (rewrite length_app; simpl; rewrite length_app; simpl;
                      unfold PDF_XREF_ENTRY_SIZE; lia).
  rewrite sscanf_entry_canonical by done.
  unfold scan_tail. cbn [c_str].
  destruct (Ascii.eqb_spec T NUL) as [->|HT]; [reflexivity|].
  cbn [skip_space].
  destruct (Ascii.eqb_spec E1 NUL) as [->|HE1].
  { destruct (isspace T) eqn:HsT.
    - rewrite (isspace_not_entry_type _ HsT). reflexivity.
    - cbn. destruct (CheckXRefEntryType T); reflexivity. }
  destruct (Ascii.eqb_spec E2 NUL) as [->|HE2].
  { assert (CheckEOL E1 NUL = false) as ->.
    { destruct (CheckEOL E1 NUL) eqn:E; [|done].
      apply CheckEOL_not_NUL in E as [_ E]. discriminate. }
    rewrite andb_false_r.
    destruct (isspace T) eqn:HsT.
    - cbn [skip_space]. destruct (isspace E1); cbn;
        try destruct (CheckXRefEntryType E1); reflexivity.
    - cbn. destruct (CheckXRefEntryType T); reflexivity. }
  destruct (isspace T) eqn:HsT.
  { rewrite (isspace_not_entry_type _ HsT). cbn [skip_space andb].
    destruct (isspace E1).
    - cbn [skip_space]. destruct (isspace E2); cbn;
        try destruct (CheckXRefEntryType E2); reflexivity.
    - cbn. destruct (CheckXRefEntryType E1); reflexivity. }
  cbn -[Z.ltb Z.eqb wrap64 CheckEOL CheckXRefEntryType XRefEntryTypeFromChar].
  destruct (CheckXRefEntryType T) eqn:HcT; [|reflexivity].
  cbn [negb andb]. change (5 =? 5) with true. cbn [negb orb].
  destruct (CheckEOL E1 E2); [|reflexivity]. cbn [negb].
  apply CheckXRefEntryType_spec in HcT as [->| ->].
  - change (XRefEntryTypeFromChar "n") with XRefInUse.
    change (Ascii.eqb "n" "f") with false. cbn match.
    pose proof (decimal_bound _ Hds) as Hb. rewrite Hlds in Hb.
    unfold PTRDIFF_MAX in *. unfold wrap64.
    rewrite Z.mod_small by lia.
    destruct (Z.ltb_spec (2 ^ 63 - 1) (decimal ds + magicOffset)); [lia|done].
  - reflexivity.
Qed.

(** C9 as the code has it.  On a slot in range and not yet parsed, a
    20-byte record [NNNNNNNNNN GGGGG T EE] (ten digits, a space, five
    digits, a space, a type character, two end-of-line characters) is
    accepted exactly when [T] is [n] or [f] and [EE] is one of CR LF,
    LF CR, SP CR, SP LF; every other [T] or [EE] raises [InvalidXRef] and
    leaves the table as it was.  An accepted [n] record makes the slot an
    in-use entry whose offset is the ten-digit number plus the magic
    offset; an accepted [f] record makes it a free entry holding the
    ten-digit number as next free object number; both store the
    five-digit number as generation and set the [Parsed] flag. *)
Theorem classical_entry_record (magicOffset : Z) (ds gs : list ascii)
    (T E1 E2 : ascii) (entries : list PdfXRefEntry) (objIndex : nat)
    (entry : PdfXRefEntry) :
  all_digits ds -> length ds = 10%nat ->
  all_digits gs -> length gs = 5%nat ->
  0 <= magicOffset -> magicOffset + 9999999999 <= PTRDIFF_MAX ->
  entries !! objIndex = Some entry -> entry_Parsed entry = false ->
  let record := ds ++ SP :: gs ++ [SP; T; E1; E2] in
  let accepted :=
    (T = "n"%char \/ T = "f"%char)
    /\ ((E1 = CR /\ E2 = LF) \/ (E1 = LF /\ E2 = CR)
        \/ (E1 = SP /\ E2 = CR) \/ (E1 = SP /\ E2 = LF)) in
  length record = PDF_XREF_ENTRY_SIZE
  /\ (~ accepted ->
      read_entry magicOffset record objIndex entries = (entries, Raise InvalidXRef))
  /\ (accepted ->
      exists slot,
        read_entry magicOffset record objIndex entries
          = (<[ objIndex := slot ]> entries, Ok tt)
        /\ entry_Parsed slot = true
        /\ entry_Generation slot = decimal gs
        /\ (T = "n"%char ->
            entry_Type slot = XRefInUse
            /\ entry_Offset slot = decimal ds + magicOffset)
        /\ (T = "f"%char ->
            entry_Type slot = XRefFree
            /\ entry_ObjectNumber slot = decimal ds)).
Proof.
  intros Hds Hlds Hgs Hlgs Hm0 Hm Hi Hp record accepted.
  assert (read_entry magicOffset record objIndex entries =
          if CheckXRefEntryType T && CheckEOL E1 E2
          then (<[ objIndex :=
                     if Ascii.eqb T "f"
                     then mkEntry (decimal ds) (entry_Offset entry) (decimal gs)
                                  XRefFree true
                     else mkEntry (entry_ObjectNumber entry)
                                  (decimal ds + magicOffset) (decimal gs)
                                  XRefInUse true ]> entries, Ok tt)
          else (entries, Raise InvalidXRef)) as Hrun.
  { unfold read_entry, record. rewrite Hi, Hp.
    rewrite parse_entry_canonical by done.
    destruct (CheckXRefEntryType T && CheckEOL E1 E2); reflexivity. }
  assert (CheckXRefEntryType T && CheckEOL E1 E2 = true <-> accepted) as Hacc.
  { unfold accepted.
    rewrite andb_true_iff, CheckXRefEntryType_spec, CheckEOL_spec. tauto. }
  split; [|split].
  - unfold record. rewrite length_app; simpl. rewrite length_app; simpl.
    unfold PDF_XREF_ENTRY_SIZE. lia.
  - intros Hn. rewrite Hrun.
    destruct (CheckXRefEntryType T && CheckEOL E1 E2); [|done].
    exfalso. by apply Hn, Hacc.
  - intros Ha. rewrite Hrun. apply Hacc in Ha. rewrite Ha.
    eexists. split; [reflexivity|].
    split; [by destruct (Ascii.eqb T "f")|].
    split; [by destruct (Ascii.eqb T "f")|].
    split; intros ->; split; reflexivity.
Qed.

End XRefRecordFacts.

(** C9 fails on the pair LF CR, which is none of CR LF, SP CR, SP LF:
    the record is accepted and yields an in-use entry. *)
Lemma record_ending_lf_cr_is_accepted :
  let record := CString.chars "0000000001 00002 n" ++ [CString.LF; CString.CR] in
  (exists slot,
     Parser.parse_entry 0 record unparsed_entry = Ok slot
     /\ entry_Type slot = XRefInUse
     /\ entry_Offset slot = 1
     /\ entry_Generation slot = 2)
  /\ Parser.parse_entry 0 record unparsed_entry <> Raise InvalidXRef
  /\ (CString.LF, CString.CR) <> (CString.CR, CString.LF)
  /\ (CString.LF, CString.CR) <> (CString.SP, CString.CR)
  /\ (CString.LF, CString.CR) <> (CString.SP, CString.LF).
Proof.
  split; [eexists; repeat split; reflexivity|].
  repeat split; discriminate.
Qed.

Lemma classical_entry_record_witness :
  exists slot,
    Parser.read_entry 0
      (CString.chars "0000000017 00003 f " ++ [CString.LF]) 1
      [unparsed_entry; unparsed_entry]
    = (<[ 1%nat := slot ]> [unparsed_entry; unparsed_entry], Ok tt)
    /\ entry_Parsed slot = true
    /\ entry_Generation slot = 3
    /\ entry_Type slot = XRefFree
    /\ entry_ObjectNumber slot = 17.
Proof.
  destruct (classical_entry_record 0 (CString.chars "0000000017")
              (CString.chars "00003") "f" CString.SP CString.LF
              [unparsed_entry; unparsed_entry] 1 unparsed_entry)
    as (_ & _ & Haccepted).
  - repeat constructor.
  - reflexivity.
  - repeat constructor.
  - reflexivity.
  - lia.
  - unfold Parser.PTRDIFF_MAX. lia.
  - reflexivity.
  - reflexivity.
  - destruct Haccepted as (slot & Hrun & Hparsed & Hgen & _ & Hfree).
    { split; [right; reflexivity|]. do 3 right. split; reflexivity. }
    destruct (Hfree eq_refl) as [Htype Hnum].
    exists slot. repeat split; assumption.
Defined.

(** * Properties of the backward token search *)

Section TokenSearchFacts.

Import CString Parser.

#[local] Arguments Ascii.eqb : simpl never.

Lemma strncmp_eq_token token s :
  no_NUL token ->
  strncmp_eq (length token) s token = true <-> take (length token) s = token.
Proof.
  intros H. revert s. induction H as [|c token Hc Htok IH]; intros s; simpl.
  - done.
  - destruct s as [|d s]; simpl.
    + destruct (Ascii.eqb_spec NUL c) as [<-|Hne];
        [rewrite Ascii.eqb_refl in Hc; discriminate|]. split; done.
    + destruct (Ascii.eqb_spec d c) as [->|Hne].
      * rewrite Hc, IH. split; [intros ->; done|]. intros [= ?]; done.
      * split; [done|]. intros [= ? ?]; done.
Qed.

Lemma search_backward_spec buffer token i :
  no_NUL token ->
  let r := search_backward buffer token i in
  (r = -1 /\ forall j, (j <= i)%nat -> ~ token_at buffer token j)
  \/ (0 <= r <= Z.of_nat i
      /\ token_at buffer token (Z.to_nat r)
      /\ forall j, (Z.to_nat r < j <= i)%nat -> ~ token_at buffer token j).
Proof.
  intros Htok. induction i as [|i IH]; simpl.
  - destruct (strncmp_eq _ _ _) eqn:E.
    + right. apply strncmp_eq_token in E; [|done].
      split; [lia|]. split; [exact E|]. intros j Hj. lia.
    + left. split; [done|]. intros j Hj. assert (j = 0%nat) as -> by lia.
      unfold token_at. rewrite <- strncmp_eq_token by done. simpl. by rewrite E.
  - destruct (strncmp_eq _ _ _) eqn:E.
    + right. apply strncmp_eq_token in E; [|done].
      split; [lia|]. rewrite Nat2Z.id. split; [exact E|]. intros j Hj. lia.
    + assert (~ token_at buffer token (S i)) as Hn.
      { unfold token_at. rewrite <- strncmp_eq_token by done. by rewrite E. }
      destruct IH as [[Hr Hall]|[Hr [Hat Hall]]].
      * left. split; [done|]. intros j Hj.
        destruct (decide (j = S i)) as [->|]; [done|]. apply Hall. lia.
      * right. split; [lia|]. split; [done|]. intros j Hj.
        destruct (decide (j = S i)) as [->|]; [done|]. apply Hall. lia.
Qed.

Lemma to_ssize_wrap64 x :
  - 2 ^ 63 <= x < 2 ^ 63 -> to_ssize (wrap64 x) = x.
Proof.
  intros H. unfold to_ssize, wrap64. rewrite Z.mod_mod by lia.
  destruct (Z_lt_le_dec x 0).
  - replace (x mod 2 ^ 64) with (x + 2 ^ 64).
    + destruct (Z.ltb_spec (x + 2 ^ 64) (2 ^ 63)); lia.
    + apply Z.mod_unique with (q := -1); lia.
  - rewrite Z.mod_small by lia. destruct (Z.ltb_spec x (2 ^ 63)); lia.
Qed.

Lemma to_ssize_small x : 0 <= x < 2 ^ 63 -> to_ssize x = x.
Proof.
  intros H. rewrite <- (to_ssize_wrap64 x) at 2 by lia.
  unfold to_ssize, wrap64. by rewrite Z.mod_mod by lia.
Qed.

Lemma token_position_eq searchEnd searchSize i :
  - 2 ^ 63 <= searchEnd - searchSize + i < 2 ^ 63 ->
  token_position searchEnd searchSize i = searchEnd - searchSize + i.
Proof.
  intros H. unfold token_position.
  rewrite <- (to_ssize_wrap64 (searchEnd - searchSize + i)) by done.
  f_equal. unfold wrap64.
  rewrite Zminus_mod_idemp_r.
  replace (searchEnd - (searchSize - i mod 2 ^ 64))
    with (searchEnd - searchSize + i mod 2 ^ 64) by lia.
  by rewrite Zplus_mod_idemp_r.
Qed.

Lemma search_window_length device range searchEnd :
  0 <= searchEnd <= Z.of_nat (length (dev_data device)) -> 0 <= range ->
  Z.of_nat (length (search_window device range searchEnd))
    = Z.min searchEnd range.
Proof.
  intros H1 H2. unfold search_window. rewrite length_take, length_drop. lia.
Qed.

Lemma findTokenBackward_unfold device token range searchEnd :
  0 <= searchEnd <= Z.of_nat (length (dev_data device)) ->
  Z.of_nat (length (dev_data device)) < 2 ^ 63 ->
  0 <= range < 2 ^ 63 ->
  let searchSize := Z.min searchEnd range in
  let i := token_index (search_window device range searchEnd) token searchSize in
  let target := token_position searchEnd searchSize i in
  findTokenBackward token range searchEnd device =
    if Z.eqb i 0
    then Within (mkDevice (dev_data device) searchEnd, Raise InternalLogic)
    else if Z.ltb target 0 then Outside target
    else Within (mkDevice (dev_data device) target, Ok tt).
Proof.
  intros H1 H2 H3 searchSize i target.
  pose proof (search_window_length device range searchEnd H1 ltac:(lia)) as Hlen.
  unfold findTokenBackward, seek_within, Seek, GetPosition, Read.
  cbn [dev_pos dev_data].
  rewrite (to_ssize_small searchEnd) by lia.
  destruct (Z.ltb_spec searchEnd 0) as [|_]; [lia|]. cbn [dev_pos dev_data].
  fold searchSize. rewrite (to_ssize_small searchSize) by (unfold searchSize; lia).
  replace (searchEnd + - searchSize) with (searchEnd - searchSize) by lia.
  destruct (Z.ltb_spec (searchEnd - searchSize) 0) as [|_];
    [unfold searchSize in *; lia|]. cbn [dev_pos dev_data].
  change (take (Z.to_nat searchSize)
            (drop (Z.to_nat (searchEnd - searchSize)) (dev_data device)))
    with (search_window device range searchEnd).
  rewrite Hlen. fold searchSize. fold i. fold target.
  replace (searchEnd - searchSize + searchSize) with searchEnd by lia.
  destruct (Z.eqb i 0); [reflexivity|].
  destruct (Z.ltb target 0); reflexivity.
Qed.

(** C10 as the code has it.  When the window read is at least as long as
    the token, the loop ends either at the highest index where the token
    stands in the window, or at [-1] when it stands nowhere; when the
    window is shorter than the token, the loop is not entered and the
    index is the (negative) difference of the two lengths.  At index 0
    the search throws [InternalLogic].  At any other index the search
    itself throws nothing and asks the device for the start of the window
    plus the index: from index 1 on that is where the token stands, and
    the device is left there; for a negative index it is before the
    window, and the device is left there only when that is still a
    position of the device; when it is not (as for index [-1] in a window
    that starts at offset 0), the search ends asking for a position
    before the first byte. *)
Theorem backward_search_outcome (device : InputStreamDevice)
    (token : list ascii) (range searchEnd : Z) :
  0 <= searchEnd <= Z.of_nat (length (dev_data device)) ->
  Z.of_nat (length (dev_data device)) < 2 ^ 63 ->
  0 <= range < 2 ^ 63 ->
  no_NUL token ->
  Z.of_nat (length token) < 2 ^ 63 ->
  let tokenLen := Z.of_nat (length token) in
  let searchSize := Z.min searchEnd range in
  let windowStart := searchEnd - searchSize in
  let window := search_window device range searchEnd in
  let last := Z.to_nat (searchSize - tokenLen) in
  let i := token_index window token searchSize in
  (tokenLen <= searchSize ->
     (i = -1 /\ forall j, (j <= last)%nat -> ~ token_at window token j)
     \/ (0 <= i <= Z.of_nat last
         /\ token_at window token (Z.to_nat i)
         /\ forall j, (Z.to_nat i < j <= last)%nat -> ~ token_at window token j))
  /\ (searchSize < tokenLen -> i = searchSize - tokenLen)
  /\ (i = 0 ->
      findTokenBackward token range searchEnd device
      = Within (mkDevice (dev_data device) searchEnd, Raise InternalLogic))
  /\ (1 <= i ->
      findTokenBackward token range searchEnd device
      = Within (mkDevice (dev_data device) (windowStart + i), Ok tt))
  /\ (i < 0 ->
      findTokenBackward token range searchEnd device
      = if Z.ltb (windowStart + i) 0
        then Outside (windowStart + i)
        else Within (mkDevice (dev_data device) (windowStart + i), Ok tt)).
Proof.
  intros H1 H2 H3 Htok Hlen tokenLen searchSize windowStart window last i.
  assert (to_ssize (wrap64 (searchSize - tokenLen)) = searchSize - tokenLen)
    as Hi0 by (apply to_ssize_wrap64; unfold searchSize, tokenLen; lia).
  assert (tokenLen <= searchSize -> i = search_backward window token last) as Hlong.
  { intros Hle. unfold i, token_index. fold tokenLen. rewrite Hi0.
    destruct (Z.ltb_spec (searchSize - tokenLen) 0); [lia|done]. }
  assert (searchSize < tokenLen -> i = searchSize - tokenLen) as Hshort.
  { intros Hlt. unfold i, token_index. fold tokenLen. rewrite Hi0.
    destruct (Z.ltb_spec (searchSize - tokenLen) 0); [done|lia]. }
  pose proof (search_backward_spec window token last Htok) as Hspec.
  cbv zeta in Hspec.
  assert (- tokenLen - 1 <= i <= searchSize) as Hi.
  { destruct (Z_lt_le_dec searchSize tokenLen) as [Hlt|Hle].
    - rewrite (Hshort Hlt). unfold searchSize. lia.
    - rewrite <- (Hlong Hle) in Hspec.
      destruct Hspec as [[-> _]|[? _]]; unfold last, tokenLen in *; lia. }
  assert (token_position searchEnd searchSize i = windowStart + i) as Hpos.
  { apply token_position_eq. unfold windowStart, searchSize, tokenLen in *. lia. }
  pose proof (findTokenBackward_unfold device token range searchEnd H1 H2 H3)
    as Hrun.
  cbv zeta in Hrun. fold searchSize window i in Hrun. rewrite Hpos in Hrun.
  split; [|split; [exact Hshort|]].
  - intros Hle. rewrite <- (Hlong Hle) in Hspec. exact Hspec.
  - split; [|split].
    + intros Hz. rewrite Hrun, Hz. reflexivity.
    + intros Hfound. rewrite Hrun.
      destruct (Z.eqb_spec i 0); [lia|].
      destruct (Z.ltb_spec (windowStart + i) 0); [|reflexivity].
      unfold windowStart, searchSize in *. lia.
    + intros Hneg. rewrite Hrun.
      destruct (Z.eqb_spec i 0); [lia|reflexivity].
Qed.

End TokenSearchFacts.

(** C10 fails when the window is shorter than the token.  The search
    for [startxref] that ends at offset 0, where strict parsing starts
    it, reads an empty window: the loop is not entered, the index is
    [-9] and not [-1], and the position the device is asked for is [-9],
    not the one a byte before the window.  With a range of 4 and the
    search ending at offset 20 every position asked for is in the file:
    the window starts at offset 16, the index is [-5], nothing is thrown,
    and the device is sent to offset 11, five bytes before the window. *)
Lemma search_in_short_window_skips_loop :
  let device := Parser.mkDevice (CString.chars "1 0 obj startxref 9 %%EOF") 25 in
  Parser.token_index (search_window device 512 0) (CString.chars "startxref") 0
    = -9
  /\ Parser.findTokenBackward (CString.chars "startxref") 512 0 device
     = Parser.Outside (-9)
  /\ -9 <> 0 - Z.min 0 512 - 1
  /\ Parser.token_index (search_window device 4 20) (CString.chars "startxref") 4
     = -5
  /\ Parser.findTokenBackward (CString.chars "startxref") 4 20 device
     = Parser.Within
         (Parser.mkDevice (CString.chars "1 0 obj startxref 9 %%EOF") 11, Ok tt)
  /\ 11 <> 20 - Z.min 20 4 - 1.
Proof. repeat split; (vm_compute; congruence). Qed.

Lemma backward_search_outcome_witness :
  let device := Parser.mkDevice (CString.chars "1 0 obj startxref 9 %%EOF") 25 in
  Parser.findTokenBackward (CString.chars "startxref") 512 20 device
  = Parser.Within
      (Parser.mkDevice (CString.chars "1 0 obj startxref 9 %%EOF") 8, Ok tt).
Proof.
  intros device.
  refine (proj1 (proj2 (proj2 (proj2 (backward_search_outcome device
                          (CString.chars "startxref") 512 20 _ _ _ _ _)))) _).
  - vm_compute. split; congruence.
  - vm_compute. reflexivity.
  - lia.
  - repeat constructor.
  - vm_compute. reflexivity.
  - vm_compute. congruence.
Defined.

(** * Properties of the cross-reference walk *)

Section WalkFacts.

Import Parser.

Lemma grows_refl p : grows p p.
Proof. split; (done || lia). Qed.

Lemma grows_trans p q r : grows p q -> grows q r -> grows p r.
Proof.
  intros [] []. split; try congruence; [set_solver|lia].
Qed.

Lemma growing_ret {A} (a : A) : growing (ret a).
Proof. intros p. apply grows_refl. Qed.

Lemma growing_raise {A} e : growing (@raise A e).
Proof. intros p. apply grows_refl. Qed.

Lemma growing_bind {A B} (m : M A) (k : A -> M B) :
  growing m -> (forall a, growing (k a)) -> growing (bind m k).
Proof.
  intros Hm Hk p. unfold bind. specialize (Hm p).
  destruct (m p) as [p' [a|e]]; simpl in *; [|done].
  eapply grows_trans; [exact Hm|apply Hk].
Qed.

Lemma growing_adopt_trailer trailer : growing (adopt_trailer trailer).
Proof.
  intros p. unfold adopt_trailer, modify, adopted; simpl.
  destruct (m_Trailer p); split; simpl; (done || lia).
Qed.

Lemma growing_increment_updates : growing increment_updates.
Proof. intros p. split; simpl; (done || lia). Qed.

Lemma growing_set_entries {A} (f : PdfParser -> list PdfXRefEntry * Result A) :
  growing (fun p => let (entries, r) := f p in (set_entries entries p, r)).
Proof. intros p. destruct (f p). split; simpl; (done || lia). Qed.

Lemma growing_read_subsections steps : forall n, growing (read_subsections steps n).
Proof.
  induction steps as [|step steps IH]; intros n p; simpl.
  - destruct (Nat.eqb _ _); apply grows_refl.
  - destruct (Nat.eqb _ _); [apply grows_refl|].
    destruct step as [| |e|firstObject objectCount records];
      try apply grows_refl.
    + destruct (ends_subsections e); apply grows_refl.
    + destruct (ReadXRefSubsection _ _ _ _ _) as [entries [[]|e]].
      * eapply grows_trans; [|apply IH]. split; simpl; (done || lia).
      * destruct (ends_subsections e); split; simpl; (done || lia).
Qed.

Lemma ReadXRefContents_S depth file offset skip p :
  ReadXRefContents (S depth) file offset skip p =
    if decide (offset ∈ m_visitedXRefOffsets p)
    then (p, Raise InvalidXRef)
    else read_section depth file offset skip (mark_visited offset p).
Proof. cbn [ReadXRefContents]. destruct (decide _); reflexivity. Qed.

Lemma readNextTrailer_S depth file trailer skip :
  readNextTrailer (S depth) file (TrailerObject trailer) skip =
    (adopt_trailer trailer >> read_hybrid depth file trailer skip >>
     follow_prev depth file trailer skip).
Proof. reflexivity. Qed.

Lemma growing_read_section depth file offset skip :
  (forall view skip, growing (readNextTrailer depth file view skip)) ->
  (forall offset skip, growing (ReadXRefStreamContents depth file offset skip)) ->
  growing (read_section depth file offset skip).
Proof.
  intros IHt IHs. unfold read_section. apply growing_bind.
  - destruct (Z.ltb _ _); [|apply growing_ret].
    intros q. destruct (file_recovered_xref _ _); [|apply grows_refl].
    split; simpl; (done || lia).
  - intros located. destruct (file_section_at file located).
    + apply growing_raise.
    + apply growing_bind; [apply growing_read_subsections|intros; apply IHt].
    + apply growing_bind; [apply IHs|].
      intros _ q. split; simpl; (done || lia).
Qed.

Lemma growing_walk depth file :
  (forall offset skip, growing (ReadXRefContents depth file offset skip))
  /\ (forall view skip, growing (readNextTrailer depth file view skip))
  /\ (forall offset skip, growing (ReadXRefStreamContents depth file offset skip)).
Proof.
  induction depth as [|depth (IHc & IHt & IHs)].
  { repeat split; intros; apply growing_raise. }
  split; [|split].
  - intros offset skip p. rewrite ReadXRefContents_S.
    destruct (decide _); [apply grows_refl|].
    eapply grows_trans; [|by apply growing_read_section].
    split; simpl; (done || lia || set_solver).
  - intros [|trailer] skip; [apply growing_raise|]. rewrite readNextTrailer_S.
    apply growing_bind; [apply growing_adopt_trailer|intros _].
    apply growing_bind.
    + unfold read_hybrid.
      destruct (trailer !! "XRefStm") as [[]|]; try apply growing_ret. apply IHs.
    + intros _. unfold follow_prev.
      destruct (trailer !! "Prev") as [[]|]; try apply growing_ret.
      destruct (Z.ltb _ _); [|apply growing_ret].
      apply growing_bind; [apply growing_increment_updates|intros _].
      destruct skip; [apply growing_ret|].
      intros q. destruct (decide _); [apply grows_refl|apply IHc].
  - intros offset skip. cbn [ReadXRefStreamContents].
    destruct (file_xref_stream_at file offset) as [e|dict table previous];
      [apply growing_raise|].
    apply growing_bind; [apply growing_adopt_trailer|intros _].
    apply growing_bind.
    + intros q. destruct (table (m_entries q)). split; simpl; (done || lia).
    + intros _. destruct previous as [previousOffset|]; [|apply growing_ret].
      destruct (Z.eqb _ _); [apply growing_ret|].
      apply growing_bind; [apply growing_increment_updates|intros _].
      destruct skip; [apply growing_ret|apply IHc].
Qed.

(** An offset handed to [ReadXRefContents] is visited when the call is
    over, however it ends. *)
Lemma ReadXRefContents_marks depth file offset skip p :
  offset ∈ m_visitedXRefOffsets (ReadXRefContents (S depth) file offset skip p).1.
Proof.
  rewrite ReadXRefContents_S. destruct (decide _) as [Hin|Hout]; [done|].
  destruct (growing_walk depth file) as (_ & IHt & IHs).
  pose proof (growing_read_section depth file offset skip IHt IHs
                (mark_visited offset p)) as [Hv _ _ _ _].
  apply Hv. simpl. set_solver.
Qed.

(** The subsection loop touches the entry table only, and the errors it
    lets through are not [InvalidXRef]. *)
Lemma read_subsections_frame steps : forall n p,
  exists entries,
    (read_subsections steps n p).1 = set_entries entries p
    /\ (read_subsections steps n p).2 <> Raise InvalidXRef.
Proof.
  assert (forall p, p = set_entries (m_entries p) p) as Hid by (by intros []).
  induction steps as [|step steps IH]; intros n p; simpl.
  - exists (m_entries p). destruct (Nat.eqb _ _); simpl; split; (done || apply Hid).
  - destruct (Nat.eqb _ _); [exists (m_entries p); split; (done || apply Hid)|].
    destruct step as [| |e|firstObject objectCount records].
    + exists (m_entries p). split; (done || apply Hid).
    + exists (m_entries p). split; (done || apply Hid).
    + exists (m_entries p).
      destruct e; simpl; split; (done || apply Hid).
    + destruct (ReadXRefSubsection _ _ _ _ _) as [entries [[]|e]].
      * destruct (IH (S n) (set_entries entries p)) as [entries' [H1 H2]].
        exists entries'. by rewrite H1.
      * exists entries. destruct e; simpl; split; done.
Qed.


(** C8 as the code has it.  For a classical trailer, once it is adopted
    and its [XRefStm], if any, has been read without error, leaving the
    parser as [p1]: a [Prev] that is absent, not a number, or not
    positive changes nothing more; a positive [Prev] increments the
    update counter, whether or not its offset has been visited; and the
    contents at that offset are then read exactly when no-follow mode is
    off and the offset has not been visited, which leaves the offset
    visited and the counter at least one above its value in [p1].  For
    the dictionary of a cross-reference stream, once it is adopted and
    the stream's table has been read without error, leaving the parser
    as [p1]: the counter is incremented exactly when a previous offset
    is given and differs from the stream's own, and the contents at that
    offset are then read exactly when no-follow mode is off. *)
Theorem prev_counts_update_then_is_followed (depth : nat) (file : PdfFile)
    (skip : bool) (p p1 : PdfParser) :
  (forall trailer : PdfDictionary,
     (adopt_trailer trailer >> read_hybrid depth file trailer skip) p
       = (p1, Ok tt) ->
     let result := readNextTrailer (S depth) file (TrailerObject trailer) skip p in
     match trailer !! "Prev" with
     | Some (VNumber offset) =>
         if Z.ltb 0 offset
         then
           m_IncrementalUpdateCount p1 + 1 <= m_IncrementalUpdateCount result.1
           /\ if skip || bool_decide (wrap64 offset ∈ m_visitedXRefOffsets p1)
              then result = (counted p1, Ok tt)
              else result = ReadXRefContents depth file (wrap64 offset) false
                                             (counted p1)
                   /\ (depth <> O ->
                       wrap64 offset ∈ m_visitedXRefOffsets result.1)
         else result = (p1, Ok tt)
     | _ => result = (p1, Ok tt)
     end)
  /\ (forall offset dict ReadXRefTable previous entries,
       file_xref_stream_at file offset
         = XRefStreamObject dict ReadXRefTable previous ->
       ReadXRefTable (m_entries (adopted dict p)) = (entries, Ok tt) ->
       p1 = set_entries entries (adopted dict p) ->
       let result := ReadXRefStreamContents (S depth) file offset skip p in
       match previous with
       | Some previousOffset =>
           if Z.eqb previousOffset offset
           then result = (p1, Ok tt)
           else
             m_IncrementalUpdateCount p1 + 1 <= m_IncrementalUpdateCount result.1
             /\ if skip
                then result = (counted p1, Ok tt)
                else result = ReadXRefContents depth file previousOffset false
                                               (counted p1)
       | None => result = (p1, Ok tt)
       end).
Proof.
  destruct (growing_walk depth file) as (IHc & _ & _).
  split.
  - intros trailer Hp1 result.
    assert (result = follow_prev depth file trailer skip p1) as Hres.
    { unfold result. rewrite readNextTrailer_S.
      unfold bind in Hp1 |- *.
      destruct (adopt_trailer trailer p) as [q [[]|e]]; [|done].
      destruct (read_hybrid depth file trailer skip q) as [q' [[]|e]]; [|done].
      by injection Hp1 as ->. }
    rewrite Hres. unfold follow_prev.
    destruct (trailer !! "Prev") as [[| |offset| | | | |]|]; try reflexivity.
    destruct (Z.ltb 0 offset); [|reflexivity].
    unfold bind, increment_updates, modify, ret.
    destruct skip; simpl.
    { split; [simpl; lia|done]. }
    cbn [m_visitedXRefOffsets counted set_IncrementalUpdateCount].
    destruct (decide (wrap64 offset ∈ m_visitedXRefOffsets p1)) as [Hin|Hout].
    + rewrite bool_decide_eq_true_2 by done. split; [simpl; lia|done].
    + rewrite bool_decide_eq_false_2 by done.
      pose proof (IHc (wrap64 offset) false (counted p1)) as [_ Hc _ _ _].
      simpl in Hc. split; [exact Hc|]. split; [done|].
      intros Hd. destruct depth as [|depth']; [done|].
      apply ReadXRefContents_marks.
  - intros offset dict ReadXRefTable previous entries Hview Htable -> result.
    unfold result. cbn [ReadXRefStreamContents]. rewrite Hview.
    unfold bind, adopt_trailer, modify. rewrite Htable.
    destruct previous as [previousOffset|]; [|reflexivity].
    destruct (Z.eqb previousOffset offset); [reflexivity|].
    unfold increment_updates, modify, ret.
    destruct skip; [split; [simpl; lia|done]|].
    pose proof (IHc previousOffset false
                  (counted (set_entries entries (adopted dict p))))
      as [_ Hc _ _ _].
    simpl in Hc. split; [exact Hc|done].
Qed.

End WalkFacts.

(** ** The walk on sample files *)

Section WalkSamples.

Import CString Parser.


(** C8 fails on a [Prev] whose offset is already visited: the counter
    goes from 0 to 1 all the same, and nothing is read. *)
Lemma visited_prev_is_counted :
  let p := mark_visited 100 new_parser in
  let result :=
    readNextTrailer 10 self_prev_file (TrailerObject self_prev_trailer) false p in
  100 ∈ m_visitedXRefOffsets p
  /\ m_IncrementalUpdateCount p = 0
  /\ result.2 = Ok tt
  /\ m_IncrementalUpdateCount result.1 = 1
  /\ m_visitedXRefOffsets result.1 = m_visitedXRefOffsets p.
Proof.
  repeat split; (vm_compute; congruence).
Qed.


Lemma prev_counts_update_then_is_followed_witness :
  m_IncrementalUpdateCount (adopted self_prev_trailer new_parser) + 1
  <= m_IncrementalUpdateCount
       (readNextTrailer 10 self_prev_file (TrailerObject self_prev_trailer)
                        true new_parser).1.
Proof.
  refine (proj1 (proj1 (prev_counts_update_then_is_followed 9 self_prev_file
                          true new_parser
                          (adopted self_prev_trailer new_parser))
                       self_prev_trailer _)).
  reflexivity.
Defined.

End WalkSamples.

(** * Parsing twice *)

Section ParseFacts.

Import Parser.

(** [ReadObjects] leaves the visited offsets and the strictness alone. *)
Lemma ReadObjects_frame file p :
  m_visitedXRefOffsets (ReadObjects file p).1 = m_visitedXRefOffsets p
  /\ m_StrictParsing (ReadObjects file p).1 = m_StrictParsing p.
Proof.
  unfold ReadObjects, bind, modify, ret, raise.
  repeat (case_match; simplify_eq; simpl; try done).
Qed.

Lemma Parse_unfold depth file loadOnDemand p :
  Parse depth file loadOnDemand p =
    match parse_body depth file (set_LoadOnDemand loadOnDemand (reset p)) with
    | (p1, Ok _) => (p1, Ok tt)
    | (p1, Raise e) =>
        if decide (e = InvalidPassword) then (p1, Raise e)
        else (reset p1, Raise e)
    end.
Proof. reflexivity. Qed.

(** What the [catch] of [Parse] does with an error of the [try] block:
    [InvalidPassword] goes on with the parser as the block left it, any
    other error with the parser reset. *)
Lemma Parse_catch depth file loadOnDemand p p1 e :
  parse_body depth file (set_LoadOnDemand loadOnDemand (reset p)) = (p1, Raise e) ->
  Parse depth file loadOnDemand p =
    (if decide (e = InvalidPassword) then p1 else reset p1, Raise e).
Proof.
  intros H. rewrite Parse_unfold, H. destruct (decide _); reflexivity.
Qed.

(** [reset] empties the trailer, the table and the counter, and keeps the
    offsets visited. *)
Lemma reset_members p :
  m_Trailer (reset p) = None
  /\ m_entries (reset p) = []
  /\ m_IncrementalUpdateCount (reset p) = 0
  /\ m_Encrypt (reset p) = None
  /\ m_visitedXRefOffsets (reset p) = m_visitedXRefOffsets p.
Proof. repeat split. Qed.

Lemma parse_body_start depth file p0 magicOffset version eof number :
  file_magic file = Some (magicOffset, version) ->
  version <> VersionUnknown ->
  file_eof_marker file (m_StrictParsing p0) = Ok eof ->
  file_startxref file (m_StrictParsing p0) = Ok number ->
  exists px,
    m_visitedXRefOffsets px = m_visitedXRefOffsets p0
    /\ m_StrictParsing px = m_StrictParsing p0
    /\ parse_body depth file p0 =
         (ReadXRefContents depth file (start_offset number magicOffset) false
          >> ReadObjects file) px.
Proof.
  intros Hmagic Hver Heof Hstart.
  unfold parse_body, IsPdfFile, ReadDocumentStructure, checkEOFMarker, findXRef.
  rewrite Hmagic. unfold bind, modify, ret. simpl.
  destruct version; try done; simpl; rewrite Heof; simpl; rewrite Hstart; simpl;
    (eexists; split; [|split; [|reflexivity]]; reflexivity).
Qed.

Lemma parse_leaves_start_visited depth file loadOnDemand p magicOffset version
    eof number :
  file_magic file = Some (magicOffset, version) ->
  version <> VersionUnknown ->
  file_eof_marker file (m_StrictParsing p) = Ok eof ->
  file_startxref file (m_StrictParsing p) = Ok number ->
  let p1 := (Parse (S depth) file loadOnDemand p).1 in
  start_offset number magicOffset ∈ m_visitedXRefOffsets p1
  /\ m_StrictParsing p1 = m_StrictParsing p.
Proof.
  intros Hmagic Hver Heof Hstart p1. unfold p1. rewrite Parse_unfold.
  destruct (parse_body_start (S depth) file
              (set_LoadOnDemand loadOnDemand (reset p))
              magicOffset version eof number Hmagic Hver Heof Hstart)
    as (px & Hv & Hs & ->).
  unfold bind.
  pose proof (ReadXRefContents_marks depth file
                (start_offset number magicOffset) false px) as Hin.
  destruct (growing_walk (S depth) file) as (IHc & _ & _).
  pose proof (IHc (start_offset number magicOffset) false px) as [_ _ Hst _ _].
  destruct (ReadXRefContents (S depth) file _ false px) as [q [[]|e]];
    simpl in Hin, Hst.
  - destruct (ReadObjects_frame file q) as [Hv' Hs'].
    destruct (ReadObjects file q) as [q' [[]|e]]; simpl in *.
    + rewrite Hv', Hs', Hst, Hs. done.
    + destruct (decide _); simpl; rewrite ?Hv', ?Hs', ?Hst, ?Hs; done.
  - destruct (decide _); simpl; rewrite ?Hst, ?Hs; done.
Qed.

(** Whatever the first parse has met, a second parse by the same parser
    finds the offset it starts from among the visited ones and throws
    [InvalidXRef]. *)
Lemma second_parse_raises_cycle depth depth' file loadOnDemand loadOnDemand'
    password p magicOffset version eof number :
  file_magic file = Some (magicOffset, version) ->
  version <> VersionUnknown ->
  file_eof_marker file (m_StrictParsing p) = Ok eof ->
  file_startxref file (m_StrictParsing p) = Ok number ->
  (Parse (S depth') file loadOnDemand'
         (SetPassword password (Parse (S depth) file loadOnDemand p).1)).2
    = Raise InvalidXRef.
Proof.
  intros Hmagic Hver Heof Hstart.
  destruct (parse_leaves_start_visited depth file loadOnDemand p magicOffset
              version eof number Hmagic Hver Heof Hstart) as [Hin Hs].
  set (p1 := (Parse (S depth) file loadOnDemand p).1) in *.
  rewrite Parse_unfold.
  destruct (parse_body_start (S depth') file
              (set_LoadOnDemand loadOnDemand' (reset (SetPassword password p1)))
              magicOffset version eof number Hmagic Hver)
    as (px & Hv & _ & ->).
  { simpl. by rewrite Hs. }
  { simpl. by rewrite Hs. }
  unfold bind. rewrite ReadXRefContents_S.
  destruct (decide _) as [_|Hout]; [simpl; done|].
  exfalso. apply Hout. rewrite Hv. exact Hin.
Qed.

End ParseFacts.

(** C7, evaluated where it fails.  A parser given a wrong password for
    an encrypted file throws [InvalidPassword] and keeps what it has
    read: the trailer, the table, the visited offset.  Given the right
    password and asked to parse the same file again, it throws
    [InvalidXRef], for the offset it starts from is still marked as
    visited; a new parser with the right password parses the file. *)
Theorem parse_again_after_invalid_password :
  let first := Parser.Parse 500 encrypted_file false
                 (Parser.SetPassword "guess" Parser.new_parser) in
  first.2 = Raise InvalidPassword
  /\ Parser.m_Trailer first.1 = Some encrypted_trailer
  /\ length (Parser.m_entries first.1) = 4%nat
  /\ Parser.m_visitedXRefOffsets first.1 = {[ 100 ]}
  /\ (Parser.Parse 500 encrypted_file false
        (Parser.SetPassword "owner" first.1)).2 = Raise InvalidXRef
  /\ (Parser.Parse 500 encrypted_file false
        (Parser.SetPassword "owner" Parser.new_parser)).2 = Ok tt.
Proof. repeat split; (vm_compute; congruence). Qed.

(** * Further properties of the indirect-object store *)

Section FreeListFacts.

Import IndirectObjectList.

Lemma bounds_member l v : lower_bound l v <> upper_bound l v -> v ∈ l.
Proof.
  induction l as [|e l IH]; simpl; [done|].
  destruct (ref_ltb e v) eqn:Hev.
  - rewrite (ref_ltb_asym _ _ Hev). intros H.
    apply list_elem_of_further, IH. congruence.
  - destruct (ref_ltb v e) eqn:Hve; [done|]. intros _.
    rewrite (ref_ltb_total e v Hev Hve). apply list_elem_of_here.
Qed.

Lemma AddFreeObject_elem ref st x :
  x ∈ m_FreeObjects (AddFreeObject ref st) <-> x = ref \/ x ∈ m_FreeObjects st.
Proof.
  rewrite AddFreeObject_free_list.
  destruct (negb (lower_bound (m_FreeObjects st) ref
                  =? upper_bound (m_FreeObjects st) ref)%nat) eqn:Hb; simpl.
  - assert (Hin : ref ∈ m_FreeObjects st).
    { apply bounds_member. apply negb_true_iff, Nat.eqb_neq in Hb. exact Hb. }
    destruct (negb (length (m_FreeObjects st) =? 0)%nat) eqn:Hl.
    + split; [auto|]. intros [->|H]; done.
    + apply negb_false_iff, Nat.eqb_eq in Hl.
      destruct (m_FreeObjects st); [|discriminate].
      apply not_elem_of_nil in Hin as [].
  - apply elem_of_insert_at.
Qed.

Lemma AddFreeObject_frame ref st :
  m_Objects (AddFreeObject ref st) = m_Objects st
  /\ m_unavailableObjects (AddFreeObject ref st) = m_unavailableObjects st
  /\ m_compressedObjectStreams (AddFreeObject ref st)
     = m_compressedObjectStreams st.
Proof.
  unfold AddFreeObject, tryIncrementObjectCount.
  repeat case_match; simpl; done.
Qed.

Lemma tryAddFreeObject_frame objnum gennum st :
  m_Objects (tryAddFreeObject objnum gennum st).2 = m_Objects st
  /\ m_compressedObjectStreams (tryAddFreeObject objnum gennum st).2
     = m_compressedObjectStreams st.
Proof.
  unfold tryAddFreeObject. case_match; simpl; [done|].
  destruct (AddFreeObject_frame (mkRef objnum (wrap16 gennum)) st)
    as (? & _ & ?). done.
Qed.

Lemma tryAddFreeObject_keeps objnum gennum st x :
  x ∈ m_FreeObjects st ->
  x ∈ m_FreeObjects (tryAddFreeObject objnum gennum st).2.
Proof.
  unfold tryAddFreeObject. case_match; simpl; [done|].
  intros Hx. apply AddFreeObject_elem. auto.
Qed.

End FreeListFacts.

Section StoreRoundTrips.

Import IndirectObjectList.

Lemma tryIncrementObjectCount_frame ref st :
  m_Objects (tryIncrementObjectCount ref st) = m_Objects st
  /\ m_ObjectCount (tryIncrementObjectCount ref st)
     = Z.max (m_ObjectCount st) (ObjectNumber ref)
  /\ m_unavailableObjects (tryIncrementObjectCount ref st)
     = m_unavailableObjects st
  /\ m_compressedObjectStreams (tryIncrementObjectCount ref st)
     = m_compressedObjectStreams st.
Proof.
  unfold tryIncrementObjectCount.
  destruct (Z.ltb_spec (m_ObjectCount st) (ObjectNumber ref)); simpl;
    repeat split; lia.
Qed.

(** What [PushObject] changes. *)
Lemma PushObject_frame ref obj st :
  GetObject ref (PushObject ref obj st) = Some obj
  /\ (forall other, other <> ref ->
        GetObject other (PushObject ref obj st) = GetObject other st)
  /\ m_ObjectCount (PushObject ref obj st)
     = Z.max (m_ObjectCount st) (ObjectNumber ref)
  /\ m_FreeObjects (PushObject ref obj st) = m_FreeObjects st
  /\ m_unavailableObjects (PushObject ref obj st) = m_unavailableObjects st
  /\ m_compressedObjectStreams (PushObject ref obj st)
     = m_compressedObjectStreams st.
Proof.
  unfold PushObject, GetObject.
  match goal with
  | |- context [tryIncrementObjectCount ref ?s] =>
      destruct (tryIncrementObjectCount_frame ref s) as (Ho & Hc & Hu & Hs);
      pose proof (tryIncrementObjectCount_free_list ref s) as Hf
  end.
  rewrite Ho, Hc, Hu, Hs, Hf. simpl.
  split; [apply lookup_insert_eq|].
  split; [intros other Hne; apply lookup_insert_ne; congruence|].
  done.
Qed.

(** X1: pushing and looking up.  After [PushObject] the reference
    resolves to the pushed object, whatever was stored under it before;
    every other reference resolves as before; the object count is the
    larger of the old count and the pushed object number; the free list
    and the two sets of object numbers are unchanged. *)
Theorem push_then_get ref obj st :
  GetObject ref (PushObject ref obj st) = Some obj
  /\ (forall other, other <> ref ->
        GetObject other (PushObject ref obj st) = GetObject other st)
  /\ m_ObjectCount (PushObject ref obj st)
     = Z.max (m_ObjectCount st) (ObjectNumber ref)
  /\ m_FreeObjects (PushObject ref obj st) = m_FreeObjects st
  /\ m_unavailableObjects (PushObject ref obj st) = m_unavailableObjects st
  /\ m_compressedObjectStreams (PushObject ref obj st)
     = m_compressedObjectStreams st.
Proof. apply PushObject_frame. Qed.

(** X2: pushing and removing.  An object pushed under a reference whose
    number is not that of a compressed object stream is handed back by
    [RemoveObject]; afterwards the reference resolves to nothing, and
    every other reference resolves as it did before the push. *)
Theorem push_then_remove ref obj markAsFree st :
  ObjectNumber ref ∉ m_compressedObjectStreams st ->
  exists st',
    RemoveObject ref markAsFree (PushObject ref obj st) = Ok (Some obj, st')
    /\ GetObject ref st' = None
    /\ forall other, other <> ref -> GetObject other st' = GetObject other st.
Proof.
  intros Hc.
  destruct (PushObject_frame ref obj st) as (Hget & Hother & _ & _ & _ & Hs).
  unfold RemoveObject. unfold GetObject in Hget. rewrite Hget.
  unfold removeObject. rewrite Hs.
  destruct (decide (ObjectNumber ref ∈ m_compressedObjectStreams st));
    [done|].
  eexists. split; [reflexivity|].
  assert (Hobjs : forall s, m_Objects
            (if markAsFree then (SafeAddFreeObject ref s).2 else s)
            = m_Objects s).
  { intros s. destruct markAsFree; [|done].
    apply tryAddFreeObject_frame. }
  unfold GetObject. simpl. rewrite Hobjs.
  split; [apply lookup_delete_eq|].
  intros other Hne. rewrite lookup_delete_ne by congruence.
  apply Hother, Hne.
Qed.

End StoreRoundTrips.

Lemma push_then_remove_witness :
  exists st',
    IndirectObjectList.RemoveObject (mkRef 6 0) true
      (IndirectObjectList.PushObject (mkRef 6 0) capped_object sample_document)
    = Ok (Some capped_object, st')
    /\ IndirectObjectList.GetObject (mkRef 6 0) st' = None
    /\ forall other, other <> mkRef 6 0 ->
         IndirectObjectList.GetObject other st'
         = IndirectObjectList.GetObject other sample_document.
Proof.
  apply (push_then_remove (mkRef 6 0) capped_object true sample_document).
  change (6 ∉ ({[ 5 ]} ∪ ∅ : gset Z)).
  intros Hin. apply elem_of_union in Hin as [Hin|Hin].
  - apply elem_of_singleton in Hin. discriminate.
  - apply not_elem_of_empty in Hin as [].
Defined.

Section AllocatorFacts.

Import IndirectObjectList.

Variable MaxObjectCount : Z.
Hypothesis MaxObjectCount_small : MaxObjectCount < 2 ^ 32 - 1.

Lemma next_object_num_ok fuel unavailable : forall n m,
  0 <= n ->
  next_object_num MaxObjectCount fuel unavailable n = Some (Ok m) ->
  n <= m <= MaxObjectCount /\ (m ∉ unavailable)
  /\ forall k, n <= k < m -> k ∈ unavailable.
Proof using MaxObjectCount_small.
  induction fuel as [|fuel IH]; intros n m Hn H; simpl in H.
  - destruct (Z.ltb_spec MaxObjectCount n); [discriminate|].
    destruct (decide (n ∈ unavailable)); [discriminate|].
    injection H as <-. split; [lia|]. split; [done|]. intros k Hk; lia.
  - destruct (Z.ltb_spec MaxObjectCount n); [discriminate|].
    destruct (decide (n ∈ unavailable)) as [Hin|Hin].
    + assert (Hw : wrap32 (n + 1) = n + 1).
      { unfold wrap32. apply Z.mod_small. lia. }
      rewrite Hw in H. apply IH in H as (H1 & H2 & H3); [|lia].
      split; [lia|]. split; [done|].
      intros k Hk. destruct (decide (k = n)) as [->|]; [done|].
      apply H3. lia.
    + injection H as <-. split; [lia|]. split; [done|]. intros k Hk; lia.
Qed.

Lemma next_object_num_raise fuel unavailable : forall n e,
  0 <= n ->
  next_object_num MaxObjectCount fuel unavailable n = Some (Raise e) ->
  e = ValueOutOfRange /\ forall k, n <= k <= MaxObjectCount -> k ∈ unavailable.
Proof using MaxObjectCount_small.
  induction fuel as [|fuel IH]; intros n e Hn H; simpl in H.
  - destruct (Z.ltb_spec MaxObjectCount n).
    + injection H as <-. split; [done|]. intros k Hk; lia.
    + destruct (decide (n ∈ unavailable)); discriminate.
  - destruct (Z.ltb_spec MaxObjectCount n).
    + injection H as <-. split; [done|]. intros k Hk; lia.
    + destruct (decide (n ∈ unavailable)) as [Hin|Hin]; [|discriminate].
      assert (Hw : wrap32 (n + 1) = n + 1).
      { unfold wrap32. apply Z.mod_small. lia. }
      rewrite Hw in H. apply IH in H as (H1 & H2); [|lia].
      split; [done|].
      intros k Hk. destruct (decide (k = n)) as [->|]; [done|].
      apply H2. lia.
Qed.

(** X4: what a fresh object number is.  With an empty free list and a
    maximum below [2^32 - 1], [CreateObject] returns; it either raises
    [ValueOutOfRange], and then every number from the object count + 1 to
    the maximum is unavailable, or stores the new object, marked dirty,
    under generation 0 of the least number above the object count that is
    not unavailable, leaving every other reference as it was. *)
Theorem create_object_takes_least_available v st :
  0 <= m_ObjectCount st < 2 ^ 32 - 1 ->
  m_FreeObjects st = [] ->
  (CreateObject MaxObjectCount v st = Some (Raise ValueOutOfRange)
   /\ forall k, m_ObjectCount st < k <= MaxObjectCount ->
        k ∈ m_unavailableObjects st)
  \/ exists n,
       CreateObject MaxObjectCount v st
       = Some (Ok (mkRef n 0, PushObject (mkRef n 0) (mkObject v true) st))
       /\ m_ObjectCount st < n <= MaxObjectCount
       /\ (n ∉ m_unavailableObjects st)
       /\ forall k, m_ObjectCount st < k < n -> k ∈ m_unavailableObjects st.
Proof using MaxObjectCount_small.
  intros Hcount Hfree.
  unfold CreateObject, addNewObject, getNextFreeObject. rewrite Hfree.
  assert (Hw : wrap32 (m_ObjectCount st + 1) = m_ObjectCount st + 1).
  { unfold wrap32. apply Z.mod_small. lia. }
  rewrite Hw.
  destruct (next_object_num MaxObjectCount (size (m_unavailableObjects st))
              (m_unavailableObjects st) (m_ObjectCount st + 1))
    as [[n|e]|] eqn:Hnext.
  - apply next_object_num_ok in Hnext as (H1 & H2 & H3); [|lia].
    right. exists n. split; [reflexivity|]. split; [lia|]. split; [done|].
    intros k Hk. apply H3. lia.
  - apply next_object_num_raise in Hnext as (-> & H); [|lia].
    left. split; [reflexivity|]. intros k Hk. apply H. lia.
  - exfalso. revert Hnext.
    apply (next_object_num_total MaxObjectCount _ MaxObjectCount_small);
      [lia|].
    apply subseteq_size. intros x Hx. apply elem_of_filter in Hx as [_ Hx].
    exact Hx.
Qed.

(** X5: allocation reuses the least free reference.  With a sorted,
    non-empty free list, [CreateObject] stores the new object, marked
    dirty, under the first reference of the list, which is below every
    other free reference, and takes that reference off the list; no new
    object number is made. *)
Theorem create_object_reuses_least_free v st first rest :
  free_list_sorted (m_FreeObjects st) ->
  m_FreeObjects st = first :: rest ->
  exists st',
    CreateObject MaxObjectCount v st = Some (Ok (first, st'))
    /\ GetObject first st' = Some (mkObject v true)
    /\ m_FreeObjects st' = rest
    /\ (forall ref, ref ∈ rest -> ref_lt first ref)
    /\ (first ∉ m_FreeObjects st')
    /\ m_unavailableObjects st' = m_unavailableObjects st.
Proof.
  intros Hsorted Hfree.
  unfold CreateObject, addNewObject, getNextFreeObject. rewrite Hfree.
  eexists. split; [reflexivity|].
  match goal with
  | |- context [PushObject first ?o ?s] =>
      destruct (PushObject_frame first o s) as (Hget & _ & _ & Hf & Hu & _)
  end.
  rewrite Hget, Hf, Hu. simpl.
  rewrite Hfree in Hsorted. apply StronglySorted_inv in Hsorted as [Hs Hall].
  split; [done|]. split; [done|].
  split; [intros ref Hin; exact (proj1 (Forall_forall _ _) Hall ref Hin)|].
  split; [|done].
  intros Hin. pose proof (proj1 (Forall_forall _ _) Hall first Hin) as Hlt.
  unfold ref_lt in Hlt. rewrite ref_ltb_irrefl in Hlt. discriminate.
Qed.

(** X24: a removed number is reused with the next generation.  When
    the free list is empty, removing a stored object whose number is not
    that of a compressed object stream and whose generation is below 65534
    puts its number on the free list, and the next [CreateObject] stores
    its object under that number with the generation raised by one;
    nothing is stored under the removed reference any more, and the free
    list is empty again. *)
Theorem removed_number_is_reused v st ref obj :
  m_FreeObjects st = [] ->
  GetObject ref st = Some obj ->
  ObjectNumber ref ∉ m_compressedObjectStreams st ->
  0 <= GenerationNumber ref < MaxXRefGenerationNum - 1 ->
  exists st1 st2,
    let reused := mkRef (ObjectNumber ref) (GenerationNumber ref + 1) in
    RemoveObject ref true st = Ok (Some obj, st1)
    /\ CreateObject MaxObjectCount v st1 = Some (Ok (reused, st2))
    /\ GetObject reused st2 = Some (mkObject v true)
    /\ GetObject ref st2 = None
    /\ m_FreeObjects st2 = [].
Proof.
  intros Hfree Hget Hstream Hgen.
  unfold RemoveObject. unfold GetObject in Hget. rewrite Hget.
  unfold removeObject.
  destruct (decide (ObjectNumber ref ∈ m_compressedObjectStreams st));
    [done|].
  eexists _, _. cbv zeta. split; [reflexivity|].
  unfold SafeAddFreeObject.
  rewrite tryAddFreeObject_below_cap by lia. cbn [snd].
  set (reused := mkRef (ObjectNumber ref) (GenerationNumber ref + 1)).
  assert (Hlist : m_FreeObjects (AddFreeObject reused st) = [reused]).
  { rewrite AddFreeObject_free_list, Hfree. reflexivity. }
  unfold CreateObject, addNewObject, getNextFreeObject.
  cbn [m_FreeObjects]. rewrite Hlist.
  split; [reflexivity|].
  match goal with
  | |- context [PushObject ?r ?o ?s] =>
      destruct (PushObject_frame r o s) as (Hnew & Hother & _ & Hf & _)
  end.
  split; [exact Hnew|]. split; [|exact Hf].
  rewrite Hother.
  - unfold GetObject. cbn [m_Objects]. apply lookup_delete_eq.
  - intros Heq. apply (f_equal GenerationNumber) in Heq.
    unfold reused in Heq. simpl in Heq. lia.
Qed.

End AllocatorFacts.

Lemma create_object_takes_least_available_witness :
  (IndirectObjectList.CreateObject (2 ^ 31 - 1) VNull sample_document
   = Some (Raise ValueOutOfRange)
   /\ forall k,
        IndirectObjectList.m_ObjectCount sample_document < k <= 2 ^ 31 - 1 ->
        k ∈ IndirectObjectList.m_unavailableObjects sample_document)
  \/ exists n,
       IndirectObjectList.CreateObject (2 ^ 31 - 1) VNull sample_document
       = Some (Ok (mkRef n 0,
                   IndirectObjectList.PushObject (mkRef n 0)
                     (mkObject VNull true) sample_document))
       /\ IndirectObjectList.m_ObjectCount sample_document < n <= 2 ^ 31 - 1
       /\ (n ∉ IndirectObjectList.m_unavailableObjects sample_document)
       /\ forall k,
            IndirectObjectList.m_ObjectCount sample_document < k < n ->
            k ∈ IndirectObjectList.m_unavailableObjects sample_document.
Proof.
  apply (create_object_takes_least_available (2 ^ 31 - 1)).
  - lia.
  - change (0 <= 5 < 2 ^ 32 - 1). lia.
  - reflexivity.
Defined.

Lemma create_object_reuses_least_free_witness :
  let st := IndirectObjectList.run (2 ^ 31 - 1) sample_calls
              IndirectObjectList.empty in
  exists st',
    IndirectObjectList.CreateObject (2 ^ 31 - 1) VNull st
    = Some (Ok (mkRef 1 1, st'))
    /\ IndirectObjectList.GetObject (mkRef 1 1) st' = Some (mkObject VNull true)
    /\ IndirectObjectList.m_FreeObjects st' = [mkRef 2 1]
    /\ (forall ref, ref ∈ [mkRef 2 1] -> ref_lt (mkRef 1 1) ref)
    /\ (mkRef 1 1 ∉ IndirectObjectList.m_FreeObjects st')
    /\ IndirectObjectList.m_unavailableObjects st'
       = IndirectObjectList.m_unavailableObjects st.
Proof.
  intros st.
  apply (create_object_reuses_least_free (2 ^ 31 - 1) VNull st).
  - unfold st. rewrite sample_calls_free_list. repeat constructor.
  - unfold st. apply sample_calls_free_list.
Defined.

Lemma removed_number_is_reused_witness :
  exists st1 st2,
    let reused := mkRef (ObjectNumber (mkRef 3 0))
                        (GenerationNumber (mkRef 3 0) + 1) in
    IndirectObjectList.RemoveObject (mkRef 3 0) true sample_document
    = Ok (Some (mkObject VNull false), st1)
    /\ IndirectObjectList.CreateObject (2 ^ 31 - 1) (VBool true) st1
       = Some (Ok (reused, st2))
    /\ IndirectObjectList.GetObject reused st2
       = Some (mkObject (VBool true) true)
    /\ IndirectObjectList.GetObject (mkRef 3 0) st2 = None
    /\ IndirectObjectList.m_FreeObjects st2 = [].
Proof.
  apply (removed_number_is_reused (2 ^ 31 - 1) (VBool true) sample_document
           (mkRef 3 0) (mkObject VNull false)).
  - reflexivity.
  - reflexivity.
  - change (3 ∉ ({[ 5 ]} ∪ ∅ : gset Z)).
    intros Hin. apply elem_of_union in Hin as [Hin|Hin].
    + apply elem_of_singleton in Hin. discriminate.
    + apply not_elem_of_empty in Hin as [].
  - simpl. unfold IndirectObjectList.MaxXRefGenerationNum. lia.
Defined.

Section StoreInvariants.

Import IndirectObjectList.

Variable MaxObjectCount : Z.

Lemma AddFreeObject_count ref st :
  m_ObjectCount st <= m_ObjectCount (AddFreeObject ref st)
  /\ (ref ∈ m_FreeObjects st
      \/ ObjectNumber ref <= m_ObjectCount (AddFreeObject ref st)).
Proof.
  unfold AddFreeObject.
  destruct (negb (_ =? _)%nat && negb (_ =? _)%nat) eqn:Hb.
  - split; [lia|]. left. apply andb_true_iff in Hb as [Hb _].
    apply bounds_member. apply negb_true_iff, Nat.eqb_neq in Hb. exact Hb.
  - match goal with
    | |- context [tryIncrementObjectCount ref ?s] =>
        destruct (tryIncrementObjectCount_frame ref s) as (_ & Hc & _)
    end.
    rewrite Hc. simpl. lia.
Qed.

Lemma AddFreeObject_count_covers ref st :
  count_covers st -> count_covers (AddFreeObject ref st).
Proof.
  intros [Ho Hf].
  destruct (AddFreeObject_count ref st) as [Hc Hr].
  destruct (AddFreeObject_frame ref st) as (Hobjs & _ & _).
  split.
  - intros r Hr'. unfold GetObject in *. rewrite Hobjs in Hr'.
    specialize (Ho r Hr'). lia.
  - intros r Hin. apply AddFreeObject_elem in Hin as [->|Hin].
    + destruct Hr as [Hin|Hle]; [|exact Hle]. specialize (Hf _ Hin). lia.
    + specialize (Hf _ Hin). lia.
Qed.

Lemma tryAddFreeObject_count_covers objnum gennum st :
  count_covers st -> count_covers (tryAddFreeObject objnum gennum st).2.
Proof.
  unfold tryAddFreeObject. case_match; simpl.
  - intros Hc; exact Hc.
  - apply AddFreeObject_count_covers.
Qed.

Lemma PushObject_count_covers ref obj st :
  count_covers st -> count_covers (PushObject ref obj st).
Proof.
  intros [Ho Hf].
  destruct (PushObject_frame ref obj st) as (Hget & Hother & Hc & Hfree & _).
  split.
  - intros r Hr. rewrite Hc. destruct (decide (r = ref)) as [->|Hne]; [lia|].
    rewrite Hother in Hr by exact Hne. specialize (Ho r Hr). lia.
  - intros r Hin. rewrite Hfree in Hin. rewrite Hc.
    specialize (Hf r Hin). lia.
Qed.

Lemma getNextFreeObject_count_covers st ref st' :
  count_covers st ->
  getNextFreeObject MaxObjectCount st = Some (Ok (ref, st')) ->
  count_covers st'.
Proof.
  intros [Ho Hf] H. unfold getNextFreeObject in H.
  destruct (m_FreeObjects st) as [|first rest] eqn:Hfree.
  - destruct (next_object_num _ _ _ _) as [[n|e]|]; try discriminate.
    injection H as <- <-. rewrite <- Hfree in Hf. split; done.
  - injection H as <- <-. split; [exact Ho|].
    intros r Hin. simpl in *. apply Hf. apply list_elem_of_further, Hin.
Qed.

Lemma removeObject_count_covers ref obj markAsFree st st' out :
  count_covers st ->
  removeObject ref obj markAsFree st = Ok (out, st') ->
  count_covers st'.
Proof.
  intros Hc H. unfold removeObject in H.
  destruct (decide (ObjectNumber ref ∈ m_compressedObjectStreams st));
    [discriminate|].
  injection H as <- <-.
  assert (H1 : count_covers
                 (if markAsFree then (SafeAddFreeObject ref st).2 else st)).
  { destruct markAsFree; [|exact Hc].
    apply tryAddFreeObject_count_covers, Hc. }
  destruct H1 as [Ho Hf]. split; [|exact Hf].
  intros r [o Hr]. unfold GetObject in Hr. simpl in Hr.
  apply lookup_delete_Some in Hr as [_ Hr].
  apply Ho. exists o. exact Hr.
Qed.

Lemma step_count_covers c st :
  count_covers st -> count_covers (step MaxObjectCount c st).
Proof.
  intros Hc. destruct c as [v|ref obj|ref markAsFree|ref|ref|n|]; simpl.
  - unfold CreateObject, addNewObject.
    destruct (getNextFreeObject MaxObjectCount st) as [[[r st1]|e]|] eqn:Hn;
      try exact Hc.
    apply PushObject_count_covers.
    exact (getNextFreeObject_count_covers _ _ _ Hc Hn).
  - apply PushObject_count_covers, Hc.
  - unfold RemoveObject.
    destruct (m_Objects st !! ref) as [obj|]; [|exact Hc].
    destruct (removeObject ref obj markAsFree st) as [[out st']|e] eqn:Hr;
      [|exact Hc].
    exact (removeObject_count_covers _ _ _ _ _ _ Hc Hr).
  - apply AddFreeObject_count_covers, Hc.
  - unfold TryAddFreeObject. simpl.
    apply tryAddFreeObject_count_covers, Hc.
  - exact Hc.
  - split.
    + intros r [o Hr]. unfold GetObject in Hr. simpl in Hr.
      rewrite lookup_empty in Hr. discriminate.
    + intros r Hin. apply not_elem_of_nil in Hin as [].
Qed.

Lemma run_count_covers cs : forall st,
  count_covers st -> count_covers (run MaxObjectCount cs st).
Proof.
  induction cs as [|c cs IH]; intros st Hc; [exact Hc|].
  simpl. apply IH, step_count_covers, Hc.
Qed.

Lemma empty_count_covers : count_covers empty.
Proof.
  split.
  - intros r [o Hr]. unfold GetObject in Hr. simpl in Hr.
    rewrite lookup_empty in Hr. discriminate.
  - intros r Hin. apply not_elem_of_nil in Hin as [].
Qed.

(** X3: the object count is an upper bound.  Whatever calls are made on
    a new store, in whatever order, and whether or not they throw, no
    object of the store and no reference of the free list has an object
    number above [m_ObjectCount]. *)
Theorem object_count_bounds_store (cs : list Call) :
  count_covers (run MaxObjectCount cs empty).
Proof. apply run_count_covers, empty_count_covers. Qed.

Hypothesis MaxObjectCount_small : MaxObjectCount < 2 ^ 32 - 1.

Lemma step_guarded ref obj c st :
  allocates_or_removes c ->
  guarded ref obj st -> guarded ref obj (step MaxObjectCount c st).
Proof using MaxObjectCount_small.
  intros Hcall Hg.
  pose proof Hg as (Hget & Hstream & Hfree & Hcov & Hcount).
  pose proof (step_count_covers c st Hcov) as Hcov'.
  assert (Hnum : ObjectNumber ref <= m_ObjectCount st).
  { apply (proj1 Hcov). rewrite Hget. eauto. }
  destruct c as [v|r o|r markAsFree|r|r|n|]; simpl in *; try done.
  - unfold CreateObject, addNewObject in *.
    destruct (getNextFreeObject MaxObjectCount st) as [[[r st1]|e]|] eqn:Hn;
      try exact Hg.
    destruct (PushObject_frame r (mkObject v true) st1)
      as (_ & Hother & Hc & Hf & _ & Hs).
    unfold getNextFreeObject in Hn.
    destruct (m_FreeObjects st) as [|first rest] eqn:Hfl.
    + destruct (next_object_num _ _ _ _) as [[k|e]|] eqn:Hk;
        try discriminate.
      injection Hn as <- <-.
      assert (Hw : wrap32 (m_ObjectCount st + 1) = m_ObjectCount st + 1).
      { unfold wrap32. apply Z.mod_small. lia. }
      rewrite Hw in Hk.
      apply (next_object_num_ok _ MaxObjectCount_small) in Hk
        as (Hk1 & _); [|lia].
      split; [|split; [|split; [|split]]].
      * rewrite Hother; [exact Hget|]. intros ->. simpl in Hnum. lia.
      * rewrite Hs. exact Hstream.
      * rewrite Hf, Hfl. apply not_elem_of_nil.
      * exact Hcov'.
      * rewrite Hc. simpl. lia.
    + injection Hn as <- <-.
      split; [|split; [|split; [|split]]].
      * rewrite Hother; [exact Hget|]. intros ->.
        apply Hfree, list_elem_of_here.
      * rewrite Hs. exact Hstream.
      * rewrite Hf. simpl. intros Hin.
        apply Hfree, list_elem_of_further, Hin.
      * exact Hcov'.
      * rewrite Hc. simpl.
        assert (ObjectNumber first <= m_ObjectCount st).
        { apply (proj2 Hcov). rewrite Hfl. apply list_elem_of_here. }
        lia.
  - unfold RemoveObject in *.
    destruct (m_Objects st !! r) as [o|] eqn:Hr; [|exact Hg].
    unfold removeObject in *.
    destruct (decide (ObjectNumber r ∈ m_compressedObjectStreams st))
      as [Hin|Hnin]; [exact Hg|].
    assert (Hne : ObjectNumber r <> ObjectNumber ref) by congruence.
    assert (Hrn : ObjectNumber r <= m_ObjectCount st).
    { apply (proj1 Hcov). unfold GetObject. rewrite Hr. eauto. }
    split; [|split; [|split; [|split]]].
    + unfold GetObject. simpl. rewrite lookup_delete_ne by congruence.
      destruct markAsFree; [|exact Hget].
      unfold SafeAddFreeObject.
      rewrite (proj1 (tryAddFreeObject_frame _ _ st)). exact Hget.
    + simpl. destruct markAsFree; [|exact Hstream].
      unfold SafeAddFreeObject.
      rewrite (proj2 (tryAddFreeObject_frame _ _ st)). exact Hstream.
    + simpl. destruct markAsFree; [|exact Hfree].
      unfold SafeAddFreeObject, tryAddFreeObject. case_match; simpl;
        [exact Hfree|].
      intros Hin. apply AddFreeObject_elem in Hin as [Heq|Hin];
        [|exact (Hfree Hin)].
      apply Hne. rewrite Heq. reflexivity.
    + exact Hcov'.
    + simpl. destruct markAsFree; [|exact Hcount].
      unfold SafeAddFreeObject, tryAddFreeObject. case_match; simpl;
        [exact Hcount|].
      unfold AddFreeObject. case_match; [exact Hcount|].
      match goal with
      | |- context [tryIncrementObjectCount ?x ?s] =>
          destruct (tryIncrementObjectCount_frame x s) as (_ & Hc & _)
      end.
      rewrite Hc. simpl. lia.
  - split; [exact Hget|]. split; [|done].
    apply elem_of_union_r, Hstream.
Qed.

(** X6: a compressed object stream stays.  With a maximum below
    [2^32 - 1], no sequence of [CreateObject], [RemoveObject] and
    [AddCompressedObjectStream] calls removes or replaces an object whose
    number is that of a compressed object stream, provided its reference
    was not on the free list and the object count was an upper bound below
    [2^32 - 1] to begin with. *)
Theorem compressed_object_stream_stays ref obj cs st :
  Forall allocates_or_removes cs ->
  GetObject ref st = Some obj ->
  ObjectNumber ref ∈ m_compressedObjectStreams st ->
  ref ∉ m_FreeObjects st ->
  count_covers st ->
  0 <= m_ObjectCount st < 2 ^ 32 - 1 ->
  GetObject ref (run MaxObjectCount cs st) = Some obj.
Proof using MaxObjectCount_small.
  intros Hcs H1 H2 H3 H4 H5.
  assert (Hg : guarded ref obj st) by (unfold guarded; auto).
  clear H1 H2 H3 H4 H5. revert st Hg.
  induction Hcs as [|c cs Hc _ IH]; intros st Hg; [apply Hg|].
  simpl. apply IH, step_guarded; assumption.
Qed.

End StoreInvariants.

Lemma sample_document_is_run :
  sample_document
  = IndirectObjectList.run 0 sample_document_calls IndirectObjectList.empty.
Proof. reflexivity. Qed.

Lemma compressed_object_stream_stays_witness :
  IndirectObjectList.GetObject (mkRef 5 0)
    (IndirectObjectList.run (2 ^ 31 - 1) sample_stream_calls sample_document)
  = Some (mkObject (VDictionary [("First"%string, VNumber 10)]) false).
Proof.
  apply (compressed_object_stream_stays (2 ^ 31 - 1)).
  - lia.
  - repeat constructor.
  - reflexivity.
  - change (5 ∈ ({[ 5 ]} ∪ ∅ : gset Z)).
    apply elem_of_union_l, elem_of_singleton_2. reflexivity.
  - apply not_elem_of_nil.
  - rewrite sample_document_is_run. apply run_count_covers.
    apply empty_count_covers.
  - change (0 <= 5 < 2 ^ 32 - 1). lia.
Defined.

Section CopyFacts.

Import IndirectObjectList.

(** X7: a copy forgets the compressed object streams.  The copy
    constructor keeps the object count, the free list, the unavailable
    numbers and, under every reference, the copy of the object the source
    holds there; it does not keep the set of compressed object streams, so
    that an object [RemoveObject] refuses to take out of the source for
    being a compressed object stream is taken out of the copy. *)
Theorem copy_forgets_compressed_streams copy rhs ref obj markAsFree :
  GetObject ref rhs = Some obj ->
  ObjectNumber ref ∈ m_compressedObjectStreams rhs ->
  (forall other,
     GetObject other (copy_constructor copy rhs)
     = copy <$> GetObject other rhs)
  /\ m_ObjectCount (copy_constructor copy rhs) = m_ObjectCount rhs
  /\ m_FreeObjects (copy_constructor copy rhs) = m_FreeObjects rhs
  /\ m_unavailableObjects (copy_constructor copy rhs)
     = m_unavailableObjects rhs
  /\ RemoveObject ref markAsFree rhs = Raise InternalLogic
  /\ exists st',
       RemoveObject ref markAsFree (copy_constructor copy rhs)
       = Ok (Some (copy obj), st')
       /\ GetObject ref st' = None.
Proof.
  intros Hget Hstream.
  assert (Hcopy : forall other,
            GetObject other (copy_constructor copy rhs)
            = copy <$> GetObject other rhs).
  { intros other. unfold GetObject, copy_constructor. simpl.
    apply lookup_fmap. }
  split; [exact Hcopy|]. split; [reflexivity|]. split; [reflexivity|].
  split; [reflexivity|]. split.
  - unfold RemoveObject. unfold GetObject in Hget. rewrite Hget.
    unfold removeObject.
    destruct (decide (ObjectNumber ref ∈ m_compressedObjectStreams rhs));
      done.
  - unfold RemoveObject. specialize (Hcopy ref). unfold GetObject in Hcopy.
    rewrite Hcopy. unfold GetObject in Hget. rewrite Hget. simpl.
    unfold removeObject.
    destruct (decide (ObjectNumber ref
                      ∈ m_compressedObjectStreams (copy_constructor copy rhs)))
      as [Hin|_]; [apply not_elem_of_empty in Hin as []|].
    eexists. split; [reflexivity|].
    unfold GetObject. simpl. apply lookup_delete_eq.
Qed.

End CopyFacts.

Lemma copy_forgets_compressed_streams_witness :
  let stream := mkObject (VDictionary [("First"%string, VNumber 10)]) false in
  IndirectObjectList.RemoveObject (mkRef 5 0) true sample_document
  = Raise InternalLogic
  /\ exists st',
       IndirectObjectList.RemoveObject (mkRef 5 0) true
         (IndirectObjectList.copy_constructor (fun o => o) sample_document)
       = Ok (Some stream, st')
       /\ IndirectObjectList.GetObject (mkRef 5 0) st' = None.
Proof.
  intros stream.
  destruct (copy_forgets_compressed_streams (fun o => o) sample_document
              (mkRef 5 0) stream true) as (_ & _ & _ & _ & H1 & H2).
  - reflexivity.
  - change (5 ∈ ({[ 5 ]} ∪ ∅ : gset Z)).
    apply elem_of_union_l, elem_of_singleton_2. reflexivity.
  - split; [exact H1|exact H2].
Defined.

(** * Properties of the garbage collector *)

Section VisitFacts.

Import IndirectObjectList.

Lemma PdfVariant_nested_ind (P : PdfVariant -> Prop) :
  P VNull -> (forall b, P (VBool b)) -> (forall n, P (VNumber n)) ->
  (forall s, P (VName s)) -> (forall s, P (VString s)) ->
  (forall r, P (VReference r)) ->
  (forall l, Forall P l -> P (VArray l)) ->
  (forall l, Forall (fun e => P e.2) l -> P (VDictionary l)) ->
  forall v, P v.
Proof.
  intros HN HB HZ HNa HS HR HA HD.
  fix IH 1. intros [ | b | n | s | s | r | l | l ].
  - exact HN.
  - apply HB.
  - apply HZ.
  - apply HNa.
  - apply HS.
  - apply HR.
  - apply HA. revert l. fix IHl 1. intros [|x l].
    + constructor.
    + constructor; [apply IH | apply IHl].
  - apply HD. revert l. fix IHl 1. intros [|x l].
    + constructor.
    + constructor; [apply IH | apply IHl].
Qed.

Variable objects : gmap PdfReference PdfObject.

Lemma visited_refl seen : visited objects ∅ seen seen.
Proof.
  split; [done|split; [apply empty_subseteq|]]. intros r o Hr Hn; done.
Qed.

Lemma visited_seq R1 R2 seen s1 res :
  visited objects R1 seen s1 -> visited objects R2 s1 res ->
  visited objects (R1 ∪ R2) seen res.
Proof.
  intros (Ha & Hb & Hc) (Hd & He & Hf).
  split; [intros x Hx; apply Hd, Ha, Hx|].
  split.
  { intros x Hx. apply elem_of_union in Hx as [Hx|Hx];
      [apply Hd, Hb, Hx|apply He, Hx]. }
  intros r o Hr Hn Ho. destruct (decide (r ∈ s1)) as [Hin|Hin].
  - intros x Hx. apply Hd. exact (Hc r o Hin Hn Ho x Hx).
  - exact (Hf r o Hr Hin Ho).
Qed.

Lemma pending_mono seen res :
  seen ⊆ res -> (pending objects res <= pending objects seen)%nat.
Proof.
  intros H. unfold pending. apply subseteq_size.
  intros x Hx. apply elem_of_difference in Hx as [Hd Hn].
  apply elem_of_difference. split; [exact Hd|].
  intros Hs. apply Hn, H, Hs.
Qed.

Lemma pending_insert r o seen :
  objects !! r = Some o -> r ∉ seen ->
  (pending objects ({[ r ]} ∪ seen) < pending objects seen)%nat.
Proof.
  intros Ho Hn. unfold pending. apply subset_size.
  apply elem_of_dom_2 in Ho. split.
  - intros x Hx. apply elem_of_difference in Hx as [Hd Hx].
    apply elem_of_difference. split; [exact Hd|].
    intros Hs. apply Hx, elem_of_union_r, Hs.
  - intros Hsub. assert (Hr : r ∈ dom objects ∖ ({[ r ]} ∪ seen)).
    { apply Hsub, elem_of_difference. split; [exact Ho|exact Hn]. }
    apply elem_of_difference in Hr as [_ Hr].
    apply Hr, elem_of_union_l, elem_of_singleton_2. reflexivity.
Qed.

Section Follow.

Variable follow :
  PdfVariant -> gset PdfReference -> option (gset PdfReference).

Lemma visit_value_visited (Hf : follow_visited objects follow) v :
  forall seen res,
  visit_value objects follow v seen = Some res ->
  visited objects (references v) seen res.
Proof.
  induction v as [ | b | n | s | s | r | l IHl | l IHl ]
    using PdfVariant_nested_ind; intros seen res H;
    try (simpl in H; injection H as <-; apply visited_refl).
  - simpl in H. destruct (decide (r ∈ seen)) as [Hin|Hin].
    + injection H as <-. split; [done|]. split.
      { intros x Hx. simpl in Hx. apply elem_of_singleton in Hx as ->.
        exact Hin. }
      intros x o Hx Hn; done.
    + destruct (objects !! r) as [o|] eqn:Ho.
      * apply Hf in H. destruct H as (Ha & Hb & Hc).
        split; [intros x Hx; apply Ha, elem_of_union_r, Hx|]. split.
        { intros x Hx. simpl in Hx. apply elem_of_singleton in Hx as ->.
          apply Ha, elem_of_union_l, elem_of_singleton_2. reflexivity. }
        intros x o' Hx Hn Ho'. destruct (decide (x = r)) as [->|Hne].
        -- rewrite Ho in Ho'. injection Ho' as <-. exact Hb.
        -- apply (Hc x o'); [done| |done].
           intros Hu. apply elem_of_union in Hu as [Hu|Hu]; [|done].
           apply elem_of_singleton in Hu. done.
      * injection H as <-.
        split; [intros x Hx; apply elem_of_union_r, Hx|]. split.
        { intros x Hx. simpl in Hx. apply elem_of_singleton in Hx as ->.
          apply elem_of_union_l, elem_of_singleton_2. reflexivity. }
        intros x o' Hx Hn Ho'.
        apply elem_of_union in Hx as [Hx|Hx]; [|done].
        apply elem_of_singleton in Hx as ->. congruence.
  - revert seen res H. induction IHl as [|x l Hx _ IH]; intros seen res H.
    + simpl in H. injection H as <-. apply visited_refl.
    + simpl in H.
      destruct (visit_value objects follow x seen) as [s1|] eqn:H1;
        [|discriminate].
      exact (visited_seq _ _ _ _ _ (Hx _ _ H1) (IH _ _ H)).
  - revert seen res H. induction IHl as [|x l Hx _ IH]; intros seen res H.
    + simpl in H. injection H as <-. apply visited_refl.
    + simpl in H.
      destruct (visit_value objects follow x.2 seen) as [s1|] eqn:H1;
        [|discriminate].
      exact (visited_seq _ _ _ _ _ (Hx _ _ H1) (IH _ _ H)).
Qed.

Lemma visit_value_within L (HL : hereditary objects L)
    (Hf : follow_within follow L) v :
  forall seen res,
  visit_value objects follow v seen = Some res ->
  within L (references v) -> within L seen -> within L res.
Proof.
  induction v as [ | b | n | s | s | r | l IHl | l IHl ]
    using PdfVariant_nested_ind; intros seen res H Hv Hs;
    try (simpl in H; injection H as <-; exact Hs).
  - simpl in H. destruct (decide (r ∈ seen)) as [Hin|Hin].
    + injection H as <-. exact Hs.
    + assert (Hr : L r)
        by (apply Hv; simpl; apply elem_of_singleton_2; reflexivity).
      assert (Hs' : within L ({[ r ]} ∪ seen)).
      { intros x Hx. apply elem_of_union in Hx as [Hx|Hx]; [|auto].
        apply elem_of_singleton in Hx as ->. exact Hr. }
      destruct (objects !! r) as [o|] eqn:Ho.
      * apply (Hf _ _ _ H); [|exact Hs'].
        intros x Hx. exact (HL r o x Hr Ho Hx).
      * injection H as <-. exact Hs'.
  - revert seen res H Hv Hs.
    induction IHl as [|x l Hx _ IH]; intros seen res H Hv Hs.
    + simpl in H. injection H as <-. exact Hs.
    + simpl in H.
      destruct (visit_value objects follow x seen) as [s1|] eqn:H1;
        [|discriminate].
      apply (IH _ _ H).
      * intros r Hr. apply Hv. simpl. apply elem_of_union_r. exact Hr.
      * apply (Hx _ _ H1); [|exact Hs].
        intros r Hr. apply Hv. simpl. apply elem_of_union_l. exact Hr.
  - revert seen res H Hv Hs.
    induction IHl as [|x l Hx _ IH]; intros seen res H Hv Hs.
    + simpl in H. injection H as <-. exact Hs.
    + simpl in H.
      destruct (visit_value objects follow x.2 seen) as [s1|] eqn:H1;
        [|discriminate].
      apply (IH _ _ H).
      * intros r Hr. apply Hv. simpl. apply elem_of_union_r. exact Hr.
      * apply (Hx _ _ H1); [|exact Hs].
        intros r Hr. apply Hv. simpl. apply elem_of_union_l. exact Hr.
Qed.

Lemma visit_value_returns (n : nat) (Hv : follow_visited objects follow) :
  (forall v seen, (pending objects seen < n)%nat -> is_Some (follow v seen)) ->
  forall v seen, (pending objects seen <= n)%nat ->
    is_Some (visit_value objects follow v seen).
Proof.
  intros Hf v.
  induction v as [ | b | k | s | s | r | l IHl | l IHl ]
    using PdfVariant_nested_ind; intros seen Hp; try (simpl; eauto; fail).
  - simpl. destruct (decide (r ∈ seen)); [eauto|].
    destruct (objects !! r) as [o|] eqn:Ho; [|eauto].
    apply Hf. pose proof (pending_insert r o seen Ho n0). lia.
  - revert seen Hp. induction IHl as [|x l Hx _ IH]; intros seen Hp.
    + simpl; eauto.
    + simpl. destruct (Hx seen Hp) as [s1 H1]. rewrite H1.
      apply IH. apply (visit_value_visited Hv) in H1 as (Hs & _).
      pose proof (pending_mono _ _ Hs). lia.
  - revert seen Hp. induction IHl as [|x l Hx _ IH]; intros seen Hp.
    + simpl; eauto.
    + simpl. destruct (Hx seen Hp) as [s1 H1]. rewrite H1.
      apply IH. apply (visit_value_visited Hv) in H1 as (Hs & _).
      pose proof (pending_mono _ _ Hs). lia.
Qed.

End Follow.

Lemma visitObject_unfold fuel v seen :
  visitObject fuel objects v seen
  = visit_value objects
      (match fuel with
       | O => fun _ _ => None
       | S fuel' => visitObject fuel' objects
       end) v seen.
Proof. destruct fuel; reflexivity. Qed.

Lemma visitObject_visited fuel : forall v seen res,
  visitObject fuel objects v seen = Some res ->
  visited objects (references v) seen res.
Proof.
  induction fuel as [|fuel IH]; intros v seen res H;
    rewrite visitObject_unfold in H;
    revert H; apply visit_value_visited.
  - intros ? ? ? ?; discriminate.
  - exact IH.
Qed.

Lemma visitObject_within L (HL : hereditary objects L) fuel : forall v seen res,
  visitObject fuel objects v seen = Some res ->
  within L (references v) -> within L seen -> within L res.
Proof.
  induction fuel as [|fuel IH]; intros v seen res H;
    rewrite visitObject_unfold in H;
    revert H; apply (visit_value_within _ L HL).
  - intros ? ? ? ?; discriminate.
  - exact IH.
Qed.

Lemma visitObject_returns fuel : forall v seen,
  (pending objects seen <= fuel)%nat ->
  is_Some (visitObject fuel objects v seen).
Proof.
  induction fuel as [|fuel IH]; intros v seen Hp;
    rewrite visitObject_unfold.
  - apply (visit_value_returns _ 0%nat); [|intros; lia|exact Hp].
    intros ? ? ? ?; discriminate.
  - apply (visit_value_returns _ (S fuel)); [| |exact Hp].
    + exact (visitObject_visited fuel).
    + intros v' seen' Hp'. apply IH. lia.
Qed.

Lemma visited_closed roots seen res :
  closed objects seen -> visited objects roots seen res -> closed objects res.
Proof.
  intros Hc (Ha & Hb & He) r o Hr _ Ho.
  destruct (decide (r ∈ seen)) as [Hin|Hin].
  - pose proof (Hc r o Hin (not_elem_of_empty r) Ho) as Hs.
    intros x Hx. apply Ha, Hs, Hx.
  - exact (He r o Hr Hin Ho).
Qed.

Lemma visit_streams_visited fuel ids : forall R res,
  closed objects R ->
  visit_streams fuel objects ids R = Some (Valid res) ->
  R ⊆ res /\ closed objects res /\
  forall objId obj, objId ∈ ids -> objects !! mkRef objId 0 = Some obj ->
    references (obj_value obj) ⊆ res.
Proof.
  induction ids as [|objId ids IH]; intros R res Hc H.
  - simpl in H. injection H as <-. split; [done|]. split; [done|].
    intros objId obj Hin. apply not_elem_of_nil in Hin as [].
  - simpl in H. destruct (decide (mkRef objId 0 ∈ R)) as [Hin|Hin].
    + destruct (IH _ _ Hc H) as (Ha & Hb & Hd).
      split; [done|]. split; [done|].
      intros i o Hi Ho. apply elem_of_cons in Hi as [->|Hi]; [|eauto].
      pose proof (Hc _ o Hin (not_elem_of_empty _) Ho) as Hs.
      intros x Hx. apply Ha, Hs, Hx.
    + destruct (objects !! mkRef objId 0) as [obj|] eqn:Ho; [|discriminate].
      destruct (visitObject fuel objects (obj_value obj) R) as [s|] eqn:Hv;
        [|discriminate].
      apply visitObject_visited in Hv.
      pose proof (visited_closed _ _ _ Hc Hv) as Hcs.
      destruct Hv as (Hv1 & Hv2 & _).
      destruct (IH _ _ Hcs H) as (Ha & Hb & Hd).
      split; [intros x Hx; apply Ha, Hv1, Hx|]. split; [done|].
      intros i o Hi Ho'. apply elem_of_cons in Hi as [->|Hi]; [|eauto].
      rewrite Ho in Ho'. injection Ho' as <-.
      intros x Hx. apply Ha, Hv2, Hx.
Qed.

Lemma visit_streams_within L (HL : hereditary objects L) fuel ids :
  forall R res,
  within L R ->
  (forall objId obj, objId ∈ ids -> objects !! mkRef objId 0 = Some obj ->
     within L (references (obj_value obj))) ->
  visit_streams fuel objects ids R = Some (Valid res) ->
  within L res.
Proof.
  induction ids as [|objId ids IH]; intros R res HR Hids H.
  - simpl in H. injection H as <-. exact HR.
  - simpl in H. destruct (decide (mkRef objId 0 ∈ R)) as [Hin|Hin].
    + apply (IH _ _ HR); [|exact H].
      intros i o Hi. apply Hids. apply elem_of_cons; auto.
    + destruct (objects !! mkRef objId 0) as [obj|] eqn:Ho; [|discriminate].
      destruct (visitObject fuel objects (obj_value obj) R) as [s|] eqn:Hv;
        [|discriminate].
      apply (IH s res); [| |exact H].
      * apply (visitObject_within L HL _ _ _ _ Hv); [|exact HR].
        apply (Hids objId obj); [apply elem_of_cons; auto|exact Ho].
      * intros i o Hi. apply Hids. apply elem_of_cons; auto.
Qed.

Lemma visit_streams_returns fuel ids : forall R,
  (pending objects R <= fuel)%nat ->
  (forall objId, objId ∈ ids -> is_Some (objects !! mkRef objId 0)) ->
  exists res, visit_streams fuel objects ids R = Some (Valid res).
Proof.
  induction ids as [|objId ids IH]; intros R Hp Hids.
  - simpl. eauto.
  - simpl. destruct (decide (mkRef objId 0 ∈ R)) as [Hin|Hin].
    + apply IH; [exact Hp|].
      intros i Hi. apply Hids. apply elem_of_cons; auto.
    + destruct (Hids objId) as [obj Ho]; [apply elem_of_cons; auto|].
      rewrite Ho.
      destruct (visitObject_returns fuel (obj_value obj) R Hp) as [s Hv].
      rewrite Hv. apply IH.
      * apply visitObject_visited in Hv as (Hs & _).
        pose proof (pending_mono _ _ Hs). lia.
      * intros i Hi. apply Hids. apply elem_of_cons; auto.
Qed.

Lemma visit_streams_null L (HL : hereditary objects L) fuel ids : forall R,
  (pending objects R <= fuel)%nat ->
  within L R ->
  (forall objId obj, objId ∈ ids -> objects !! mkRef objId 0 = Some obj ->
     within L (references (obj_value obj))) ->
  (exists objId, objId ∈ ids /\ objects !! mkRef objId 0 = None
                 /\ ~ L (mkRef objId 0)) ->
  visit_streams fuel objects ids R = Some NullPointer.
Proof.
  induction ids as [|objId ids IH]; intros R Hp HR Hids (i & Hi & Hn & HnL).
  - apply not_elem_of_nil in Hi as [].
  - assert (Hids' : forall objId obj, objId ∈ ids ->
              objects !! mkRef objId 0 = Some obj ->
              within L (references (obj_value obj))).
    { intros j o Hj. apply Hids. apply elem_of_cons; auto. }
    simpl. destruct (decide (mkRef objId 0 ∈ R)) as [Hin|Hin].
    + apply (IH R Hp HR Hids').
      exists i. split; [|done].
      apply elem_of_cons in Hi as [->|Hi]; [|done].
      destruct HnL. apply HR, Hin.
    + destruct (objects !! mkRef objId 0) as [obj|] eqn:Ho; [|reflexivity].
      destruct (visitObject_returns fuel (obj_value obj) R Hp) as [s Hv].
      rewrite Hv.
      assert (Hs : within L s).
      { apply (visitObject_within L HL _ _ _ _ Hv); [|exact HR].
        apply (Hids objId obj); [apply elem_of_cons; auto|exact Ho]. }
      apply (IH s); [|exact Hs|exact Hids'|].
      * apply visitObject_visited in Hv as (Hsub & _).
        pose proof (pending_mono _ _ Hsub). lia.
      * exists i. split; [|done].
        apply elem_of_cons in Hi as [->|Hi]; [|done]. congruence.
Qed.

End VisitFacts.

Section CollectorFacts.

Import IndirectObjectList.

Lemma sweep_fold_objects R l : forall acc,
  NoDup l.*1 ->
  (forall ref, ref ∈ l.*1 -> acc.2 !! ref = None) ->
  m_compressedObjectStreams (fold_left (sweep_object R) l acc).1
  = m_compressedObjectStreams acc.1
  /\ forall ref obj,
       (fold_left (sweep_object R) l acc).2 !! ref = Some obj <->
       acc.2 !! ref = Some obj
       \/ ((ref, obj) ∈ l
           /\ (ref ∈ R \/ ObjectNumber ref ∈ m_compressedObjectStreams acc.1)).
Proof.
  induction l as [|[r o] l IH]; intros acc Hnd Hfresh.
  - simpl. split; [done|]. intros ref obj. split; [auto|].
    intros [H|[H _]]; [done|]. apply not_elem_of_nil in H as [].
  - simpl in Hnd. apply NoDup_cons in Hnd as [Hr Hnd].
    simpl fold_left.
    assert (Hstep :
      m_compressedObjectStreams (sweep_object R acc (r, o)).1
      = m_compressedObjectStreams acc.1
      /\ (forall ref, ref ∈ l.*1 -> (sweep_object R acc (r, o)).2 !! ref = None)
      /\ forall ref obj,
           (sweep_object R acc (r, o)).2 !! ref = Some obj <->
           acc.2 !! ref = Some obj
           \/ (ref = r /\ obj = o
               /\ (r ∈ R \/ ObjectNumber r ∈ m_compressedObjectStreams acc.1))).
    { unfold sweep_object. simpl.
      destruct (decide ((r ∉ R)
                        ∧ (ObjectNumber r ∉ m_compressedObjectStreams acc.1)))
        as [[Hd1 Hd2]|Hk]; simpl.
      - split; [apply tryAddFreeObject_frame|].
        split; [intros ref Hin; apply Hfresh; simpl; apply elem_of_cons; auto|].
        intros ref obj. split; [auto|]. intros [H|(_ & _ & [H|H])]; done.
      - assert (Hkeep : r ∈ R
                        \/ ObjectNumber r ∈ m_compressedObjectStreams acc.1).
        { destruct (decide (r ∈ R)); [auto|].
          destruct (decide (ObjectNumber r ∈ m_compressedObjectStreams acc.1));
            [auto|]. destruct Hk; done. }
        split; [done|]. split.
        + intros ref Hin. rewrite lookup_insert_ne; [|intros ->; done].
          apply Hfresh. simpl. apply elem_of_cons; auto.
        + intros ref obj. destruct (decide (ref = r)) as [->|Hne].
          * rewrite lookup_insert_eq.
            rewrite (Hfresh r) by (simpl; apply list_elem_of_here).
            split; [intros [= <-]; auto|]. intros [H|(_ & -> & _)]; done.
          * rewrite lookup_insert_ne by done.
            split; [auto|]. intros [H|(-> & _)]; done. }
    destruct Hstep as (Hc & Hf & Hl).
    destruct (IH (sweep_object R acc (r, o)) Hnd Hf) as (IHc & IHl).
    split; [congruence|].
    intros ref obj. rewrite IHl, Hl, Hc. rewrite elem_of_cons.
    split.
    + intros [[H|(-> & -> & H)]|[H1 H2]]; auto.
    + intros [H|[[H|H] H2]]; auto.
      injection H as -> ->. auto.
Qed.

Lemma sweep_fold_free R l : forall acc,
  (free_list_sorted (m_FreeObjects acc.1) ->
   free_list_sorted (m_FreeObjects (fold_left (sweep_object R) l acc).1))
  /\ (forall x, x ∈ m_FreeObjects acc.1 ->
        x ∈ m_FreeObjects (fold_left (sweep_object R) l acc).1)
  /\ forall ref obj, (ref, obj) ∈ l ->
       ref ∉ R -> ObjectNumber ref ∉ m_compressedObjectStreams acc.1 ->
       0 <= GenerationNumber ref + 1 < MaxXRefGenerationNum ->
       mkRef (ObjectNumber ref) (GenerationNumber ref + 1)
         ∈ m_FreeObjects (fold_left (sweep_object R) l acc).1.
Proof.
  induction l as [|[r o] l IH]; intros acc.
  - simpl. split; [auto|]. split; [auto|].
    intros ref obj H. apply not_elem_of_nil in H as [].
  - simpl fold_left.
    destruct (IH (sweep_object R acc (r, o))) as (IH1 & IH2 & IH3).
    assert (Hc : m_compressedObjectStreams (sweep_object R acc (r, o)).1
                 = m_compressedObjectStreams acc.1).
    { unfold sweep_object. simpl. case_match; simpl; [|done].
      apply tryAddFreeObject_frame. }
    split; [|split].
    + intros Hs. apply IH1. unfold sweep_object. simpl.
      case_match; simpl; [|done]. apply tryAddFreeObject_sorted, Hs.
    + intros x Hx. apply IH2. unfold sweep_object. simpl.
      case_match; simpl; [|done]. apply tryAddFreeObject_keeps, Hx.
    + intros ref obj Hin HR Hcs Hg.
      apply elem_of_cons in Hin as [Heq|Hin].
      * injection Heq as -> ->. apply IH2.
        unfold sweep_object. simpl.
        destruct (decide ((r ∉ R)
                          ∧ (ObjectNumber r ∉ m_compressedObjectStreams acc.1)))
          as [_|Hk]; [|destruct Hk; done].
        simpl. unfold SafeAddFreeObject.
        rewrite tryAddFreeObject_below_cap by exact Hg. simpl.
        apply AddFreeObject_elem. auto.
      * apply (IH3 ref obj Hin HR); [|exact Hg]. rewrite Hc. exact Hcs.
Qed.

Lemma objects_in_order_elem objects ref obj :
  (ref, obj) ∈ objects_in_order objects <-> objects !! ref = Some obj.
Proof.
  unfold objects_in_order. rewrite merge_sort_Permutation.
  apply elem_of_map_to_list.
Qed.

Lemma objects_in_order_NoDup objects : NoDup (objects_in_order objects).*1.
Proof.
  unfold objects_in_order. rewrite merge_sort_Permutation.
  apply NoDup_fst_map_to_list.
Qed.

Lemma sweep_objects R st ref obj :
  m_Objects (sweep R st) !! ref = Some obj <->
  m_Objects st !! ref = Some obj
  /\ (ref ∈ R \/ ObjectNumber ref ∈ m_compressedObjectStreams st).
Proof.
  unfold sweep. simpl.
  destruct (sweep_fold_objects R (objects_in_order (m_Objects st)) (st, ∅)
              (objects_in_order_NoDup _)) as (_ & H).
  { intros r _. apply lookup_empty. }
  rewrite H. simpl. rewrite lookup_empty, objects_in_order_elem.
  split; [intros [?|?]; done|auto].
Qed.

Lemma streams_in_order_elem streams objId :
  objId ∈ streams_in_order streams <-> objId ∈ streams.
Proof.
  unfold streams_in_order. rewrite merge_sort_Permutation.
  apply elem_of_elements.
Qed.

Lemma live_hereditary st trailer : hereditary (m_Objects st) (live st trailer).
Proof. intros r o r' Hr Ho Hin. exact (live_child _ _ r o r' Hr Ho Hin). Qed.

Lemma pending_start objects :
  (pending objects ∅ <= size objects)%nat.
Proof.
  unfold pending. rewrite <- (size_dom (D := gset PdfReference)).
  apply subseteq_size. intros x Hx.
  apply elem_of_difference in Hx as [Hx _]. exact Hx.
Qed.

(** The set [CollectGarbage] marks is the set of live references. *)
Lemma marked_is_live st trailer referenced :
  match visitObject (size (m_Objects st)) (m_Objects st) trailer ∅ with
  | Some s =>
      visit_streams (size (m_Objects st)) (m_Objects st)
        (streams_in_order (m_compressedObjectStreams st)) s
  | None => None
  end = Some (Valid referenced) ->
  forall ref, ref ∈ referenced <-> live st trailer ref.
Proof.
  destruct (visitObject _ _ trailer ∅) as [s|] eqn:Hv; [|discriminate].
  intros Hs ref.
  pose proof (visitObject_visited _ _ _ _ _ Hv) as Hvis.
  assert (Hcl : closed (m_Objects st) s).
  { apply (visited_closed (m_Objects st) (references trailer) ∅ s);
      [|exact Hvis].
    intros r o Hr. apply not_elem_of_empty in Hr as []. }
  destruct (visit_streams_visited _ _ _ _ _ Hcl Hs)
    as (Hsub & Hclosed & Hroots).
  split.
  - revert ref.
    apply (visit_streams_within (m_Objects st) (live st trailer)
             (live_hereditary st trailer) (size (m_Objects st))
             (streams_in_order (m_compressedObjectStreams st))
             s referenced); [| |exact Hs].
    + apply (visitObject_within _ _ (live_hereditary st trailer) _ _ _ _ Hv).
      * intros r Hr. apply live_trailer, Hr.
      * intros r Hr. apply not_elem_of_empty in Hr as [].
    + intros objId obj Hin Ho r Hr.
      apply (live_stream st trailer objId obj r); [|exact Ho|exact Hr].
      apply streams_in_order_elem, Hin.
  - induction 1 as [r Hr|objId obj r Hin Ho Hr|parent obj r _ IH Ho Hr].
    + apply Hsub. destruct Hvis as (_ & Hroot & _). apply Hroot, Hr.
    + apply (Hroots objId obj); [|exact Ho|exact Hr].
      apply streams_in_order_elem, Hin.
    + apply (Hclosed parent obj IH (not_elem_of_empty _) Ho), Hr.
Qed.

End CollectorFacts.

Section CollectorTheorems.

Import IndirectObjectList.

Lemma CollectGarbage_returns st trailer :
  (forall objId, objId ∈ m_compressedObjectStreams st ->
     is_Some (GetObject (mkRef objId 0) st)) ->
  exists referenced,
    CollectGarbage (Some trailer) st = Some (Valid (sweep referenced st))
    /\ forall ref, ref ∈ referenced <-> live st trailer ref.
Proof.
  intros Hstreams.
  pose proof (marked_is_live st trailer) as Hlive.
  unfold CollectGarbage.
  destruct (visitObject_returns (m_Objects st) (size (m_Objects st)) trailer ∅
              (pending_start _)) as [s Hv].
  rewrite Hv in *.
  destruct (visit_streams_returns (m_Objects st) (size (m_Objects st))
              (streams_in_order (m_compressedObjectStreams st)) s)
    as [referenced Hs].
  - apply visitObject_visited in Hv as (Hsub & _).
    pose proof (pending_mono (m_Objects st) _ _ Hsub).
    pose proof (pending_start (m_Objects st)). lia.
  - intros objId Hin. apply Hstreams, streams_in_order_elem, Hin.
  - rewrite Hs in *. exists referenced. split; [reflexivity|].
    apply Hlive. reflexivity.
Qed.

(** X8: garbage collection keeps exactly the live objects and the
    compressed object streams.  When every compressed object stream has
    its generation-0 object in the store, [CollectGarbage] returns, and an
    object is in the store afterwards exactly when it was there before and
    its reference is live (written in the trailer, in a compressed object
    stream, or in an object that is itself live) or its object number is
    that of a compressed object stream; the objects kept are unchanged. *)
Theorem collect_garbage_keeps_exactly_live st trailer :
  (forall objId, objId ∈ m_compressedObjectStreams st ->
     is_Some (GetObject (mkRef objId 0) st)) ->
  exists st',
    CollectGarbage (Some trailer) st = Some (Valid st')
    /\ forall ref obj,
         GetObject ref st' = Some obj <->
         GetObject ref st = Some obj
         /\ (live st trailer ref
             \/ ObjectNumber ref ∈ m_compressedObjectStreams st).
Proof.
  intros Hstreams.
  destruct (CollectGarbage_returns st trailer Hstreams)
    as (referenced & Hrun & Hlive).
  exists (sweep referenced st). split; [exact Hrun|].
  intros ref obj. unfold GetObject. rewrite sweep_objects, Hlive. reflexivity.
Qed.

(** X9: garbage collection hands the numbers of the objects it deletes
    to the free list.  Under the same condition, the free list stays
    sorted and keeps its members, the set of compressed object streams is
    unchanged, and every deleted object whose generation is below 65534
    has its number on the free list with the next generation. *)
Theorem collect_garbage_frees_deleted st trailer :
  (forall objId, objId ∈ m_compressedObjectStreams st ->
     is_Some (GetObject (mkRef objId 0) st)) ->
  free_list_sorted (m_FreeObjects st) ->
  exists st',
    CollectGarbage (Some trailer) st = Some (Valid st')
    /\ free_list_sorted (m_FreeObjects st')
    /\ (forall ref, ref ∈ m_FreeObjects st -> ref ∈ m_FreeObjects st')
    /\ m_compressedObjectStreams st' = m_compressedObjectStreams st
    /\ forall ref obj,
         GetObject ref st = Some obj -> GetObject ref st' = None ->
         0 <= GenerationNumber ref < MaxXRefGenerationNum - 1 ->
         mkRef (ObjectNumber ref) (GenerationNumber ref + 1)
           ∈ m_FreeObjects st'.
Proof.
  intros Hstreams Hsorted.
  destruct (CollectGarbage_returns st trailer Hstreams)
    as (referenced & Hrun & Hlive).
  exists (sweep referenced st). split; [exact Hrun|].
  destruct (sweep_fold_free referenced (objects_in_order (m_Objects st))
              (st, ∅)) as (H1 & H2 & H3).
  destruct (sweep_fold_objects referenced (objects_in_order (m_Objects st))
              (st, ∅) (objects_in_order_NoDup _)) as (H4 & _).
  { intros r _. apply lookup_empty. }
  unfold sweep at 1 2 3. simpl.
  split; [exact (H1 Hsorted)|]. split; [exact H2|]. split; [exact H4|].
  intros ref obj Hbefore Hafter Hgen.
  assert (Hdel : ~ (ref ∈ referenced
                    \/ ObjectNumber ref ∈ m_compressedObjectStreams st)).
  { intros Hkeep.
    assert (m_Objects (sweep referenced st) !! ref = Some obj) as Hin
      by (apply sweep_objects; auto).
    unfold GetObject in Hafter. congruence. }
  apply (H3 ref obj).
  - apply objects_in_order_elem, Hbefore.
  - intros Hin. apply Hdel. auto.
  - intros Hin. apply Hdel. auto.
  - lia.
Qed.

(** X10: a compressed object stream without its object.  When the set of
    compressed object streams names a number whose generation-0 object is
    not in the store and whose reference is not live, [CollectGarbage]
    dereferences the null pointer [GetObject] returned. *)
Theorem collect_garbage_missing_stream st trailer objId :
  objId ∈ m_compressedObjectStreams st ->
  GetObject (mkRef objId 0) st = None ->
  ~ live st trailer (mkRef objId 0) ->
  CollectGarbage (Some trailer) st = Some NullPointer.
Proof.
  intros Hin Hnone Hdead. unfold CollectGarbage.
  destruct (visitObject_returns (m_Objects st) (size (m_Objects st)) trailer ∅
              (pending_start _)) as [s Hv].
  rewrite Hv.
  rewrite (visit_streams_null (m_Objects st) (live st trailer)
             (live_hereditary st trailer) (size (m_Objects st))
             (streams_in_order (m_compressedObjectStreams st)) s);
    [reflexivity| | | |].
  - pose proof (visitObject_visited _ _ _ _ _ Hv) as (Hsub & _).
    pose proof (pending_mono (m_Objects st) _ _ Hsub).
    pose proof (pending_start (m_Objects st)). lia.
  - apply (visitObject_within _ _ (live_hereditary st trailer) _ _ _ _ Hv).
    + intros r Hr. apply live_trailer, Hr.
    + intros r Hr. apply not_elem_of_empty in Hr as [].
  - intros i obj Hi Ho r Hr.
    apply (live_stream st trailer i obj r); [|exact Ho|exact Hr].
    apply streams_in_order_elem, Hi.
  - exists objId. split; [apply streams_in_order_elem, Hin|]. split; done.
Qed.

End CollectorTheorems.

Lemma collect_garbage_keeps_exactly_live_witness :
  exists st',
    IndirectObjectList.CollectGarbage (Some sample_trailer) sample_document
    = Some (IndirectObjectList.Valid st')
    /\ forall ref obj,
         IndirectObjectList.GetObject ref st' = Some obj <->
         IndirectObjectList.GetObject ref sample_document = Some obj
         /\ (live sample_document sample_trailer ref
             \/ ObjectNumber ref
                ∈ IndirectObjectList.m_compressedObjectStreams sample_document).
Proof.
  apply (collect_garbage_keeps_exactly_live sample_document sample_trailer).
  intros objId Hin.
  change (objId ∈ ({[ 5 ]} ∪ ∅ : gset Z)) in Hin.
  apply elem_of_union in Hin as [Hin|Hin];
    [|apply not_elem_of_empty in Hin as []].
  apply elem_of_singleton in Hin as ->.
  vm_compute. eauto.
Defined.

Lemma collect_garbage_frees_deleted_witness :
  exists st',
    IndirectObjectList.CollectGarbage (Some sample_trailer) sample_document
    = Some (IndirectObjectList.Valid st')
    /\ free_list_sorted (IndirectObjectList.m_FreeObjects st')
    /\ (forall ref,
          ref ∈ IndirectObjectList.m_FreeObjects sample_document ->
          ref ∈ IndirectObjectList.m_FreeObjects st')
    /\ IndirectObjectList.m_compressedObjectStreams st'
       = IndirectObjectList.m_compressedObjectStreams sample_document
    /\ forall ref obj,
         IndirectObjectList.GetObject ref sample_document = Some obj ->
         IndirectObjectList.GetObject ref st' = None ->
         0 <= GenerationNumber ref
              < IndirectObjectList.MaxXRefGenerationNum - 1 ->
         mkRef (ObjectNumber ref) (GenerationNumber ref + 1)
           ∈ IndirectObjectList.m_FreeObjects st'.
Proof.
  apply (collect_garbage_frees_deleted sample_document sample_trailer).
  - intros objId Hin.
    change (objId ∈ ({[ 5 ]} ∪ ∅ : gset Z)) in Hin.
    apply elem_of_union in Hin as [Hin|Hin];
      [|apply not_elem_of_empty in Hin as []].
    apply elem_of_singleton in Hin as ->.
    vm_compute. eauto.
  - constructor.
Defined.

Lemma collect_garbage_missing_stream_witness :
  IndirectObjectList.CollectGarbage (Some sample_trailer) sample_missing_stream
  = Some IndirectObjectList.NullPointer.
Proof.
  apply (collect_garbage_missing_stream sample_missing_stream sample_trailer 8).
  - change (8 ∈ ({[ 8 ]} ∪ ∅ : gset Z)).
    apply elem_of_union_l, elem_of_singleton_2. reflexivity.
  - vm_compute. reflexivity.
  - assert (Hall : forall r, live sample_missing_stream sample_trailer r ->
                     r = mkRef 1 0).
    { induction 1 as [r Hr|objId obj r Hin Ho _|parent obj r _ IH Ho Hr].
      - change (r ∈ ({[ mkRef 1 0 ]} ∪ ∅ : gset PdfReference)) in Hr.
        apply elem_of_union in Hr as [Hr|Hr];
          [|apply not_elem_of_empty in Hr as []].
        apply elem_of_singleton in Hr. exact Hr.
      - change (objId ∈ ({[ 8 ]} ∪ ∅ : gset Z)) in Hin.
        apply elem_of_union in Hin as [Hin|Hin];
          [|apply not_elem_of_empty in Hin as []].
        apply elem_of_singleton in Hin. subst objId.
        vm_compute in Ho. discriminate.
      - subst parent. vm_compute in Ho. injection Ho as <-.
        apply not_elem_of_empty in Hr as []. }
    intros Hlive. apply Hall in Hlive. discriminate.
Defined.

(** * Properties of the magic word and of the end-of-file marker *)

Section MagicFacts.

Import CString Parser Parser.OnDevice.

#[local] Arguments Ascii.eqb : simpl never.

Lemma cursor_cases i : 0 <= i <= 4 -> i = 0 \/ i = 1 \/ i = 2 \/ i = 3 \/ i = 4.
Proof. lia. Qed.

Lemma ReadMagicWord_cursor ch i :
  0 <= i <= 4 ->
  exists found i', ReadMagicWord ch i = Ok (found, i') /\ 0 <= i' <= 4.
Proof.
  intros Hi. unfold ReadMagicWord.
  destruct (cursor_cases i Hi) as [->|[->|[->|[->| ->]]]]; simpl;
    destruct (Ascii.eqb ch _); eexists _, _; (split; [reflexivity|]);
    vm_compute; split; congruence.
Qed.

Lemma read_magic_never_raises rest : forall i count e,
  0 <= i <= 4 -> (read_magic rest i count).2 <> Raise e.
Proof.
  induction rest as [|ch rest IH]; intros i count e Hi; simpl; [done|].
  destruct (ReadMagicWord_cursor ch i Hi) as (found & i' & -> & Hi').
  destruct found; [done|]. apply IH, Hi'.
Qed.

Lemma read_magic_sound rest : forall pre i count n,
  0 <= i <= 4 ->
  count = Z.of_nat (length pre) ->
  take (Z.to_nat i) magic_word `suffix_of` pre ->
  read_magic rest i count = (n, Ok true) ->
  exists a b, pre ++ rest = a ++ magic_word ++ b
              /\ n = Z.of_nat (length a) + 5.
Proof.
  induction rest as [|ch rest IH]; intros pre i count n Hi Hc Hs H;
    simpl in H; [discriminate|].
  assert (Hnext : forall i', 0 <= i' <= 4 ->
            take (Z.to_nat i') magic_word `suffix_of` (pre ++ [ch]) ->
            read_magic rest i' (count + 1) = (n, Ok true) ->
            exists a b, pre ++ ch :: rest = a ++ magic_word ++ b
                        /\ n = Z.of_nat (length a) + 5).
  { intros i' Hi' Hs' H'.
    destruct (IH (pre ++ [ch]) i' (count + 1) n Hi') as (a & b & Hab & Hn);
      [rewrite length_app; simpl; lia|exact Hs'|exact H'|].
    exists a, b. split; [|exact Hn]. rewrite <- Hab, <- app_assoc. done. }
  assert (Hreset : take (Z.to_nat 0) magic_word `suffix_of` (pre ++ [ch])).
  { simpl. apply suffix_nil. }
  destruct Hs as [pre0 Hpre].
  unfold ReadMagicWord in H.
  destruct (cursor_cases i Hi) as [->|[->|[->|[->| ->]]]]; simpl in H;
    match type of H with
    | context [Ascii.eqb ch ?c] =>
        destruct (Ascii.eqb_spec ch c) as [->|Hne]
    end;
    try (apply (Hnext 0); [lia|exact Hreset|exact H]).
  - apply (Hnext 1); [lia| |exact H]. exists pre. done.
  - apply (Hnext 2); [lia| |exact H]. exists pre0.
    rewrite Hpre, <- app_assoc. done.
  - apply (Hnext 3); [lia| |exact H]. exists pre0.
    rewrite Hpre, <- app_assoc. done.
  - apply (Hnext 4); [lia| |exact H]. exists pre0.
    rewrite Hpre, <- app_assoc. done.
  - injection H as <-. exists pre0, rest. split.
    + rewrite Hpre, <- app_assoc. done.
    + rewrite Hc, Hpre, length_app. simpl. lia.
Qed.

Lemma read_magic_no_percent junk : forall rest count,
  no_percent junk ->
  read_magic (junk ++ rest) 0 count
  = read_magic rest 0 (count + Z.of_nat (length junk)).
Proof.
  induction junk as [|ch junk IH]; intros rest count Hj; simpl.
  - f_equal. lia.
  - apply Forall_cons in Hj as [Hch Hj].
    unfold ReadMagicWord. simpl.
    destruct (Ascii.eqb_spec ch "%"%char) as [->|_]; [done|].
    rewrite IH by exact Hj. f_equal. lia.
Qed.

Lemma read_magic_word rest count :
  read_magic (magic_word ++ rest) 0 count = (count + 5, Ok true).
Proof. simpl. f_equal. lia. Qed.

Lemma token_at_middle (a token b : list ascii) :
  token_at (a ++ token ++ b) token (length a).
Proof.
  unfold token_at. rewrite drop_app_length. apply take_app_length.
Qed.

(** X11: the magic offset points at the magic word.  [IsPdfFile] never
    raises (the cursor of [ReadMagicWord] stays within 0..4), and when it
    returns true the bytes [%PDF-] stand at the offset it has recorded in
    [m_magicOffset], and the version it has recorded is the recognised
    version written in the three bytes that follow them. *)
Theorem magic_offset_points_at_magic_word device p :
  Z.of_nat (length (dev_data device)) < 2 ^ 64 ->
  exists device' p' found,
    IsPdfFile device p = (device', p', Ok found)
    /\ (found = true ->
        let k := Z.to_nat (m_magicOffset p') in
        token_at (dev_data device) magic_word k
        /\ m_PdfVersion p'
           = GetPdfVersion (take 3 (drop (k + 5) (dev_data device)))
        /\ m_PdfVersion p' <> VersionUnknown).
Proof.
  intros Hlen. unfold IsPdfFile. simpl.
  destruct (read_magic (dev_data device) 0 0) as [n [found|e]] eqn:Hscan;
    simpl.
  2:{ exfalso. apply (read_magic_never_raises (dev_data device) 0 0 e);
        [lia|]. rewrite Hscan. reflexivity. }
  destruct found; [|eexists _, _, _; split; [reflexivity|discriminate]].
  apply (read_magic_sound _ [] 0 0) in Hscan
    as (a & b & Hdata & ->); [|lia|reflexivity|apply suffix_nil].
  change ([] ++ dev_data device) with (dev_data device) in Hdata.
  unfold Read, GetPosition. simpl.
  set (versionStr := take (Z.to_nat PDF_VERSION_LENGHT)
                          (drop (Z.to_nat (Z.of_nat (length a) + 5))
                                (dev_data device))).
  destruct (Z.eqb_spec (Z.of_nat (length versionStr)) PDF_VERSION_LENGHT)
    as [Hv|Hv]; simpl;
    [|eexists _, _, _; split; [reflexivity|discriminate]].
  assert (Hoff : wrap64 (Z.of_nat (length a) + 5
                         + Z.of_nat (length versionStr) - PDF_MAGIC_LENGHT)
                 = Z.of_nat (length a)).
  { rewrite Hv. unfold PDF_VERSION_LENGHT, PDF_MAGIC_LENGHT, wrap64.
    replace (Z.of_nat (length a) + 5 + 3 - 8) with (Z.of_nat (length a))
      by lia.
    apply Z.mod_small. rewrite Hdata, !length_app in Hlen. lia. }
  rewrite Hoff.
  assert (Hfacts :
    token_at (dev_data device) magic_word (length a)
    /\ versionStr
       = take 3 (drop (length a + 5) (dev_data device))).
  { split.
    - rewrite Hdata. apply token_at_middle.
    - unfold versionStr, PDF_VERSION_LENGHT. do 2 f_equal. lia. }
  destruct Hfacts as [Htok Hver].
  destruct (GetPdfVersion versionStr) eqn:Hversion;
    eexists _, _, _; (split; [reflexivity|]); try discriminate;
    intros _; simpl; rewrite Nat2Z.id, <- Hver, Hversion;
    (split; [exact Htok|]); (split; [reflexivity|discriminate]).
Qed.

(** X12: leading garbage.  When the file is some bytes without [%],
    then [%PDF-], then three bytes, [IsPdfFile] records the number of
    leading bytes as the magic offset and the version the three bytes
    name, and returns whether that version is a recognised one. *)
Theorem magic_word_after_garbage junk version rest device p :
  dev_data device = junk ++ magic_word ++ version ++ rest ->
  length version = 3%nat ->
  no_percent junk ->
  Z.of_nat (length (dev_data device)) < 2 ^ 64 ->
  exists device',
    IsPdfFile device p
    = (device',
       set_magic (Z.of_nat (length junk)) (GetPdfVersion version) p,
       Ok (match GetPdfVersion version with
           | VersionUnknown => false
           | _ => true
           end)).
Proof.
  intros Hdata Hv Hjunk Hlen. unfold IsPdfFile, Seek.
  cbn [dev_data dev_pos].
  rewrite Hdata, read_magic_no_percent, read_magic_word by exact Hjunk.
  unfold Read, GetPosition. cbn [fst snd dev_data dev_pos].
  assert (Hdrop : drop (Z.to_nat (0 + Z.of_nat (length junk) + 5))
                       (junk ++ magic_word ++ version ++ rest)
                  = version ++ rest).
  { replace (Z.to_nat (0 + Z.of_nat (length junk) + 5))
      with (length junk + length magic_word)%nat
      by (change (length magic_word) with 5%nat; lia).
    rewrite <- drop_drop, drop_app_length. apply drop_app_length. }
  rewrite Hdrop.
  assert (Htake : take (Z.to_nat PDF_VERSION_LENGHT) (version ++ rest)
                  = version).
  { change (Z.to_nat PDF_VERSION_LENGHT) with 3%nat. rewrite <- Hv.
    apply take_app_length. }
  rewrite Htake, Hv.
  change (negb (Z.of_nat 3 =? PDF_VERSION_LENGHT)) with false.
  cbn [dev_pos].
  assert (Hoff : wrap64 (0 + Z.of_nat (length junk) + 5 + Z.of_nat 3
                         - PDF_MAGIC_LENGHT)
                 = Z.of_nat (length junk)).
  { unfold PDF_MAGIC_LENGHT, wrap64.
    replace (0 + Z.of_nat (length junk) + 5 + Z.of_nat 3 - 8)
      with (Z.of_nat (length junk)) by lia.
    apply Z.mod_small. rewrite Hdata, !length_app in Hlen. lia. }
  rewrite Hoff.
  destruct (GetPdfVersion version); eexists; reflexivity.
Qed.

(** X13: a magic word that follows the beginning of one is missed.  The
    cursor of [ReadMagicWord] falls back to 0 on a byte that does not
    continue the word, without looking at that byte again: in a file whose
    only [%PDF-] directly follows one to four bytes that begin the word
    ([%], [%P], [%PD] or [%PDF]), and that holds no other [%], [IsPdfFile]
    finds no magic word and returns false, the parser being left as it
    was. *)
Theorem magic_word_after_percent_is_missed junk begun rest device p :
  dev_data device = junk ++ take begun magic_word ++ magic_word ++ rest ->
  (1 <= begun <= 4)%nat ->
  no_percent junk ->
  no_percent rest ->
  exists device', IsPdfFile device p = (device', p, Ok false).
Proof.
  intros Hdata Hbegun Hjunk Hrest. unfold IsPdfFile. simpl.
  rewrite Hdata, read_magic_no_percent by exact Hjunk.
  assert (Hscan : forall count,
            read_magic (take begun magic_word ++ magic_word ++ rest) 0 count
            = (count + Z.of_nat begun + 5 + Z.of_nat (length rest),
               Ok false)).
  { intros count.
    assert (begun = 1 \/ begun = 2 \/ begun = 3 \/ begun = 4)%nat
      as [->|[->|[->| ->]]] by lia; simpl;
      rewrite <- (app_nil_r rest) at 1;
      rewrite read_magic_no_percent by exact Hrest; simpl; f_equal; lia. }
  rewrite Hscan. simpl. eexists. reflexivity.
Qed.

End MagicFacts.

Lemma magic_offset_points_at_magic_word_witness :
  exists device' p' found,
    Parser.OnDevice.IsPdfFile sample_garbage_file Parser.new_parser
    = (device', p', Ok found)
    /\ (found = true ->
        let k := Z.to_nat (Parser.m_magicOffset p') in
        token_at (Parser.dev_data sample_garbage_file) magic_word k
        /\ Parser.m_PdfVersion p'
           = Parser.OnDevice.GetPdfVersion
               (take 3 (drop (k + 5) (Parser.dev_data sample_garbage_file)))
        /\ Parser.m_PdfVersion p' <> Parser.VersionUnknown).
Proof.
  apply (magic_offset_points_at_magic_word sample_garbage_file).
  vm_compute. reflexivity.
Defined.

Lemma magic_word_after_garbage_witness :
  exists device',
    Parser.OnDevice.IsPdfFile sample_garbage_file Parser.new_parser
    = (device', Parser.set_magic 12 Parser.V1_7 Parser.new_parser, Ok true).
Proof.
  apply (magic_word_after_garbage (CString.chars "leading junk")
           (CString.chars "1.7") (CString.chars " body %%EOF trailing")
           sample_garbage_file Parser.new_parser).
  - reflexivity.
  - reflexivity.
  - repeat constructor; discriminate.
  - vm_compute. reflexivity.
Defined.

Lemma magic_word_after_percent_is_missed_witness :
  exists device',
    Parser.OnDevice.IsPdfFile
      (Parser.mkDevice (CString.chars "%%PDF-1.7 body") 0) Parser.new_parser
    = (device', Parser.new_parser, Ok false).
Proof.
  apply (magic_word_after_percent_is_missed [] 1
           (CString.chars "1.7 body")).
  - reflexivity.
  - lia.
  - constructor.
  - repeat constructor; discriminate.
Defined.

Section MarkerFacts.

Import CString Parser Parser.OnDevice.

#[local] Arguments Ascii.eqb : simpl never.

Lemma EOFToken_no_NUL : no_NUL EOFToken.
Proof. repeat constructor. Qed.

Lemma marker_read data pos :
  let r := Read EOFTokenLen (mkDevice data (Z.of_nat pos)) in
  dev_data r.2 = data
  /\ (strncmp_eq (Z.to_nat EOFTokenLen) r.1 EOFToken = true
      <-> token_at data EOFToken pos)
  /\ (token_at data EOFToken pos -> dev_pos r.2 = Z.of_nat pos + 5).
Proof.
  unfold Read. cbn [fst snd dev_data dev_pos]. rewrite Nat2Z.id.
  change (Z.to_nat EOFTokenLen) with (length EOFToken).
  split; [reflexivity|]. split.
  - rewrite (strncmp_eq_token EOFToken _ EOFToken_no_NUL).
    unfold token_at. rewrite take_take, Nat.min_id. reflexivity.
  - unfold token_at. intros ->. reflexivity.
Qed.

Lemma token_at_bound data token pos :
  token_at data token pos -> (pos + length token <= length data)%nat
                             \/ token = [].
Proof.
  unfold token_at. intros H.
  destruct token as [|c token]; [auto|]. left.
  apply (f_equal length) in H. rewrite length_take, length_drop in H.
  cbn [length] in *. lia.
Qed.

Lemma search_marker_spec data n :
  let r := search_marker n (mkDevice data (Z.of_nat n)) in
  (r.2 = true
   /\ exists k, (k <= n)%nat
        /\ token_at data EOFToken k
        /\ dev_pos r.1 = Z.of_nat k + 5
        /\ forall j, (k < j <= n)%nat -> ~ token_at data EOFToken j)
  \/ (r.2 = false /\ forall j, (j <= n)%nat -> ~ token_at data EOFToken j).
Proof.
  induction n as [|n IH]; cbn [search_marker].
  - destruct (marker_read data O) as (Hd & Hm & Hp).
    destruct (Read EOFTokenLen (mkDevice data (Z.of_nat 0)))
      as [buff device1].
    cbn [fst snd] in *.
    destruct (strncmp_eq (Z.to_nat EOFTokenLen) buff EOFToken) eqn:E;
      cbn [fst snd].
    + left. split; [reflexivity|]. exists O.
      pose proof (proj1 Hm eq_refl) as Htok.
      split; [lia|]. split; [exact Htok|]. split; [exact (Hp Htok)|].
      intros j Hj. lia.
    + right. split; [reflexivity|]. intros j Hj Htok.
      assert (j = O) as -> by lia.
      apply Hm in Htok. discriminate.
  - destruct (marker_read data (S n)) as (Hd & Hm & Hp).
    destruct (Read EOFTokenLen (mkDevice data (Z.of_nat (S n))))
      as [buff device1].
    cbn [fst snd] in *.
    destruct (strncmp_eq (Z.to_nat EOFTokenLen) buff EOFToken) eqn:E;
      cbn [fst snd].
    + left. split; [reflexivity|]. exists (S n).
      pose proof (proj1 Hm eq_refl) as Htok.
      split; [lia|]. split; [exact Htok|]. split; [exact (Hp Htok)|].
      intros j Hj. lia.
    + unfold Seek. rewrite Hd.
      destruct IH as [(Hf & k & Hk & Htok & Hpos & Hlast)|(Hf & Hnone)].
      * left. split; [exact Hf|]. exists k.
        split; [lia|]. split; [exact Htok|]. split; [exact Hpos|].
        intros j Hj. destruct (decide (j = S n)) as [->|Hne].
        -- intros Hj'. apply Hm in Hj'. discriminate.
        -- apply Hlast. lia.
      * right. split; [exact Hf|]. intros j Hj.
        destruct (decide (j = S n)) as [->|Hne].
        -- intros Hj'. apply Hm in Hj'. discriminate.
        -- apply Hnone. lia.
Qed.

Lemma marker_seek device :
  5 <= Z.of_nat (length (dev_data device)) < 2 ^ 63 ->
  Seek (- to_ssize EOFTokenLen) SeekEnd device
  = mkDevice (dev_data device)
             (Z.of_nat (length (dev_data device) - 5)).
Proof.
  intros Hlen. unfold Seek. f_equal.
  change (to_ssize EOFTokenLen) with 5. lia.
Qed.

(** X14: the end-of-file marker, leniently.  On a device of at least
    five bytes and outside strict parsing, [checkEOFMarker] records in
    [m_lastEOFOffset] the offset of the last occurrence of [%%EOF] in the
    file, whatever follows it; it raises [InvalidEOFToken], leaving the
    member at 0, exactly when the file holds no occurrence at all. *)
Theorem eof_marker_is_last_occurrence device p :
  m_StrictParsing p = false ->
  5 <= Z.of_nat (length (dev_data device)) < 2 ^ 63 ->
  (exists device' k,
     checkEOFMarker device p
     = (device', set_lastEOFOffset (Z.of_nat k) p, Ok tt)
     /\ token_at (dev_data device) EOFToken k
     /\ forall j, (k < j)%nat -> ~ token_at (dev_data device) EOFToken j)
  \/ (exists device',
        checkEOFMarker device p
        = (device', set_lastEOFOffset 0 p, Raise InvalidEOFToken)
        /\ forall j, ~ token_at (dev_data device) EOFToken j).
Proof.
  intros Hstrict Hlen. unfold checkEOFMarker.
  rewrite (marker_seek device Hlen).
  change (m_StrictParsing (set_lastEOFOffset 0 p)) with (m_StrictParsing p).
  rewrite Hstrict. unfold GetPosition. cbn [dev_pos].
  set (n := (length (dev_data device) - 5)%nat).
  assert (Hn : Z.to_nat (to_ssize (Z.of_nat n)) = n).
  { unfold to_ssize, wrap64.
    rewrite Z.mod_small by (unfold n; lia).
    destruct (Z.ltb_spec (Z.of_nat n) (2 ^ 63)); [|unfold n in *; lia].
    apply Nat2Z.id. }
  rewrite Hn.
  assert (Hbeyond : forall j, (n < j)%nat ->
            ~ token_at (dev_data device) EOFToken j).
  { intros j Hj Htok. apply token_at_bound in Htok as [Htok|Htok];
      [|discriminate].
    change (length EOFToken) with 5%nat in Htok. unfold n in Hj. lia. }
  destruct (search_marker_spec (dev_data device) n)
    as [(Hf & k & Hk & Htok & Hpos & Hlast)|(Hf & Hnone)];
    destruct (search_marker n (mkDevice (dev_data device) (Z.of_nat n)))
      as [device1 found]; cbn [fst snd] in *; subst found.
  - left. exists device1, k. split; [|split; [exact Htok|]].
    + rewrite Hpos. unfold EOFTokenLen, wrap64.
      replace (Z.of_nat k + 5 - 5) with (Z.of_nat k) by lia.
      rewrite Z.mod_small by (unfold n in Hk; lia). reflexivity.
    + intros j Hj. destruct (le_lt_dec j n) as [Hle|Hgt].
      * apply Hlast. lia.
      * apply Hbeyond, Hgt.
  - right. exists device1. split; [reflexivity|].
    intros j. destruct (le_lt_dec j n) as [Hle|Hgt].
    + apply Hnone, Hle.
    + apply Hbeyond, Hgt.
Qed.

(** X15: the end-of-file marker, strictly.  On a device of at least five
    bytes and under strict parsing, [checkEOFMarker] succeeds exactly when
    [%%EOF] is the last five bytes of the file, and raises
    [InvalidEOFToken] otherwise; in both cases [m_lastEOFOffset] is left
    at 0, not at the offset of the marker. *)
Theorem eof_marker_strict_is_at_end device p :
  m_StrictParsing p = true ->
  5 <= Z.of_nat (length (dev_data device)) < 2 ^ 63 ->
  exists device',
    (token_at (dev_data device) EOFToken (length (dev_data device) - 5)
     /\ checkEOFMarker device p = (device', set_lastEOFOffset 0 p, Ok tt))
    \/ (~ token_at (dev_data device) EOFToken (length (dev_data device) - 5)
        /\ checkEOFMarker device p
           = (device', set_lastEOFOffset 0 p, Raise InvalidEOFToken)).
Proof.
  intros Hstrict Hlen. unfold checkEOFMarker.
  rewrite (marker_seek device Hlen).
  change (m_StrictParsing (set_lastEOFOffset 0 p)) with (m_StrictParsing p).
  rewrite Hstrict.
  destruct (marker_read (dev_data device) (length (dev_data device) - 5))
    as (_ & Hm & _).
  destruct (Read EOFTokenLen _) as [buff device1]. cbn [fst snd] in *.
  exists device1.
  destruct (strncmp_eq (Z.to_nat EOFTokenLen) buff EOFToken) eqn:E.
  - left. split; [apply Hm; reflexivity|reflexivity].
  - right. split; [|reflexivity]. intros Htok. apply Hm in Htok.
    discriminate.
Qed.

End MarkerFacts.

Lemma eof_marker_is_last_occurrence_witness :
  (exists device' k,
     Parser.OnDevice.checkEOFMarker sample_garbage_file Parser.new_parser
     = (device', Parser.set_lastEOFOffset (Z.of_nat k) Parser.new_parser, Ok tt)
     /\ token_at (Parser.dev_data sample_garbage_file)
                 Parser.OnDevice.EOFToken k
     /\ forall j, (k < j)%nat ->
          ~ token_at (Parser.dev_data sample_garbage_file)
                     Parser.OnDevice.EOFToken j)
  \/ (exists device',
        Parser.OnDevice.checkEOFMarker sample_garbage_file Parser.new_parser
        = (device', Parser.set_lastEOFOffset 0 Parser.new_parser,
           Raise InvalidEOFToken)
        /\ forall j, ~ token_at (Parser.dev_data sample_garbage_file)
                                Parser.OnDevice.EOFToken j).
Proof.
  apply (eof_marker_is_last_occurrence sample_garbage_file Parser.new_parser).
  - reflexivity.
  - vm_compute. split; [discriminate|reflexivity].
Defined.

Lemma eof_marker_strict_is_at_end_witness :
  let p := Parser.SetStrictParsing true Parser.new_parser in
  exists device',
    (token_at (Parser.dev_data sample_garbage_file) Parser.OnDevice.EOFToken
              (length (Parser.dev_data sample_garbage_file) - 5)
     /\ Parser.OnDevice.checkEOFMarker sample_garbage_file p
        = (device', Parser.set_lastEOFOffset 0 p, Ok tt))
    \/ (~ token_at (Parser.dev_data sample_garbage_file)
                   Parser.OnDevice.EOFToken
                   (length (Parser.dev_data sample_garbage_file) - 5)
        /\ Parser.OnDevice.checkEOFMarker sample_garbage_file p
           = (device', Parser.set_lastEOFOffset 0 p, Raise InvalidEOFToken)).
Proof.
  intros p.
  apply (eof_marker_strict_is_at_end sample_garbage_file p).
  - reflexivity.
  - vm_compute. split; [discriminate|reflexivity].
Defined.

(** * Further properties of the cross-reference walk *)

Section SubsectionFacts.

Import CString Parser.

Lemma read_entry_length magicOffset buffer objIndex entries :
  length (read_entry magicOffset buffer objIndex entries).1 = length entries.
Proof.
  unfold read_entry. destruct (entries !! objIndex) as [entry|]; [|done].
  destruct (entry_Parsed entry); [done|].
  destruct (parse_entry _ _ _); simpl; [apply length_insert|done].
Qed.

Lemma read_entries_length magicOffset records firstObject remaining :
  forall index entries,
    length (read_entries magicOffset records firstObject remaining index
                         entries).1 = length entries.
Proof.
  induction remaining as [|remaining IH]; intros index entries; simpl;
    [done|].
  pose proof (read_entry_length magicOffset (records index)
                (Z.to_nat (wrap32 (firstObject + Z.of_nat index))) entries)
    as Hlen.
  destruct (read_entry _ _ _ _) as [entries' [[]|e]]; simpl in *; [|done].
  rewrite IH. exact Hlen.
Qed.

Lemma read_entries_outside magicOffset records firstObject remaining j :
  forall index entries,
    (forall k, (k < remaining)%nat ->
       j <> Z.to_nat (wrap32 (firstObject + Z.of_nat (index + k)))) ->
    (read_entries magicOffset records firstObject remaining index entries).1
      !! j = entries !! j.
Proof.
  induction remaining as [|remaining IH]; intros index entries Hout; simpl;
    [done|].
  pose proof (read_entry_other_slots magicOffset (records index)
                (Z.to_nat (wrap32 (firstObject + Z.of_nat index))) entries j)
    as Hother.
  destruct (read_entry _ _ _ _) as [entries' [[]|e]]; simpl in *.
  - rewrite IH.
    + apply Hother. specialize (Hout O ltac:(lia)).
      rewrite Nat.add_0_r in Hout. exact Hout.
    + intros k Hk. specialize (Hout (S k) ltac:(lia)).
      replace (S index + k)%nat with (index + S k)%nat by lia. exact Hout.
  - apply Hother. specialize (Hout O ltac:(lia)).
    rewrite Nat.add_0_r in Hout. exact Hout.
Qed.

(** X16: a subsection stays in its range.  For a first object number
    and a count that are not negative and whose sum is below [2^32],
    [ReadXRefSubsection] leaves a table as long as the longer of the old
    table and [first + count], whether it throws or not; a slot outside
    [first .. first + count - 1] that the old table had is as it was, and
    one the old table did not have is unparsed. *)
Theorem subsection_stays_in_range magicOffset records firstObject
    objectCount entries :
  0 <= firstObject -> 0 <= objectCount ->
  firstObject + objectCount < 2 ^ 32 ->
  let entries' :=
    (ReadXRefSubsection magicOffset records firstObject objectCount
                        entries).1 in
  length entries'
  = Nat.max (length entries) (Z.to_nat (firstObject + objectCount))
  /\ forall j,
       (j < Z.to_nat firstObject
        \/ Z.to_nat (firstObject + objectCount) <= j)%nat ->
       entries' !! j
       = if decide (j < length entries)%nat then entries !! j
         else if decide (j < Z.to_nat firstObject)%nat
              then Some unparsed_entry
              else None.
Proof.
  intros Hf Hc Hsum entries'. unfold entries', ReadXRefSubsection.
  destruct (Z.ltb_spec firstObject 0); [lia|].
  destruct (Z.ltb_spec objectCount 0); [lia|].
  destruct (Z.leb_spec (2 ^ 32) (firstObject + objectCount)); [lia|].
  split.
  - rewrite read_entries_length. unfold Enlarge.
    rewrite length_app, length_replicate. lia.
  - intros j Hj. rewrite read_entries_outside.
    + unfold Enlarge.
      destruct (decide (j < length entries)%nat) as [Hin|Hout].
      * apply lookup_app_l, Hin.
      * rewrite lookup_app_r by lia.
        destruct (decide (j < Z.to_nat firstObject)%nat) as [Hlt|Hge].
        -- apply lookup_replicate_2. lia.
        -- apply lookup_ge_None_2. rewrite length_replicate. lia.
    + intros k Hk. unfold wrap32.
      rewrite Z.mod_small by lia. lia.
Qed.

End SubsectionFacts.

Lemma subsection_stays_in_range_witness :
  let entries' :=
    (Parser.ReadXRefSubsection 0 minimal_records 2 2 newest_entries).1 in
  length entries' = Nat.max (length newest_entries) (Z.to_nat (2 + 2))
  /\ forall j,
       (j < Z.to_nat 2 \/ Z.to_nat (2 + 2) <= j)%nat ->
       entries' !! j
       = if decide (j < length newest_entries)%nat then newest_entries !! j
         else if decide (j < Z.to_nat 2)%nat
              then Some unparsed_entry
              else None.
Proof.
  apply (subsection_stays_in_range 0 minimal_records 2 2 newest_entries);
    lia.
Defined.

(** * Records that are not padded *)

Section UnpaddedRecordFacts.

Import CString Parser.

#[local] Arguments Ascii.eqb : simpl never.

Lemma scan_digits_stop ds : forall width c rest count acc,
  all_digits ds -> (length ds <= width)%nat -> isdigit c = false ->
  scan_digits width (ds ++ c :: rest) count acc =
    ((count + length ds)%nat,
     fold_left (fun acc c => 10 * acc + digit_value c) ds acc, c :: rest).
Proof.
  induction ds as [|d ds IH]; intros width c rest count acc Hds Hw Hc.
  - simpl. rewrite Nat.add_0_r. destruct width; [reflexivity|].
    simpl. rewrite Hc. reflexivity.
  - apply Forall_cons in Hds as [Hd Hds].
    destruct width as [|width]; [simpl in Hw; lia|].
    simpl. rewrite Hd. rewrite IH by (done || simpl in Hw; lia).
    do 2 f_equal. lia.
Qed.

(** A conversion takes a run of digits shorter than its width whole
    when a character that is no digit follows. *)
Lemma scan_unsigned_stop bits width ds c rest :
  all_digits ds -> ds <> [] -> (length ds <= width)%nat ->
  isdigit c = false ->
  10 ^ Z.of_nat (length ds) <= 2 ^ bits ->
  scan_unsigned bits width (ds ++ c :: rest)
  = Converted (decimal ds) (c :: rest).
Proof.
  intros Hds Hne Hw Hc Hb. unfold scan_unsigned.
  destruct ds as [|d ds]; [done|]. clear Hne.
  pose proof (Forall_inv Hds) as Hd.
  cbn [app skip_space]. rewrite (isdigit_not_space _ Hd).
  destruct (isdigit_not_sign _ Hd) as [-> ->]. cbn [orb].
  change (d :: ds ++ c :: rest) with ((d :: ds) ++ c :: rest).
  rewrite scan_digits_stop by done.
  cbn [length Nat.add]. fold (decimal (d :: ds)).
  pose proof (decimal_bound _ Hds). rewrite Z.mod_small by lia. done.
Qed.

Lemma entry_type_not_space T :
  CheckXRefEntryType T = true ->
  isspace T = false /\ Ascii.eqb T NUL = false.
Proof.
  intros H. apply CheckXRefEntryType_spec in H as [->| ->];
    split; reflexivity.
Qed.

Lemma sscanf_entry_unpadded ds gs T E1 E2 tail :
  all_digits ds -> ds <> [] -> (length ds <= 10)%nat ->
  all_digits gs -> gs <> [] -> (length gs <= 5)%nat ->
  CheckXRefEntryType T = true -> CheckEOL E1 E2 = true ->
  sscanf_entry (ds ++ SP :: gs ++ SP :: T :: E1 :: E2 :: tail)
  = mkScan 5 (Some (decimal ds)) (Some (decimal gs)) (Some T)
           (Some E1) (Some E2).
Proof.
  intros Hds Hnds Hlds Hgs Hngs Hlgs HT HE. unfold sscanf_entry.
  destruct (entry_type_not_space T HT) as [HTs HTn].
  destruct (CheckEOL_not_NUL E1 E2 HE) as [HE1 HE2].
  rewrite c_str_digits by done. cbn [c_str].
  change (Ascii.eqb SP NUL) with false. cbn match.
  rewrite c_str_digits by done. cbn [c_str].
  change (Ascii.eqb SP NUL) with false. rewrite HTn, HE1, HE2. cbn match.
  rewrite scan_unsigned_stop;
    [|done|done|done|reflexivity|].
  2:{ transitivity (10 ^ 10); [|lia].
      apply Z.pow_le_mono_r; lia. }
  cbn [skip_space]. change (isspace SP) with true. cbn match.
  rewrite skip_space_digits by done.
  rewrite scan_unsigned_stop;
    [|done|done|done|reflexivity|].
  2:{ transitivity (10 ^ 5); [|lia].
      apply Z.pow_le_mono_r; lia. }
  cbn [skip_space]. change (isspace SP) with true. rewrite HTs.
  reflexivity.
Qed.

(** X17: a record need not be padded.  A record whose two numbers are
    written with fewer digits than ten and five (one at least), each
    followed by one space, then [n] or [f] and one of the four accepted
    pairs of end-of-line characters, is accepted like the padded record of
    the same numbers, whatever bytes follow it in the 20 the reader takes
    from the device: an [n] record makes the slot an in-use entry at the
    number plus the magic offset, an [f] record a free entry with the
    number as next free object. *)
Theorem unpadded_record_is_accepted magicOffset ds gs T E1 E2 tail entry :
  all_digits ds -> ds <> [] -> (length ds <= 10)%nat ->
  all_digits gs -> gs <> [] -> (length gs <= 5)%nat ->
  CheckXRefEntryType T = true -> CheckEOL E1 E2 = true ->
  0 <= magicOffset -> magicOffset + 9999999999 <= PTRDIFF_MAX ->
  parse_entry magicOffset (ds ++ SP :: gs ++ SP :: T :: E1 :: E2 :: tail)
              entry
  = Ok (if Ascii.eqb T "f"
        then mkEntry (decimal ds) (entry_Offset entry) (decimal gs)
                     XRefFree true
        else mkEntry (entry_ObjectNumber entry) (decimal ds + magicOffset)
                     (decimal gs) XRefInUse true).
Proof.
  intros Hds Hnds Hlds Hgs Hngs Hlgs HT HE Hm0 Hm. unfold parse_entry.
  assert (Htake : exists tail',
            take PDF_XREF_ENTRY_SIZE
                 (ds ++ SP :: gs ++ SP :: T :: E1 :: E2 :: tail)
            = ds ++ SP :: gs ++ SP :: T :: E1 :: E2 :: tail').
  { exists (take (PDF_XREF_ENTRY_SIZE
                  - length (ds ++ SP :: gs ++ [SP; T; E1; E2]))
                 tail).
    replace (ds ++ SP :: gs ++ SP :: T :: E1 :: E2 :: tail)
      with ((ds ++ SP :: gs ++ [SP; T; E1; E2]) ++ tail)
      by (rewrite <- !app_assoc; simpl; rewrite <- app_assoc; reflexivity).
    rewrite take_app_ge.
    - rewrite <- !app_assoc. simpl. rewrite <- app_assoc. reflexivity.
    - rewrite length_app. simpl. rewrite length_app. simpl.
      unfold PDF_XREF_ENTRY_SIZE. lia. }
  destruct Htake as [tail' ->].
  rewrite sscanf_entry_unpadded by done.
  cbn -[Z.ltb Z.eqb wrap64 CheckEOL CheckXRefEntryType XRefEntryTypeFromChar].
  rewrite HT, HE. cbn [negb orb]. change (5 =? 5) with true. cbn [negb].
  apply CheckXRefEntryType_spec in HT as [->| ->].
  - change (XRefEntryTypeFromChar "n") with XRefInUse.
    change (Ascii.eqb "n" "f") with false. cbn match.
    pose proof (decimal_bound _ Hds) as Hb.
    assert (10 ^ Z.of_nat (length ds) <= 10 ^ 10)
      by (apply Z.pow_le_mono_r; lia).
    unfold PTRDIFF_MAX in *. unfold wrap64.
    rewrite Z.mod_small by lia.
    destruct (Z.ltb_spec (2 ^ 63 - 1) (decimal ds + magicOffset)); [lia|done].
  - reflexivity.
Qed.

End UnpaddedRecordFacts.

Lemma unpadded_record_is_accepted_witness :
  Parser.parse_entry 0 (CString.chars "17 0 n" ++ [CString.CR; CString.LF]
                        ++ CString.chars "18 0 n") unparsed_entry
  = Ok (mkEntry 0 17 0 XRefInUse true).
Proof.
  apply (unpadded_record_is_accepted 0 (CString.chars "17")
           (CString.chars "0") "n" CString.CR CString.LF
           (CString.chars "18 0 n") unparsed_entry).
  - repeat constructor.
  - discriminate.
  - simpl. lia.
  - repeat constructor.
  - discriminate.
  - simpl. lia.
  - reflexivity.
  - reflexivity.
  - lia.
  - unfold Parser.PTRDIFF_MAX. lia.
Defined.

Section ShadowingFacts.

Import Parser.

Lemma keeps_parsed_refl entries : keeps_parsed entries entries.
Proof. intros i entry H _. exact H. Qed.

Lemma keeps_parsed_trans a b c :
  keeps_parsed a b -> keeps_parsed b c -> keeps_parsed a c.
Proof. intros Hab Hbc i entry H Hp. apply Hbc, Hp. apply Hab; done. Qed.

Lemma keeping_ret {A} (a : A) : keeping (ret a).
Proof. intros p. apply keeps_parsed_refl. Qed.

Lemma keeping_raise {A} e : keeping (@raise A e).
Proof. intros p. apply keeps_parsed_refl. Qed.

Lemma keeping_bind {A B} (m : M A) (k : A -> M B) :
  keeping m -> (forall a, keeping (k a)) -> keeping (bind m k).
Proof.
  intros Hm Hk p. unfold bind. specialize (Hm p).
  destruct (m p) as [p' [a|e]]; simpl in *; [|done].
  eapply keeps_parsed_trans; [exact Hm|apply Hk].
Qed.

Lemma keeping_modify f :
  (forall p, m_entries (f p) = m_entries p) -> keeping (modify f).
Proof. intros Hf p. simpl. rewrite Hf. apply keeps_parsed_refl. Qed.

Lemma keeping_adopt_trailer trailer : keeping (adopt_trailer trailer).
Proof.
  apply keeping_modify. intros p. unfold adopted.
  destruct (m_Trailer p); reflexivity.
Qed.

Lemma keeping_read_subsections steps :
  forall n, keeping (read_subsections steps n).
Proof.
  induction steps as [|step steps IH]; intros n p; simpl.
  - destruct (Nat.eqb _ _); apply keeps_parsed_refl.
  - destruct (Nat.eqb _ _); [apply keeps_parsed_refl|].
    destruct step as [| |e|firstObject objectCount records];
      try apply keeps_parsed_refl.
    + destruct (ends_subsections e); apply keeps_parsed_refl.
    + assert (Hsub : keeps_parsed (m_entries p)
                (ReadXRefSubsection (m_magicOffset p) records firstObject
                                    objectCount (m_entries p)).1).
      { intros i entry. apply ReadXRefSubsection_parsed_slot. }
      destruct (ReadXRefSubsection _ _ _ _ _) as [entries [[]|e]];
        simpl in Hsub.
      * eapply keeps_parsed_trans; [exact Hsub|].
        exact (IH (S n) (set_entries entries p)).
      * destruct (ends_subsections e); exact Hsub.
Qed.

Lemma keeping_walk depth file :
  stream_tables_keep_parsed file ->
  (forall offset skip, keeping (ReadXRefContents depth file offset skip))
  /\ (forall view skip, keeping (readNextTrailer depth file view skip))
  /\ (forall offset skip,
        keeping (ReadXRefStreamContents depth file offset skip)).
Proof.
  intros Hfile.
  induction depth as [|depth (IHc & IHt & IHs)].
  { repeat split; intros; apply keeping_raise. }
  split; [|split].
  - intros offset skip p. rewrite ReadXRefContents_S.
    destruct (decide _); [apply keeps_parsed_refl|].
    change (m_entries p) with (m_entries (mark_visited offset p)).
    generalize (mark_visited offset p). change (keeping
      (read_section depth file offset skip)).
    unfold read_section. apply keeping_bind.
    + destruct (Z.ltb _ _); [|apply keeping_ret].
      intros q. destruct (file_recovered_xref _ _); apply keeps_parsed_refl.
    + intros located. destruct (file_section_at file located).
      * apply keeping_raise.
      * apply keeping_bind; [apply keeping_read_subsections|].
        intros _. apply IHt.
      * apply keeping_bind; [apply IHs|].
        intros _. apply keeping_modify. reflexivity.
  - intros [|trailer] skip; [apply keeping_raise|]. rewrite readNextTrailer_S.
    apply keeping_bind; [apply keeping_adopt_trailer|intros _].
    apply keeping_bind.
    + unfold read_hybrid.
      destruct (trailer !! "XRefStm") as [[]|]; try apply keeping_ret.
      apply IHs.
    + intros _. unfold follow_prev.
      destruct (trailer !! "Prev") as [[]|]; try apply keeping_ret.
      destruct (Z.ltb _ _); [|apply keeping_ret].
      apply keeping_bind; [apply keeping_modify; reflexivity|intros _].
      destruct skip; [apply keeping_ret|].
      intros q. destruct (decide _); [apply keeps_parsed_refl|apply IHc].
  - intros offset skip. cbn [ReadXRefStreamContents].
    destruct (file_xref_stream_at file offset) as [e|dict table previous]
      eqn:Hview; [apply keeping_raise|].
    apply keeping_bind; [apply keeping_adopt_trailer|intros _].
    apply keeping_bind.
    + intros q. pose proof (Hfile _ _ _ _ Hview (m_entries q)) as Hk.
      destruct (table (m_entries q)). exact Hk.
    + intros _. destruct previous as [previousOffset|]; [|apply keeping_ret].
      destruct (Z.eqb _ _); [apply keeping_ret|].
      apply keeping_bind; [apply keeping_modify; reflexivity|intros _].
      destruct skip; [apply keeping_ret|apply IHc].
Qed.

(** X19: the newest revision wins through the whole walk.  When the
    tables of the cross-reference streams pass over parsed slots as the
    classical reader does, a slot of the entry table that is parsed when
    [ReadXRefContents] is called is the same slot when the call is over,
    however many sections the walk reads through [Prev] and [XRefStm] and
    however it ends. *)
Theorem walk_keeps_parsed_slots depth file offset skip p i entry :
  stream_tables_keep_parsed file ->
  m_entries p !! i = Some entry ->
  entry_Parsed entry = true ->
  m_entries (ReadXRefContents depth file offset skip p).1 !! i = Some entry.
Proof.
  intros Hfile Hi Hp.
  destruct (keeping_walk depth file Hfile) as (Hc & _ & _).
  exact (Hc offset skip p i entry Hi Hp).
Qed.

End ShadowingFacts.

Lemma walk_keeps_parsed_slots_witness :
  Parser.m_entries
    (Parser.ReadXRefContents 8 self_prev_file 100 false
       (Parser.set_entries newest_entries Parser.new_parser)).1 !! 1%nat
  = Some (mkEntry 0 500 0 XRefInUse true).
Proof.
  apply (walk_keeps_parsed_slots 8 self_prev_file 100 false).
  - intros offset dict table previous H. discriminate.
  - reflexivity.
  - reflexivity.
Defined.

Section NoFollowFacts.

Import Parser.

Lemma counting_ret {A} (a : A) n : 0 <= n -> counting n (ret a).
Proof. intros Hn p. simpl. split; [done|lia]. Qed.

Lemma counting_raise {A} e n : 0 <= n -> counting n (@raise A e).
Proof. intros Hn p. simpl. split; [done|lia]. Qed.

Lemma counting_bind {A B} a b (m : M A) (k : A -> M B) :
  0 <= b -> counting a m -> (forall x, counting b (k x)) ->
  counting (a + b) (bind m k).
Proof.
  intros Hb Hm Hk p. unfold bind. specialize (Hm p).
  destruct (m p) as [p' [x|e]]; simpl in *.
  - specialize (Hk x p'). destruct Hm as [Hv1 ?], Hk as [Hv2 ?].
    split; [congruence|lia].
  - destruct Hm as [Hv1 ?]. split; [done|lia].
Qed.

Lemma counting_modify f :
  (forall p, m_visitedXRefOffsets (f p) = m_visitedXRefOffsets p) ->
  (forall p, m_IncrementalUpdateCount (f p) = m_IncrementalUpdateCount p) ->
  counting 0 (modify f).
Proof. intros Hv Hc p. simpl. rewrite Hv, Hc. split; [done|lia]. Qed.

Lemma counting_adopt_trailer trailer : counting 0 (adopt_trailer trailer).
Proof.
  apply counting_modify; intros p; unfold adopted;
    destruct (m_Trailer p); reflexivity.
Qed.

Lemma counting_increment_updates : counting 1 increment_updates.
Proof. intros p. simpl. split; [done|lia]. Qed.

Lemma counting_read_subsections steps n : counting 0 (read_subsections steps n).
Proof.
  intros p. destruct (read_subsections_frame steps n p) as (entries & -> & _).
  simpl. split; [done|lia].
Qed.

Lemma counting_stream depth file offset :
  counting 1 (ReadXRefStreamContents depth file offset true).
Proof.
  destruct depth as [|depth]; [apply counting_raise; lia|].
  cbn [ReadXRefStreamContents].
  destruct (file_xref_stream_at file offset) as [e|dict table previous];
    [apply counting_raise; lia|].
  apply (counting_bind 0 1); [lia|apply counting_adopt_trailer|intros _].
  apply (counting_bind 0 1); [lia| |intros _].
  - intros q. destruct (table (m_entries q)). simpl. split; [done|lia].
  - destruct previous as [previousOffset|]; [|apply counting_ret; lia].
    destruct (Z.eqb _ _); [apply counting_ret; lia|].
    apply (counting_bind 1 0); [lia|apply counting_increment_updates|].
    intros _. apply counting_ret. lia.
Qed.

Lemma counting_trailer depth file view :
  counting 2 (readNextTrailer depth file view true).
Proof.
  destruct depth as [|depth]; [apply counting_raise; lia|].
  destruct view as [|trailer]; [apply counting_raise; lia|].
  rewrite readNextTrailer_S.
  apply (counting_bind 0 2); [lia|apply counting_adopt_trailer|intros _].
  apply (counting_bind 1 1); [lia| |intros _].
  - unfold read_hybrid.
    destruct (trailer !! "XRefStm") as [[]|]; try (apply counting_ret; lia).
    apply counting_stream.
  - unfold follow_prev.
    destruct (trailer !! "Prev") as [[]|]; try (apply counting_ret; lia).
    destruct (Z.ltb _ _); [|apply counting_ret; lia].
    apply (counting_bind 1 0); [lia|apply counting_increment_updates|].
    intros _. apply counting_ret. lia.
Qed.

Lemma counting_section depth file offset :
  counting 2 (read_section depth file offset true).
Proof.
  unfold read_section. apply (counting_bind 0 2); [lia| |intros located].
  - destruct (Z.ltb _ _); [|apply counting_ret; lia].
    intros q. destruct (file_recovered_xref _ _); simpl; split; (done || lia).
  - destruct (file_section_at file located).
    + apply counting_raise. lia.
    + apply (counting_bind 0 2); [lia|apply counting_read_subsections|].
      intros _. apply counting_trailer.
    + apply (counting_bind 1 1); [lia|apply counting_stream|].
      intros _. intros q. simpl. split; [done|lia].
Qed.

(** X20: reading without following.  [ReadXRefContents] called with
    [skipFollowPrevious] reads one section: the only offset it can add to
    the visited offsets is the one it was called with, and it counts at
    most two incremental updates (one for the [Prev] of the trailer, one
    for the previous offset of the cross-reference stream that [XRefStm]
    names), which it does not read. *)
Theorem no_follow_reads_one_section depth file offset p :
  m_visitedXRefOffsets (ReadXRefContents depth file offset true p).1
    ⊆ {[ offset ]} ∪ m_visitedXRefOffsets p
  /\ m_IncrementalUpdateCount p
     <= m_IncrementalUpdateCount (ReadXRefContents depth file offset true p).1
     <= m_IncrementalUpdateCount p + 2.
Proof.
  destruct depth as [|depth].
  { simpl. split; [apply union_subseteq_r|lia]. }
  rewrite ReadXRefContents_S.
  destruct (decide _); [simpl; split; [apply union_subseteq_r|lia]|].
  destruct (counting_section depth file offset (mark_visited offset p))
    as [Hv Hc].
  split; [rewrite Hv; done|exact Hc].
Qed.

End NoFollowFacts.

Section RevisionFacts.

Import Parser.

Lemma read_entry_canonical magicOffset buffer objIndex entries :
  0 <= magicOffset -> magicOffset + 9999999999 <= PTRDIFF_MAX ->
  canonical_record buffer ->
  (read_entry magicOffset buffer objIndex entries).2 = Ok tt.
Proof.
  intros Hm0 Hm (ds & gs & T & E1 & E2 & -> & Hds & Hlds & Hgs & Hlgs & HT & HE).
  unfold read_entry. destruct (entries !! objIndex) as [entry|]; [|done].
  destruct (entry_Parsed entry); [done|].
  rewrite parse_entry_canonical by done. rewrite HT, HE. reflexivity.
Qed.

Lemma read_entries_canonical magicOffset records firstObject remaining :
  0 <= magicOffset -> magicOffset + 9999999999 <= PTRDIFF_MAX ->
  forall index entries,
    (forall k, (index <= k < index + remaining)%nat ->
               canonical_record (records k)) ->
    (read_entries magicOffset records firstObject remaining index entries).2
    = Ok tt.
Proof.
  intros Hm0 Hm. induction remaining as [|remaining IH]; intros index entries Hall.
  - reflexivity.
  - cbn [read_entries].
    pose proof (read_entry_canonical magicOffset (records index)
                  (Z.to_nat (wrap32 (firstObject + Z.of_nat index))) entries
                  Hm0 Hm (Hall index ltac:(lia))) as Hone.
    destruct (read_entry _ _ _ _) as [entries' [[]|e]]; [|discriminate].
    apply IH. intros k Hk. apply Hall. lia.
Qed.

Lemma readable_subsection_is_read magicOffset firstObject objectCount records
    entries :
  0 <= magicOffset -> magicOffset + 9999999999 <= PTRDIFF_MAX ->
  readable_subsection (StepSubsection firstObject objectCount records) ->
  (ReadXRefSubsection magicOffset records firstObject objectCount entries).2
  = Ok tt.
Proof.
  intros Hm0 Hm (f & c & r & [= <- <- <-] & Hf & Hc & Hsum & Hall).
  unfold ReadXRefSubsection.
  destruct (Z.ltb_spec firstObject 0); [lia|].
  destruct (Z.ltb_spec objectCount 0); [lia|].
  destruct (Z.leb_spec (2 ^ 32) (firstObject + objectCount)); [lia|].
  apply read_entries_canonical; [done|done|].
  intros k Hk. apply Hall. lia.
Qed.

Lemma read_subsections_cap subs rest : forall n p,
  0 <= m_magicOffset p -> m_magicOffset p + 9999999999 <= PTRDIFF_MAX ->
  Forall readable_subsection subs ->
  (n <= MAX_XREF_SESSION_COUNT)%nat ->
  (read_subsections (subs ++ StepTrailer :: rest) n p).2
  = if (MAX_XREF_SESSION_COUNT <=? n + length subs)%nat
    then Raise InvalidEOFToken else Ok tt.
Proof.
  induction subs as [|step subs IH]; intros n p Hm0 Hm Hall Hn.
  - cbn [app read_subsections length]. rewrite Nat.add_0_r.
    destruct (Nat.eqb_spec n MAX_XREF_SESSION_COUNT) as [->|Hne].
    + rewrite Nat.leb_refl. reflexivity.
    + destruct (Nat.leb_spec MAX_XREF_SESSION_COUNT n); [lia|reflexivity].
  - apply Forall_cons in Hall as [Hstep Hall].
    pose proof Hstep as (first & count & records & -> & _).
    cbn [app read_subsections length].
    destruct (Nat.eqb_spec n MAX_XREF_SESSION_COUNT) as [->|Hne].
    + destruct (Nat.leb_spec MAX_XREF_SESSION_COUNT
                  (MAX_XREF_SESSION_COUNT + S (length subs)));
        [reflexivity|lia].
    + pose proof (readable_subsection_is_read (m_magicOffset p) first count
                    records (m_entries p) Hm0 Hm Hstep) as Hok.
      destruct (ReadXRefSubsection _ _ _ _ _) as [entries r].
      simpl in Hok. subst r.
      rewrite IH by (done || lia).
      replace (S n + length subs)%nat with (n + S (length subs))%nat
        by lia.
      reflexivity.
Qed.

(** X18: the cap on subsections.  When the magic offset leaves room for
    a ten-digit offset, a cross-reference table made of subsections with
    nothing wrong in them (ranges below [2 ^ 32], records of the
    canonical form) and the [trailer] keyword is read to the keyword
    when it has fewer than 512 subsections, and raises [InvalidEOFToken]
    when it has 512 or more, whatever the table held before. *)
Theorem subsections_are_capped subs rest p :
  0 <= m_magicOffset p -> m_magicOffset p + 9999999999 <= PTRDIFF_MAX ->
  Forall readable_subsection subs ->
  (read_subsections (subs ++ StepTrailer :: rest) 0 p).2
  = if (512 <=? length subs)%nat then Raise InvalidEOFToken else Ok tt.
Proof.
  intros Hm0 Hm Hall.
  rewrite (read_subsections_cap subs rest 0 p Hm0 Hm Hall)
    by (unfold MAX_XREF_SESSION_COUNT; lia).
  reflexivity.
Qed.

Lemma lowest_offset_fold entries : forall acc : bool * Z,
  let step := fun (acc : bool * Z) (entry : PdfXRefEntry) =>
    if entry_Parsed entry
       && bool_decide (entry_Type entry = XRefInUse)
       && Z.ltb (entry_Offset entry) acc.2
    then (true, entry_Offset entry)
    else acc in
  let r := fold_left step entries acc in
  r.2 <= acc.2
  /\ (forall entry, entry ∈ entries -> in_use_entry entry ->
        r.2 <= entry_Offset entry)
  /\ (r = acc
      \/ (r.1 = true
          /\ exists entry, entry ∈ entries /\ in_use_entry entry
                           /\ entry_Offset entry = r.2)).
Proof.
  induction entries as [|entry entries IH]; intros acc step r.
  - subst r. simpl. split; [lia|]. split; [|auto].
    intros e He. apply not_elem_of_nil in He as [].
  - subst r. cbn [fold_left].
    destruct (IH (step acc entry)) as (H1 & H2 & H3). fold step in H1, H2, H3.
    assert (Hstep : (step acc entry).2 <= acc.2
              /\ (in_use_entry entry ->
                  (step acc entry).2 <= entry_Offset entry)
              /\ (step acc entry = acc
                  \/ (in_use_entry entry
                      /\ step acc entry = (true, entry_Offset entry)))).
    { unfold step, in_use_entry.
      destruct (entry_Parsed entry); simpl; [|split; [lia|]; split; [|auto];
        intros [? _]; discriminate].
      destruct (bool_decide_reflect (entry_Type entry = XRefInUse))
        as [Ht|Ht]; simpl; [|split; [lia|]; split; [|auto]; intros [_ ?];
        done].
      destruct (Z.ltb_spec (entry_Offset entry) acc.2); simpl.
      - split; [lia|]. split; [lia|]. right. auto.
      - split; [lia|]. split; [lia|]. left. reflexivity. }
    destruct Hstep as (S1 & S2 & S3).
    split; [lia|]. split.
    + intros e He Hin. apply elem_of_cons in He as [->|He].
      * specialize (S2 Hin). lia.
      * apply H2; done.
    + destruct H3 as [H3|(H3 & e & He & Hin & Hoff)].
      * rewrite H3. destruct S3 as [S3|[Hin S3]]; [left; exact S3|].
        right. rewrite S3. simpl. split; [reflexivity|].
        exists entry. split; [apply list_elem_of_here|]. split; done.
      * right. split; [exact H3|]. exists e.
        split; [apply list_elem_of_further, He|]. split; done.
Qed.

(** X21: the offset of the previous revision.  When
    [TryGetPreviousRevisionOffset] returns true, the section it has read
    counts at least one incremental update and the offset it gives is that
    of a parsed in-use entry of that section's table, and is the lowest
    such offset; when it returns false the offset it gives is [SIZE_MAX],
    and either no update was counted or the table has no parsed in-use
    entry below [SIZE_MAX]. *)
Theorem previous_revision_offset_is_lowest depth file currOffset found
    eofOffset :
  TryGetPreviousRevisionOffset depth file currOffset = Ok (found, eofOffset) ->
  let parser :=
    (ReadDocumentStructure depth file (to_ssize currOffset) true
                           new_parser).1 in
  (found = true ->
     m_IncrementalUpdateCount parser <> 0
     /\ (exists entry, entry ∈ m_entries parser /\ in_use_entry entry
                       /\ entry_Offset entry = eofOffset)
     /\ forall entry, entry ∈ m_entries parser -> in_use_entry entry ->
          eofOffset <= entry_Offset entry)
  /\ (found = false ->
        eofOffset = SIZE_MAX
        /\ (m_IncrementalUpdateCount parser = 0
            \/ forall entry, entry ∈ m_entries parser ->
                 in_use_entry entry -> SIZE_MAX <= entry_Offset entry)).
Proof.
  unfold TryGetPreviousRevisionOffset. intros H. cbv zeta.
  destruct (ReadDocumentStructure _ _ _ _ _) as [parser [[]|e]];
    [|discriminate]. cbn [fst].
  destruct (Z.eqb_spec (m_IncrementalUpdateCount parser) 0) as [Hz|Hnz].
  - injection H as <- <-. split; [discriminate|]. auto.
  - injection H as H.
    destruct (lowest_offset_fold (m_entries parser) (false, SIZE_MAX))
      as (_ & Hlow & Hcase).
    fold (lowest_offset (m_entries parser)) in Hlow, Hcase.
    rewrite H in Hlow, Hcase. cbn [fst snd] in Hlow, Hcase.
    split.
    + intros ->. split; [exact Hnz|].
      destruct Hcase as [Hcase|(_ & Hex)]; [discriminate|].
      split; [exact Hex|exact Hlow].
    + intros ->. destruct Hcase as [Hcase|(Hcase & _)]; [|discriminate].
      injection Hcase as ->. split; [reflexivity|]. right. exact Hlow.
Qed.

End RevisionFacts.

Lemma subsections_are_capped_witness :
  (Parser.read_subsections
     (replicate 511 (Parser.StepSubsection 0 4 minimal_records)
      ++ [Parser.StepTrailer]) 0 Parser.new_parser).2 = Ok tt
  /\ (Parser.read_subsections
        (replicate 512 (Parser.StepSubsection 0 4 minimal_records)
         ++ [Parser.StepTrailer]) 0 Parser.new_parser).2
     = Raise InvalidEOFToken.
Proof.
  assert (Hreadable :
    readable_subsection (Parser.StepSubsection 0 4 minimal_records)).
  { exists 0, 4, minimal_records. split; [reflexivity|].
    split; [lia|]. split; [lia|]. split; [lia|].
    intros index Hindex.
    destruct index as [|[|[|[|index]]]]; [| | | |simpl in Hindex; lia].
    - exists (CString.chars "0000000000"), (CString.chars "65535"),
             "f"%char, CString.SP, CString.LF.
      repeat split; repeat constructor.
    - exists (CString.chars "0000000009"), (CString.chars "00000"),
             "n"%char, CString.SP, CString.LF.
      repeat split; repeat constructor.
    - exists (CString.chars "0000000058"), (CString.chars "00000"),
             "n"%char, CString.SP, CString.LF.
      repeat split; repeat constructor.
    - exists (CString.chars "0000000115"), (CString.chars "00000"),
             "n"%char, CString.SP, CString.LF.
      repeat split; repeat constructor. }
  split.
  - rewrite (subsections_are_capped
               (replicate 511 (Parser.StepSubsection 0 4 minimal_records)) []
               Parser.new_parser).
    + reflexivity.
    + simpl. lia.
    + unfold Parser.PTRDIFF_MAX. simpl. lia.
    + apply Forall_replicate, Hreadable.
  - rewrite (subsections_are_capped
               (replicate 512 (Parser.StepSubsection 0 4 minimal_records)) []
               Parser.new_parser).
    + reflexivity.
    + simpl. lia.
    + unfold Parser.PTRDIFF_MAX. simpl. lia.
    + apply Forall_replicate, Hreadable.
Defined.

Lemma previous_revision_offset_is_lowest_witness :
  Parser.TryGetPreviousRevisionOffset 8 self_prev_file 400 = Ok (true, 9)
  /\ exists entry,
       entry ∈ Parser.m_entries
                 (Parser.ReadDocumentStructure 8 self_prev_file (to_ssize 400)
                    true Parser.new_parser).1
       /\ in_use_entry entry /\ entry_Offset entry = 9.
Proof.
  split; [vm_compute; reflexivity|].
  destruct (previous_revision_offset_is_lowest 8 self_prev_file 400 true 9)
    as [H _]; [vm_compute; reflexivity|].
  apply H. reflexivity.
Defined.

(** * Properties of the loop of [readObjectsInternal] *)

Section LoadFacts.

Import IndirectObjectList Parser.

Variable load : option PdfEncrypt -> PdfReference -> Z -> Result PdfObject.
Variable p : PdfParser.

Lemma extends_refl i st comp : extends i i st comp st comp.
Proof. repeat split; eauto. Qed.

Lemma extends_trans i j k st comp st1 comp1 st2 comp2 :
  (i <= j <= k)%nat ->
  extends i j st comp st1 comp1 -> extends j k st1 comp1 st2 comp2 ->
  extends i k st comp st2 comp2.
Proof.
  intros Hij (F1 & U1 & C1 & O1) (F2 & U2 & C2 & O2).
  split; [auto|]. split; [auto|]. split.
  - intros key members Hm.
    destruct (C1 key members Hm) as (m1 & Hm1 & Hsub1).
    destruct (C2 key m1 Hm1) as (m2 & Hm2 & Hsub2).
    exists m2. split; [exact Hm2|auto].
  - intros ref Hr.
    destruct (O1 ref ltac:(lia)) as [Hf1 Hg1].
    destruct (O2 ref ltac:(lia)) as [Hf2 Hg2].
    split; [auto|]. rewrite Hg2. exact Hg1.
Qed.

(** What the later turns leave of a slot. *)
Lemma unrecorded_later i hi st0 st comp st' comp' :
  extends (S i) hi st comp st' comp' ->
  unrecorded i st0 st -> unrecorded i st0 st'.
Proof.
  intros (_ & _ & _ & O) H ref Hr.
  destruct (H ref Hr) as [Hf Hg].
  destruct (O ref ltac:(lia)) as [Hf' Hg'].
  split; [auto|]. rewrite Hg'. exact Hg.
Qed.

Lemma released_later i hi generation st0 st comp st' comp' :
  extends (S i) hi st comp st' comp' ->
  released i generation st0 st -> released i generation st0 st'.
Proof.
  intros Hext. pose proof Hext as (F & U & _). unfold released.
  destruct (Z.ltb _ _); [apply F|].
  intros [Hu Hn]. split; [apply U, Hu|].
  exact (unrecorded_later _ _ _ _ _ _ _ Hext Hn).
Qed.

Lemma placed_later i hi entry st0 st comp st' comp' :
  extends (S i) hi st comp st' comp' ->
  placed load p i entry st0 st comp -> placed load p i entry st0 st' comp'.
Proof.
  intros Hext. pose proof Hext as (F & U & C & O). unfold placed.
  destruct (entry_Parsed entry); [|apply F].
  destruct (entry_Type entry); try done.
  - apply (released_later _ _ _ _ _ _ _ _ Hext).
  - destruct (Z.ltb 0 (entry_Offset entry)).
    + destruct (load _ _ _) as [obj|e].
      * intros H.
        rewrite (proj2 (O (mkRef (Z.of_nat i) (wrap16 (entry_Generation entry)))
                          ltac:(left; simpl; lia))).
        exact H.
      * apply (released_later _ _ _ _ _ _ _ _ Hext).
    + destruct (Z.eqb _ _); [apply F|].
      apply (unrecorded_later _ _ _ _ _ _ _ Hext).
  - intros (members & Hm & Hin).
    destruct (C _ _ Hm) as (members' & Hm' & Hsub).
    exists members'. split; [exact Hm'|apply Hsub, Hin].
Qed.

(** What the earlier turns leave for a slot: what is said of it from the
    store a later turn started from holds from an earlier store. *)
Lemma unrecorded_earlier lo i st0 comp0 st1 comp1 st :
  (lo <= i)%nat ->
  extends lo i st0 comp0 st1 comp1 ->
  unrecorded i st1 st -> unrecorded i st0 st.
Proof.
  intros Hi (_ & _ & _ & O) H ref Hr.
  destruct (H ref Hr) as [Hf Hg].
  destruct (O ref ltac:(lia)) as [Hf' Hg'].
  split; [auto|]. rewrite Hg. exact Hg'.
Qed.

Lemma placed_earlier lo i entry st0 comp0 st1 comp1 st comp :
  (lo <= i)%nat ->
  extends lo i st0 comp0 st1 comp1 ->
  placed load p i entry st1 st comp -> placed load p i entry st0 st comp.
Proof.
  intros Hi Hext. unfold placed, released.
  pose proof (unrecorded_earlier lo i st0 comp0 st1 comp1 st Hi Hext) as Hn.
  destruct (entry_Parsed entry); [|done].
  destruct (entry_Type entry); try done.
  - destruct (Z.ltb _ _); [done|]. intros [? ?]. auto.
  - destruct (Z.ltb 0 (entry_Offset entry)).
    + destruct (load _ _ _) as [obj|e]; [done|].
      destruct (Z.ltb _ _); [done|]. intros [? ?]. auto.
    + destruct (Z.eqb _ _); [done|]. exact Hn.
Qed.

Lemma AddFreeObject_extends i generation st comp :
  extends i (S i) st comp (AddFreeObject (mkRef (Z.of_nat i) generation) st)
          comp.
Proof.
  destruct (AddFreeObject_frame (mkRef (Z.of_nat i) generation) st)
    as (Hobj & Hun & _).
  split; [|split; [|split]].
  - intros x Hx. apply AddFreeObject_elem. auto.
  - intros n. rewrite Hun. auto.
  - eauto.
  - intros ref Hr. unfold GetObject. rewrite Hobj. split; [|reflexivity].
    intros Hin. apply AddFreeObject_elem in Hin as [->|Hin]; [|exact Hin].
    simpl in Hr. lia.
Qed.

Lemma SafeAddFreeObject_extends i generation st comp :
  extends i (S i) st comp
          (SafeAddFreeObject (mkRef (Z.of_nat i) generation) st).2 comp.
Proof.
  unfold SafeAddFreeObject, tryAddFreeObject. cbn [ObjectNumber GenerationNumber].
  destruct (Z.leb _ _); cbn [snd].
  - split; [auto|]. split; [|split; [eauto|]].
    + intros n Hn. simpl. apply elem_of_union_r, Hn.
    + intros ref _. split; [auto|reflexivity].
  - apply AddFreeObject_extends.
Qed.

Lemma SafeAddFreeObject_released i generation st :
  0 <= generation ->
  released i generation st
           (SafeAddFreeObject (mkRef (Z.of_nat i) generation) st).2.
Proof.
  intros H0. unfold released, SafeAddFreeObject.
  cbn [ObjectNumber GenerationNumber].
  destruct (Z.ltb_spec (generation + 1) MaxXRefGenerationNum) as [Hg|Hg].
  - rewrite tryAddFreeObject_below_cap by lia. cbn [snd].
    apply AddFreeObject_elem. auto.
  - rewrite tryAddFreeObject_at_cap by lia. cbn [snd]. split.
    + simpl. apply elem_of_union_l, elem_of_singleton_2. reflexivity.
    + intros ref _. split; [auto|reflexivity].
Qed.

Lemma wrap16_range z : 0 <= wrap16 z < 2 ^ 16.
Proof. unfold wrap16. apply Z.mod_pos_bound. lia. Qed.

Lemma load_entry_places i entry st comp :
  m_StrictParsing p = false ->
  m_IgnoreBrokenObjects p = true ->
  (entry_Parsed entry = true -> entry_Type entry <> XRefUnknown) ->
  exists st' comp',
    load_entry load p i entry st comp = inr (st', comp')
    /\ extends i (S i) st comp st' comp'
    /\ ((1 <= i)%nat -> placed load p i entry st st' comp').
Proof.
  intros Hstrict Hignore Hknown. unfold load_entry, placed.
  rewrite Hstrict, Hignore.
  pose proof (wrap16_range (entry_Generation entry)) as Hgen.
  assert (Hsame : extends i (S i) st comp st comp).
  { repeat split; eauto. }
  destruct (entry_Parsed entry).
  - destruct (entry_Type entry) eqn:Htype.
    + destruct Hknown; reflexivity.
    + destruct (Nat.eqb_spec i 0) as [Hz|Hz]; cbn [negb].
      * eexists _, _. split; [reflexivity|].
        split; [exact Hsame|]. intros H1. lia.
      * eexists _, _. split; [reflexivity|].
        split; [apply SafeAddFreeObject_extends|].
        intros _. apply SafeAddFreeObject_released. lia.
    + destruct (Z.ltb 0 (entry_Offset entry)).
      * destruct (load _ _ _) as [obj|e].
        -- eexists _, _. split; [reflexivity|]. split.
           ++ destruct (PushObject_frame
                          (mkRef (Z.of_nat i) (wrap16 (entry_Generation entry)))
                          obj st) as (_ & Hother & _ & Hfree & Hun & _).
              split; [intros x; rewrite Hfree; auto|].
              split; [intros n; rewrite Hun; auto|]. split; [eauto|].
              intros ref Hr. rewrite Hfree. split; [auto|].
              apply Hother. intros ->. simpl in Hr. lia.
           ++ intros _. apply PushObject_frame.
        -- eexists _, _. split; [reflexivity|].
           split; [apply SafeAddFreeObject_extends|].
           intros _. apply SafeAddFreeObject_released. lia.
      * destruct (Z.eqb_spec (entry_Generation entry) 0) as [Hz|Hnz].
        -- eexists _, _. split; [reflexivity|].
           split; [apply AddFreeObject_extends|].
           intros _. apply AddFreeObject_elem. auto.
        -- eexists _, _. split; [reflexivity|].
           split; [exact Hsame|]. intros _ ref _. auto.
    + eexists _, _. split; [reflexivity|]. split.
      * split; [auto|]. split; [auto|]. split; [|intros ref _; auto].
        intros key members Hm.
        destruct (decide (key = entry_ObjectNumber entry)) as [->|Hne].
        -- rewrite lookup_insert_eq, Hm. simpl. eexists. split; [reflexivity|].
           intros x Hx. apply elem_of_app. auto.
        -- rewrite lookup_insert_ne by done. eauto.
      * intros _. rewrite lookup_insert_eq. eexists. split; [reflexivity|].
        apply elem_of_app. right. apply list_elem_of_here.
  - destruct (Nat.eqb_spec i 0) as [Hz|Hz]; cbn [negb].
    + eexists _, _. split; [reflexivity|].
      split; [exact Hsame|]. intros H1. lia.
    + eexists _, _. split; [reflexivity|].
      split; [apply AddFreeObject_extends|].
      intros _. apply AddFreeObject_elem. auto.
Qed.

Lemma load_entries_places entries : forall i st comp,
  m_StrictParsing p = false ->
  m_IgnoreBrokenObjects p = true ->
  Forall (fun entry => entry_Parsed entry = true ->
                       entry_Type entry <> XRefUnknown) entries ->
  exists st' comp',
    load_entries load p entries i st comp = inr (st', comp')
    /\ extends i (i + length entries) st comp st' comp'
    /\ forall k entry, entries !! k = Some entry -> (1 <= i + k)%nat ->
         placed load p (i + k) entry st st' comp'.
Proof.
  induction entries as [|entry entries IH]; intros i st comp Hs Hb Hall.
  - exists st, comp. split; [reflexivity|].
    split; [simpl; rewrite Nat.add_0_r; apply extends_refl|].
    intros k e Hk. discriminate.
  - apply Forall_cons in Hall as [Hentry Hall].
    destruct (load_entry_places i entry st comp Hs Hb Hentry)
      as (st1 & comp1 & Hstep & Hext1 & Hacc1).
    destruct (IH (S i) st1 comp1 Hs Hb Hall)
      as (st' & comp' & Hrest & Hext & Hacc).
    exists st', comp'. cbn [load_entries]. rewrite Hstep.
    split; [exact Hrest|]. split.
    + apply (extends_trans i (S i) _ _ _ st1 comp1);
        [simpl; lia|done|].
      replace (i + length (entry :: entries))%nat
        with (S i + length entries)%nat by (simpl; lia).
      exact Hext.
    + intros [|k] e Hk Hik.
      * injection Hk as <-. rewrite Nat.add_0_r in *.
        apply (placed_later i _ entry st st1 comp1 st' comp' Hext).
        apply Hacc1, Hik.
      * replace (i + S k)%nat with (S i + k)%nat by lia.
        apply (placed_earlier i (S i + k) e st comp st1 comp1); [lia| |].
        -- destruct Hext1 as (F & U & C & O).
           split; [exact F|]. split; [exact U|]. split; [exact C|].
           intros ref Hr. apply O. lia.
        -- apply Hacc; [exact Hk|lia].
Qed.

(** X22: where the loop of [readObjectsInternal] leaves the slots of the
    table.  Outside strict parsing and with broken objects ignored, the
    loop over a table whose parsed entries have a known type does not
    throw, keeps what was on the free list, and leaves every slot from 1
    on as follows.  An in-use slot with an offset above 0 whose object
    loads has that object in the store under the generation cut to 16
    bits.  A free slot, and an in-use slot with an offset above 0 whose
    object does not load, has its number on the free list with the next
    generation when that is below 65535; when it is not, nothing is
    recorded about the number (no object and no new free reference), and
    it is the next generation that becomes an unavailable number.  An
    unparsed slot, and an in-use slot with offset 0 and generation 0,
    has its number on the free list with generation 1.  Of an in-use
    slot with offset 0 and another generation nothing is recorded.  The
    index of a compressed slot is listed under the object stream that
    holds it. *)
Theorem table_slots_after_loading st :
  m_StrictParsing p = false ->
  m_IgnoreBrokenObjects p = true ->
  Forall (fun entry => entry_Parsed entry = true ->
                       entry_Type entry <> XRefUnknown) (m_entries p) ->
  exists st' compressedObjects,
    load_entries load p (m_entries p) 0 st ∅ = inr (st', compressedObjects)
    /\ (forall ref, ref ∈ m_FreeObjects st -> ref ∈ m_FreeObjects st')
    /\ forall i entry,
         m_entries p !! i = Some entry -> (1 <= i)%nat ->
         placed load p i entry st st' compressedObjects.
Proof.
  intros Hs Hb Hall.
  destruct (load_entries_places (m_entries p) 0 st ∅ Hs Hb Hall)
    as (st' & comp' & Hrun & (Hfree & _) & Hacc).
  exists st', comp'. split; [exact Hrun|]. split; [exact Hfree|].
  intros i entry Hi H1. apply (Hacc i entry Hi). lia.
Qed.

End LoadFacts.

Lemma table_slots_after_loading_witness :
  let load := fun (_ : option Parser.PdfEncrypt) (_ : PdfReference) (_ : Z) =>
                Ok capped_object in
  let p := Parser.set_entries worn_entries Parser.new_parser in
  exists st' compressedObjects,
    Parser.load_entries load p (Parser.m_entries p) 0
      IndirectObjectList.empty ∅
    = inr (st', compressedObjects)
    /\ (forall ref,
          ref ∈ IndirectObjectList.m_FreeObjects IndirectObjectList.empty ->
          ref ∈ IndirectObjectList.m_FreeObjects st')
    /\ forall i entry,
         Parser.m_entries p !! i = Some entry -> (1 <= i)%nat ->
         placed load p i entry IndirectObjectList.empty st' compressedObjects.
Proof.
  intros load p.
  apply (table_slots_after_loading load p IndirectObjectList.empty).
  - reflexivity.
  - reflexivity.
  - repeat constructor; discriminate.
Defined.

(** * What a parse leaves to the caller *)

Section OutcomeFacts.

Import Parser.

Lemma ReadObjects_trailer file p p' :
  ReadObjects file p = (p', Ok tt) ->
  m_Trailer p' = m_Trailer p /\ m_Trailer p <> None.
Proof.
  unfold ReadObjects, bind, modify, ret, raise.
  repeat (case_match; simplify_eq; simpl; try done).
  all: try (intros [= <-]; simpl; split; congruence).
Qed.

(** X23: a parse ends with a trailer or with nothing.  When [Parse]
    returns, the parser holds a trailer: [GetTrailer] gives it,
    [TakeTrailer] hands it over once and leaves a parser whose
    [GetTrailer] raises [InvalidHandle] and whose [TakeTrailer] gives
    null.  When [Parse] throws anything but [InvalidPassword], the parser
    holds no trailer, no entry and no count of updates. *)
Theorem parse_ends_with_trailer_or_nothing depth file loadOnDemand p :
  let p' := (Parse depth file loadOnDemand p).1 in
  match (Parse depth file loadOnDemand p).2 with
  | Ok _ =>
      exists trailer,
        GetTrailer p' = Ok trailer
        /\ (TakeTrailer p').1 = Some trailer
        /\ GetTrailer (TakeTrailer p').2 = Raise InvalidHandle
        /\ (TakeTrailer (TakeTrailer p').2).1 = None
  | Raise e =>
      e = InvalidPassword
      \/ (GetTrailer p' = Raise InvalidHandle
          /\ (TakeTrailer p').1 = None
          /\ m_entries p' = []
          /\ m_IncrementalUpdateCount p' = 0)
  end.
Proof.
  rewrite Parse_unfold.
  destruct (parse_body depth file (set_LoadOnDemand loadOnDemand (reset p)))
    as [p1 [[]|e]] eqn:Hbody; cbn [fst snd].
  - assert (Htrailer : m_Trailer p1 <> None).
    { unfold parse_body, bind in Hbody.
      destruct (IsPdfFile file _) as [q1 [isPdf|e1]]; [|discriminate].
      destruct ((if isPdf then ret tt else raise InvalidPDF) q1)
        as [q2 [[]|e2]]; [|discriminate].
      destruct (ReadDocumentStructure depth file (-1) false q2)
        as [q3 [[]|e3]]; [|discriminate].
      apply ReadObjects_trailer in Hbody as [-> H]. exact H. }
    unfold GetTrailer, TakeTrailer.
    destruct (m_Trailer p1) as [trailer|]; [|done].
    exists trailer. repeat split.
  - destruct (decide (e = InvalidPassword)); cbn [fst snd]; [auto|].
    right. repeat split.
Qed.

End OutcomeFacts.
